(** * Kiwi (lume/kiwi): a shallow embedding of the Cassowary solver

    The sources embedded here are [src/src/solver.ts] (the classes [Solver],
    [Row] and [Symbol] and the function [nearZero]), [src/unnamed/part_003]
    ([Strength]), [src/unnamed/part_000] ([Operator], [Constraint]),
    [src/unnamed/part_004] ([Variable], [Expression], [parseArgs]) and the
    class [IndexedMap] with [createMap] (found in
    [src/.github/workflows/tests.yml]).

    A JavaScript [number] is an IEEE 754 binary64 value; it is embedded as
    Rocq's primitive [float], whose operations are the binary64 ones, so that
    every closed example below evaluates to the very double the program
    computes.  Objects mutated in place (rows, pairs, edit infos, variables)
    are embedded by explicit state passing. *)

From Stdlib Require Import Floats ZArith String List Bool Lia Permutation.
Import ListNotations.

Set Warnings "-inexact-float".
#[local] Open Scope string_scope.
#[local] Open Scope list_scope.
#[local] Open Scope Z_scope.
#[local] Open Scope float_scope.

(** ** Numbers *)

Module Math.

(** [Math.min] of two numbers: NaN when either is NaN, and [-0] is below
    [+0]. *)
Definition min (a b : float) : float :=
  if is_nan a || is_nan b then nan
  else if a <? b then a
  else if b <? a then b
  else if get_sign a then a else b.

(** [Math.max] of two numbers: NaN when either is NaN, and [+0] is above
    [-0]. *)
Definition max (a b : float) : float :=
  if is_nan a || is_nan b then nan
  else if a <? b then b
  else if b <? a then a
  else if get_sign a then b else a.

(** [Number.MAX_VALUE]. *)
Definition MAX_VALUE : float := 0x1.fffffffffffffp+1023.

End Math.

(** [x !== y] on numbers. *)
Definition neqb (x y : float) : bool := negb (x =? y).

(** solver.ts, [nearZero]. *)
Definition nearZero (value : float) : bool :=
  let eps := 1.0e-8 in
  if value <? 0.0 then - value <? eps else value <? eps.

(** ** strength: [Strength] *)

Module Strength.

(** [Strength.create(a, b, c, w = 1.0)]; the optional weight is [None] when
    the caller leaves it out. *)
Definition create (a b c : float) (w : option float) : float :=
  let w := match w with None => 1.0 | Some w => w end in
  let result := 0.0 in
  let result := result + Math.max 0.0 (Math.min 1000.0 (a * w)) * 1000000.0 in
  let result := result + Math.max 0.0 (Math.min 1000.0 (b * w)) * 1000.0 in
  let result := result + Math.max 0.0 (Math.min 1000.0 (c * w)) in
  result.

Definition required : float := create 1000.0 1000.0 1000.0 None.
Definition strong : float := create 1.0 0.0 0.0 None.
Definition medium : float := create 0.0 1.0 0.0 None.
Definition weak : float := create 0.0 0.0 1.0 None.

(** [Strength.clip(value)]. *)
Definition clip (value : float) : float :=
  Math.max 0.0 (Math.min required value).

(** The packing as the specification words it, with
    [clamp(x, lo, hi) = max(lo, min(hi, x))]. *)
Definition clamp (x lo hi : float) : float := Math.max lo (Math.min hi x).

Definition create_spec (a b c w : float) : float :=
  clamp (a * w) 0 1000 * 1000000 + clamp (b * w) 0 1000 * 1000
  + clamp (c * w) 0 1000.

End Strength.

(** ** maptype: [IndexedMap]

    An [IndexedMap] is an array of pairs together with an object [index] that
    sends the id of a key to its position in the array.  Every method keeps
    [index] the inverse of the array, so the embedding keeps the array and
    reads [index[key.id()]] off it ([index_of]). *)

Class HasId (K : Type) := id_of : K -> Z.

Section IndexedMap.

Context {K V : Type} `{HasId K}.

Definition IndexedMap : Type := list (K * V).

(** [this.index[key.id()]] *)
Fixpoint index_of (key : K) (array : list (K * V)) : option nat :=
  match array with
  | [] => None
  | item :: rest =>
      if (id_of (fst item) =? id_of key)%Z then Some O
      else option_map S (index_of key rest)
  end.

(** [array[i] = pair] for an [i] inside the array. *)
Fixpoint set_at (i : nat) (item : K * V) (array : list (K * V)) : list (K * V) :=
  match array, i with
  | [], _ => []
  | _ :: rest, O => item :: rest
  | p :: rest, S j => p :: set_at j item rest
  end.

Definition createMap : IndexedMap := [].

Definition size (m : IndexedMap) : nat := length m.

Definition empty (m : IndexedMap) : bool :=
  match m with [] => true | _ => false end.

Definition itemAt (i : nat) (m : IndexedMap) : option (K * V) := nth_error m i.

Definition find (key : K) (m : IndexedMap) : option (K * V) :=
  match index_of key m with
  | None => None
  | Some i => nth_error m i
  end.

Definition contains (key : K) (m : IndexedMap) : bool :=
  match index_of key m with None => false | Some _ => true end.

(** [setDefault(key, factory)] returns the pair and the map, which has grown
    by one pair when the key was absent. *)
Definition setDefault (key : K) (factory : unit -> V) (m : IndexedMap)
  : (K * V) * IndexedMap :=
  match find key m with
  | None => let pair := (key, factory tt) in (pair, m ++ [pair])
  | Some item => (item, m)
  end.

Definition insert (key : K) (value : V) (m : IndexedMap) : IndexedMap :=
  match index_of key m with
  | None => m ++ [(key, value)]
  | Some i => set_at i (key, value) m
  end.

(** [erase(key)]: the last pair of the array takes the place of the erased
    one (unless the erased pair is the last). *)
Definition erase (key : K) (m : IndexedMap) : option (K * V) * IndexedMap :=
  match index_of key m with
  | None => (None, m)
  | Some i =>
      match nth_error m i, last (map Some m) None with
      | Some item, Some last_item =>
          let popped := removelast m in
          if Nat.eqb i (length popped) then (Some item, popped)
          else (Some item, set_at i last_item popped)
      | _, _ => (None, m)
      end
  end.

Definition copy (m : IndexedMap) : IndexedMap := m.

(** An assignment to [pair.second] of the pair stored under [key]. *)
Definition set_second (key : K) (value : V) (m : IndexedMap) : IndexedMap :=
  match index_of key m with
  | None => m
  | Some i =>
      match nth_error m i with
      | Some item => set_at i (fst item, value) m
      | None => m
      end
  end.

End IndexedMap.

Arguments IndexedMap K V : clear implicits.

(** ** solver.ts: [Symbol] *)

Module SymbolType.
Inductive t := Invalid | External | Slack | Error | Dummy.
End SymbolType.

Record Symbol := mkSymbol { sym_type : SymbolType.t; sym_id : Z }.

#[export] Instance Symbol_HasId : HasId Symbol := sym_id.

Definition INVALID_SYMBOL : Symbol := mkSymbol SymbolType.Invalid (-1).

(** [===] on symbol types. *)
Definition SymbolType_eqb (a b : SymbolType.t) : bool :=
  match a, b with
  | SymbolType.Invalid, SymbolType.Invalid
  | SymbolType.External, SymbolType.External
  | SymbolType.Slack, SymbolType.Slack
  | SymbolType.Error, SymbolType.Error
  | SymbolType.Dummy, SymbolType.Dummy => true
  | _, _ => false
  end.

(** Identity of symbols ([===] on the objects): a symbol is made once, by
    [_makeSymbol] or as [INVALID_SYMBOL], so two symbols are the same object
    exactly when they agree on type and id. *)
Definition Symbol_eqb (a b : Symbol) : bool :=
  SymbolType_eqb (sym_type a) (sym_type b) && (sym_id a =? sym_id b)%Z.

(** ** solver.ts: [Row] *)

Record Row := mkRow { cells : IndexedMap Symbol float; constant : float }.

Module RowOps.

(** [new Row(constant = 0.0)] *)
Definition new (c : option float) : Row :=
  mkRow createMap (match c with None => 0.0 | Some c => c end).

Definition isConstant (r : Row) : bool := empty (cells r).

Definition allDummies (r : Row) : bool :=
  forallb (fun pair => SymbolType_eqb (sym_type (fst pair)) SymbolType.Dummy) (cells r).

Definition copy (r : Row) : Row := mkRow (copy (cells r)) (constant r).

(** [add(value)]: the row with its new constant (which is also the value
    returned). *)
Definition add (value : float) (r : Row) : Row :=
  mkRow (cells r) (constant r + value).

(** [insertSymbol(symbol, coefficient = 1.0)] *)
Definition insertSymbol (symbol : Symbol) (coefficient : float) (r : Row) : Row :=
  let '(item, cells1) := setDefault symbol (fun _ => 0.0) (cells r) in
  let second := snd item + coefficient in
  let cells2 := set_second symbol second cells1 in
  if nearZero second then mkRow (snd (erase symbol cells2)) (constant r)
  else mkRow cells2 (constant r).

(** [insertRow(other, coefficient = 1.0)] *)
Definition insertRow (other : Row) (coefficient : float) (r : Row) : Row :=
  fold_left
    (fun acc pair => insertSymbol (fst pair) (snd pair * coefficient) acc)
    (cells other)
    (mkRow (cells r) (constant r + constant other * coefficient)).

Definition removeSymbol (symbol : Symbol) (r : Row) : Row :=
  mkRow (snd (erase symbol (cells r))) (constant r).

Definition reverseSign (r : Row) : Row :=
  mkRow (map (fun pair => (fst pair, - snd pair)) (cells r)) (- constant r).

(** [solveFor(symbol)]: [None] is the TypeError of reading [pair.second]
    when the symbol is not in the row. *)
Definition solveFor (symbol : Symbol) (r : Row) : option Row :=
  match erase symbol (cells r) with
  | (None, _) => None
  | (Some item, cells1) =>
      let coeff := -1.0 / snd item in
      Some (mkRow (map (fun p => (fst p, snd p * coeff)) cells1)
                  (constant r * coeff))
  end.

Definition solveForEx (lhs rhs : Symbol) (r : Row) : option Row :=
  solveFor rhs (insertSymbol lhs (-1.0) r).

Definition coefficientFor (symbol : Symbol) (r : Row) : float :=
  match find symbol (cells r) with
  | Some item => snd item
  | None => 0.0
  end.

Definition substitute (symbol : Symbol) (row : Row) (r : Row) : Row :=
  match erase symbol (cells r) with
  | (Some item, cells1) => insertRow row (snd item) (mkRow cells1 (constant r))
  | (None, _) => r
  end.

End RowOps.

(** ** variable, expression, constraint *)

(** [Variable] and [Constraint] are reserved words of Rocq: the classes are
    the records [Var] and [Cn].  A variable is known by its id; its mutable
    [_value] lives in the state ([var_values]), since variables are objects
    that outlive a solver call. *)
Record Var := mkVariable { var_id : Z; var_name : string }.

#[export] Instance Variable_HasId : HasId Var := var_id.

Record Expression := mkExpression {
  terms : IndexedMap Var float;
  expr_constant : float
}.

(** The arguments [Expression] accepts: a number, a [Variable], an
    [Expression], or a pair [[k, Variable|Expression]]. *)
Inductive Arg :=
| ArgNumber (n : float)
| ArgVariable (v : Var)
| ArgExpression (e : Expression)
| ArgPairVariable (k : float) (v : Var)
| ArgPairExpression (k : float) (e : Expression).

Module Expr.

(** [terms.setDefault(v, factory).second += k] *)
Definition add_term (v : Var) (k : float) (ts : IndexedMap Var float)
  : IndexedMap Var float :=
  let '(item, ts1) := setDefault v (fun _ => 0.0) ts in
  set_second v (snd item + k) ts1.

(** expression, [parseArgs] *)
Definition parseArgs (args : list Arg) : Expression :=
  fold_left
    (fun acc item =>
       match item with
       | ArgNumber n => mkExpression (terms acc) (expr_constant acc + n)
       | ArgVariable v => mkExpression (add_term v 1.0 (terms acc)) (expr_constant acc)
       | ArgExpression e =>
           fold_left
             (fun acc2 termPair =>
                mkExpression (add_term (fst termPair) (snd termPair) (terms acc2))
                             (expr_constant acc2))
             (terms e)
             (mkExpression (terms acc) (expr_constant acc + expr_constant e))
       | ArgPairVariable value v =>
           mkExpression (add_term v value (terms acc)) (expr_constant acc)
       | ArgPairExpression value e =>
           fold_left
             (fun acc2 termPair =>
                mkExpression
                  (add_term (fst termPair) (snd termPair * value) (terms acc2))
                  (expr_constant acc2))
             (terms e)
             (mkExpression (terms acc) (expr_constant acc + expr_constant e * value))
       end)
    args (mkExpression createMap 0.0).

(** [new Expression(...args)] *)
Definition new (args : list Arg) : Expression := parseArgs args.

End Expr.

(** What may stand on a side of a constraint. *)
Inductive Operand :=
| OpNumber (n : float)
| OpVariable (v : Var)
| OpExpression (e : Expression).

(** [Variable.minus(value)] and [Expression.minus(value)]:
    [new Expression(this, typeof value === 'number' ? -value : [-1, value])]. *)
Definition minus_arg (value : Operand) : Arg :=
  match value with
  | OpNumber n => ArgNumber (- n)
  | OpVariable v => ArgPairVariable (-1.0) v
  | OpExpression e => ArgPairExpression (-1.0) e
  end.

Definition Variable_minus (this : Var) (value : Operand) : Expression :=
  Expr.new [ArgVariable this; minus_arg value].

Definition Expression_minus (this : Expression) (value : Operand) : Expression :=
  Expr.new [ArgExpression this; minus_arg value].

Module Operator.
Inductive t := Le | Ge | Eq.
End Operator.

Record Cn := mkConstraint {
  cn_id : Z;
  expression : Expression;
  op : Operator.t;
  strength : float
}.

#[export] Instance Constraint_HasId : HasId Cn := cn_id.

(** [new Constraint(expression, operator, rhs, strength = Strength.required)],
    for the id [CnId++] hands out.  [None] is the error [parseArgs] throws for
    a variable on the left and no right-hand side. *)
Definition Constraint_new (id : Z) (lhs : Var + Expression) (operator : Operator.t)
    (rhs : option Operand) (strength : option float) : option Cn :=
  let strength :=
    Strength.clip (match strength with None => Strength.required | Some s => s end) in
  match rhs, lhs with
  | None, inr e => Some (mkConstraint id e operator strength)
  | None, inl _ => None
  | Some r, inl v => Some (mkConstraint id (Variable_minus v r) operator strength)
  | Some r, inr e => Some (mkConstraint id (Expression_minus e r) operator strength)
  end.

(** ** solver.ts: the state of a [Solver] *)

Record Tag := mkTag { marker : Symbol; other : Symbol }.

Record EditInfo := mkEditInfo {
  tag : Tag;
  constraint : Cn;
  info_constant : float
}.

(** The private fields of a [Solver], the module counter [CnId] of
    constraint, and the [_value] of every [Variable] (by variable id; a
    variable starts at [0.0]).  [_infeasibleRows] is an array used as a stack:
    the head of the list is its last element. *)
Record State := mkState {
  maxIterations : nat;
  _cnMap : IndexedMap Cn Tag;
  _rowMap : IndexedMap Symbol Row;
  _varMap : IndexedMap Var Symbol;
  _editMap : IndexedMap Var EditInfo;
  _infeasibleRows : list Symbol;
  _objective : Row;
  _artificial : option Row;
  _idTick : Z;
  CnId : Z;
  var_values : Z -> float
}.

Definition set_cnMap v s :=
  mkState (maxIterations s) v (_rowMap s) (_varMap s) (_editMap s)
          (_infeasibleRows s) (_objective s) (_artificial s) (_idTick s) (CnId s)
          (var_values s).
Definition set_rowMap v s :=
  mkState (maxIterations s) (_cnMap s) v (_varMap s) (_editMap s)
          (_infeasibleRows s) (_objective s) (_artificial s) (_idTick s) (CnId s)
          (var_values s).
Definition set_varMap v s :=
  mkState (maxIterations s) (_cnMap s) (_rowMap s) v (_editMap s)
          (_infeasibleRows s) (_objective s) (_artificial s) (_idTick s) (CnId s)
          (var_values s).
Definition set_editMap v s :=
  mkState (maxIterations s) (_cnMap s) (_rowMap s) (_varMap s) v
          (_infeasibleRows s) (_objective s) (_artificial s) (_idTick s) (CnId s)
          (var_values s).
Definition set_infeasibleRows v s :=
  mkState (maxIterations s) (_cnMap s) (_rowMap s) (_varMap s) (_editMap s)
          v (_objective s) (_artificial s) (_idTick s) (CnId s) (var_values s).
Definition set_objective v s :=
  mkState (maxIterations s) (_cnMap s) (_rowMap s) (_varMap s) (_editMap s)
          (_infeasibleRows s) v (_artificial s) (_idTick s) (CnId s) (var_values s).
Definition set_artificial v s :=
  mkState (maxIterations s) (_cnMap s) (_rowMap s) (_varMap s) (_editMap s)
          (_infeasibleRows s) (_objective s) v (_idTick s) (CnId s) (var_values s).
Definition set_idTick v s :=
  mkState (maxIterations s) (_cnMap s) (_rowMap s) (_varMap s) (_editMap s)
          (_infeasibleRows s) (_objective s) (_artificial s) v (CnId s) (var_values s).
Definition set_CnId v s :=
  mkState (maxIterations s) (_cnMap s) (_rowMap s) (_varMap s) (_editMap s)
          (_infeasibleRows s) (_objective s) (_artificial s) (_idTick s) v
          (var_values s).
Definition set_var_values v s :=
  mkState (maxIterations s) (_cnMap s) (_rowMap s) (_varMap s) (_editMap s)
          (_infeasibleRows s) (_objective s) (_artificial s) (_idTick s) (CnId s) v.

(** [new Solver()], given the module counter and the variables' values. *)
Definition new_Solver (cnId : Z) (values : Z -> float) : State :=
  mkState 1000 createMap createMap createMap createMap [] (RowOps.new None) None 0
          cnId values.

(** [Variable.value()] and [Variable.setValue(value)] *)
Definition value (v : Var) (s : State) : float := var_values s (var_id v).

Definition setValue (v : Var) (x : float) (s : State) : State :=
  set_var_values (fun id => if (id =? var_id v)%Z then x else var_values s id) s.

(** ** Calls that may throw

    A call returns ([Ok]) or throws ([Throw]); either way the state it leaves
    behind is kept, as the mutations a JavaScript method made before throwing
    stay.  [Diverge] is a loop without bound that was cut off. *)

Inductive Exn :=
| JsError (msg : string)   (* [throw new Error(msg)] *)
| TypeError.               (* a property read on [undefined] or [null] *)

Inductive Result (A : Type) :=
| Ok (a : A) (s : State)
| Throw (e : Exn) (s : State)
| Diverge.

Arguments Ok {A} a s.
Arguments Throw {A} e s.
Arguments Diverge {A}.

Definition M (A : Type) : Type := State -> Result A.

Definition ret {A} (a : A) : M A := fun s => Ok a s.

Definition bind {A B} (c : M A) (k : A -> M B) : M B :=
  fun s => match c s with
           | Ok a s1 => k a s1
           | Throw e s1 => Throw e s1
           | Diverge => Diverge
           end.

Definition throw {A} (msg : string) : M A := fun s => Throw (JsError msg) s.
Definition throwTypeError {A} : M A := fun s => Throw TypeError s.
Definition gets {A} (f : State -> A) : M A := fun s => Ok (f s) s.
Definition modify (f : State -> State) : M unit := fun s => Ok tt (f s).

(** The value of an expression that is [undefined] when [None]: reading a
    property of it throws. *)
Definition defined {A} (o : option A) : M A :=
  match o with Some a => ret a | None => throwTypeError end.

Declare Scope solver_scope.
Delimit Scope solver_scope with solver.
Notation "x <- c ;; k" := (bind c (fun x => k))
  (at level 61, c at next level, right associativity) : solver_scope.
Notation "c ;; k" := (bind c (fun _ => k))
  (at level 61, right associativity) : solver_scope.
#[local] Open Scope solver_scope.

(** ** solver.ts: [Solver] *)

Module Solver.

Import RowOps.

Definition is_type (t : SymbolType.t) (symbol : Symbol) : bool :=
  SymbolType_eqb (sym_type symbol) t.

(** [_makeSymbol(type)]: [new Symbol(type, this._idTick++)] *)
Definition _makeSymbol (type : SymbolType.t) : M Symbol :=
  fun s => Ok (mkSymbol type (_idTick s)) (set_idTick (_idTick s + 1)%Z s).

(** [_getVarSymbol(variable)]: [setDefault] calls the factory, which makes
    an External symbol, only for a variable that has none yet. *)
Definition _getVarSymbol (variable : Var) : M Symbol :=
  found <- gets (fun s => find variable (_varMap s)) ;;
  match found with
  | Some item => ret (snd item)
  | None =>
      symbol <- _makeSymbol SymbolType.External ;;
      modify (fun s => set_varMap (_varMap s ++ [(variable, symbol)]) s) ;;
      ret symbol
  end.

(** The loop of [_createRow] over the terms of the expression. *)
Fixpoint createRow_terms (ts : list (Var * float)) (row : Row) : M Row :=
  match ts with
  | [] => ret row
  | termPair :: rest =>
      if negb (nearZero (snd termPair)) then
        symbol <- _getVarSymbol (fst termPair) ;;
        basicPair <- gets (fun s => find symbol (_rowMap s)) ;;
        match basicPair with
        | Some basic => createRow_terms rest (insertRow (snd basic) (snd termPair) row)
        | None => createRow_terms rest (insertSymbol symbol (snd termPair) row)
        end
      else createRow_terms rest row
  end.

Definition objective_insertSymbol (symbol : Symbol) (coefficient : float) : M unit :=
  modify (fun s => set_objective (insertSymbol symbol coefficient (_objective s)) s).

(** [_createRow(constraint)] *)
Definition _createRow (constraint : Cn) : M (Row * Tag) :=
  let expr := expression constraint in
  row <- createRow_terms (terms expr) (RowOps.new (Some (expr_constant expr))) ;;
  let strength := strength constraint in
  created <-
    match op constraint with
    | Operator.Le | Operator.Ge =>
        let coeff := match op constraint with Operator.Le => 1.0 | _ => -1.0 end in
        slack <- _makeSymbol SymbolType.Slack ;;
        let row := insertSymbol slack coeff row in
        if strength <? Strength.required then
          error <- _makeSymbol SymbolType.Error ;;
          let row := insertSymbol error (- coeff) row in
          objective_insertSymbol error strength ;;
          ret (row, mkTag slack error)
        else ret (row, mkTag slack INVALID_SYMBOL)
    | Operator.Eq =>
        if strength <? Strength.required then
          errplus <- _makeSymbol SymbolType.Error ;;
          errminus <- _makeSymbol SymbolType.Error ;;
          let row := insertSymbol errplus (-1.0) row in
          let row := insertSymbol errminus 1.0 row in
          objective_insertSymbol errplus strength ;;
          objective_insertSymbol errminus strength ;;
          ret (row, mkTag errplus errminus)
        else
          dummy <- _makeSymbol SymbolType.Dummy ;;
          ret (insertSymbol dummy 1.0 row, mkTag dummy INVALID_SYMBOL)
    end ;;
  let row := fst created in
  let row := if constant row <? 0.0 then reverseSign row else row in
  ret (row, snd created).

(** The first loop of [_chooseSubject]: the key of the first cell whose
    symbol is External. *)
Fixpoint first_external (cs : list (Symbol * float)) : option Symbol :=
  match cs with
  | [] => None
  | item :: rest =>
      if is_type SymbolType.External (fst item) then Some (fst item) else first_external rest
  end.

Definition slack_or_error (symbol : Symbol) : bool :=
  is_type SymbolType.Slack symbol || is_type SymbolType.Error symbol.

(** [_chooseSubject(row, tag)] *)
Definition _chooseSubject (row : Row) (tag : Tag) : Symbol :=
  match first_external (cells row) with
  | Some symbol => symbol
  | None =>
      if slack_or_error (marker tag) && (coefficientFor (marker tag) row <? 0.0)
      then marker tag
      else if slack_or_error (other tag) && (coefficientFor (other tag) row <? 0.0)
      then other tag
      else INVALID_SYMBOL
  end.

(** The loop of [_substitute] over the rows of the tableau: every row takes
    the substitution, and the key of a row that is not External and whose
    constant is negative afterwards is pushed on [_infeasibleRows]. *)
Fixpoint substitute_rows (symbol : Symbol) (row : Row)
    (rows : list (Symbol * Row)) (infeasible : list Symbol)
  : list (Symbol * Row) * list Symbol :=
  match rows with
  | [] => ([], infeasible)
  | item :: rest =>
      let second := substitute symbol row (snd item) in
      let infeasible :=
        if (constant second <? 0.0) && negb (is_type SymbolType.External (fst item))
        then fst item :: infeasible else infeasible in
      let '(rest', infeasible') := substitute_rows symbol row rest infeasible in
      ((fst item, second) :: rest', infeasible')
  end.

(** [_substitute(symbol, row)] *)
Definition _substitute (symbol : Symbol) (row : Row) : M unit :=
  modify (fun s =>
    let '(rows, infeasible) :=
      substitute_rows symbol row (_rowMap s) (_infeasibleRows s) in
    let s := set_infeasibleRows infeasible (set_rowMap rows s) in
    let s := set_objective (substitute symbol row (_objective s)) s in
    match _artificial s with
    | Some artificial => set_artificial (Some (substitute symbol row artificial)) s
    | None => s
    end).

(** [_getEnteringSymbol(objective)] *)
Fixpoint entering_loop (cs : list (Symbol * float)) : Symbol :=
  match cs with
  | [] => INVALID_SYMBOL
  | item :: rest =>
      if (snd item <? 0.0) && negb (is_type SymbolType.Dummy (fst item)) then fst item
      else entering_loop rest
  end.

Definition _getEnteringSymbol (objective : Row) : Symbol :=
  entering_loop (cells objective).

(** [_getDualEnteringSymbol(row)], reading [this._objective] *)
Definition _getDualEnteringSymbol (objective : Row) (row : Row) : Symbol :=
  snd (fold_left
         (fun (acc : float * Symbol) item =>
            let '(ratio, entering) := acc in
            let symbol := fst item in
            let c := snd item in
            if (0.0 <? c) && negb (is_type SymbolType.Dummy symbol) then
              let coeff := coefficientFor symbol objective in
              let r := coeff / c in
              if r <? ratio then (r, symbol) else (ratio, entering)
            else (ratio, entering))
         (cells row) (Math.MAX_VALUE, INVALID_SYMBOL)).

(** [_getLeavingSymbol(entering)], reading [this._rowMap] *)
Definition _getLeavingSymbol (rows : IndexedMap Symbol Row) (entering : Symbol)
  : Symbol :=
  snd (fold_left
         (fun (acc : float * Symbol) item =>
            let '(ratio, found) := acc in
            let symbol := fst item in
            if negb (is_type SymbolType.External symbol) then
              let row := snd item in
              let temp := coefficientFor entering row in
              if temp <? 0.0 then
                let temp_ratio := - constant row / temp in
                if temp_ratio <? ratio then (temp_ratio, symbol) else (ratio, found)
              else (ratio, found)
            else (ratio, found))
         rows (Math.MAX_VALUE, INVALID_SYMBOL)).

(** [_getMarkerLeavingSymbol(marker)], reading [this._rowMap] *)
Definition _getMarkerLeavingSymbol (rows : IndexedMap Symbol Row) (marker : Symbol)
  : Symbol :=
  let dmax := Math.MAX_VALUE in
  let invalid := INVALID_SYMBOL in
  let '(r1, r2, first, second, third) :=
    fold_left
      (fun (acc : float * float * Symbol * Symbol * Symbol) item =>
         let '(r1, r2, first, second, third) := acc in
         let row := snd item in
         let c := coefficientFor marker row in
         if c =? 0.0 then acc
         else
           let symbol := fst item in
           if is_type SymbolType.External symbol then (r1, r2, first, second, symbol)
           else if c <? 0.0 then
             let r := - constant row / c in
             if r <? r1 then (r, r2, symbol, second, third) else acc
           else
             let r := constant row / c in
             if r <? r2 then (r1, r, first, symbol, third) else acc)
      rows (dmax, dmax, invalid, invalid, invalid) in
  if negb (Symbol_eqb first invalid) then first
  else if negb (Symbol_eqb second invalid) then second
  else third.

(** [_anyPivotableSymbol(row)] *)
Fixpoint pivotable_loop (cs : list (Symbol * float)) : Symbol :=
  match cs with
  | [] => INVALID_SYMBOL
  | item :: rest =>
      if slack_or_error (fst item) then fst item else pivotable_loop rest
  end.

Definition _anyPivotableSymbol (row : Row) : Symbol := pivotable_loop (cells row).

(** [this._rowMap.erase(key)], the erased pair returned *)
Definition rowMap_erase (key : Symbol) : M (option (Symbol * Row)) :=
  fun s => let '(erased, rows) := erase key (_rowMap s) in Ok erased (set_rowMap rows s).

Definition rowMap_insert (key : Symbol) (row : Row) : M unit :=
  modify (fun s => set_rowMap (insert key row (_rowMap s)) s).

(** The row [_optimize] was given: [this._objective], or [this._artificial],
    an object the pivots of the loop keep substituting into. *)
Inductive ObjectiveRef := TheObjective | TheArtificial.

Definition deref (objective : ObjectiveRef) : M Row :=
  match objective with
  | TheObjective => gets _objective
  | TheArtificial => a <- gets _artificial ;; defined a
  end.

(** The pivot shared by [_optimize] and [_dualOptimize], once the leaving
    row has been taken out of the tableau:
    [row.solveForEx(leaving, entering); this._substitute(entering, row);
     this._rowMap.insert(entering, row)]. *)
Definition pivot (leaving entering : Symbol) (row : Row) : M unit :=
  row <- defined (solveForEx leaving entering row) ;;
  _substitute entering row ;;
  rowMap_insert entering row.

(** [_optimize(objective)]: [n] is [this.maxIterations - iterations]. *)
Fixpoint optimize_loop (n : nat) (objective : ObjectiveRef) : M unit :=
  match n with
  | O => throw "solver iterations exceeded"
  | S n' =>
      obj <- deref objective ;;
      let entering := _getEnteringSymbol obj in
      if is_type SymbolType.Invalid entering then ret tt
      else
        rows <- gets _rowMap ;;
        let leaving := _getLeavingSymbol rows entering in
        if is_type SymbolType.Invalid leaving then throw "the objective is unbounded"
        else
          erased <- rowMap_erase leaving ;;
          item <- defined erased ;;
          pivot leaving entering (snd item) ;;
          optimize_loop n' objective
  end.

Definition _optimize (objective : ObjectiveRef) : M unit :=
  n <- gets maxIterations ;; optimize_loop n objective.

(** [_dualOptimize()]: the loop runs while [_infeasibleRows] is not empty;
    [fuel] bounds the number of symbols popped. *)
Fixpoint _dualOptimize (fuel : nat) : M unit :=
  fun s =>
    match _infeasibleRows s with
    | [] => Ok tt s
    | leaving :: rest =>
        match fuel with
        | O => Diverge
        | S fuel' =>
            let s := set_infeasibleRows rest s in
            match find leaving (_rowMap s) with
            | Some item =>
                if constant (snd item) <? 0.0 then
                  let entering := _getDualEnteringSymbol (_objective s) (snd item) in
                  if is_type SymbolType.Invalid entering then
                    Throw (JsError "dual optimize failed") s
                  else
                    (rowMap_erase leaving ;;
                     pivot leaving entering (snd item) ;;
                     _dualOptimize fuel') s
                else _dualOptimize fuel' s
            | None => _dualOptimize fuel' s
            end
        end
    end.

(** [_addWithArtificialVariable(row)] *)
Definition _addWithArtificialVariable (row : Row) : M bool :=
  art <- _makeSymbol SymbolType.Slack ;;
  rowMap_insert art (copy row) ;;
  modify (set_artificial (Some (copy row))) ;;
  _optimize TheArtificial ;;
  artificial <- deref TheArtificial ;;
  let success := nearZero (constant artificial) in
  modify (set_artificial None) ;;
  erased <- rowMap_erase art ;;
  let remove_art : M bool :=
    modify (fun s =>
      set_rowMap (map (fun item => (fst item, removeSymbol art (snd item))) (_rowMap s)) s) ;;
    modify (fun s => set_objective (removeSymbol art (_objective s)) s) ;;
    ret success in
  match erased with
  | Some item =>
      let basicRow := snd item in
      if isConstant basicRow then ret success
      else
        let entering := _anyPivotableSymbol basicRow in
        if is_type SymbolType.Invalid entering then ret false
        else pivot art entering basicRow ;; remove_art
  | None => remove_art
  end.

(** The part of [addConstraint] that follows the choice of the subject. *)
Definition install (constraint : Cn) (subject : Symbol) (row : Row) (tag : Tag)
  : M unit :=
  (if is_type SymbolType.Invalid subject then
     added <- _addWithArtificialVariable row ;;
     if negb added then throw "unsatisfiable constraint" else ret tt
   else
     row <- defined (solveFor subject row) ;;
     _substitute subject row ;;
     rowMap_insert subject row) ;;
  modify (fun s => set_cnMap (insert constraint tag (_cnMap s)) s) ;;
  _optimize TheObjective.

(** [addConstraint(constraint)] *)
Definition addConstraint (constraint : Cn) : M unit :=
  cnPair <- gets (fun s => find constraint (_cnMap s)) ;;
  match cnPair with
  | Some _ => throw "duplicate constraint"
  | None =>
      data <- _createRow constraint ;;
      let row := fst data in
      let tag := snd data in
      let subject := _chooseSubject row tag in
      if is_type SymbolType.Invalid subject && allDummies row then
        if negb (nearZero (constant row)) then throw "unsatisfiable constraint"
        else install constraint (marker tag) row tag
      else install constraint subject row tag
  end.

(** [createConstraint(lhs, operator, rhs, strength = Strength.required)] *)
Definition createConstraint (lhs : Var + Expression) (operator : Operator.t)
    (rhs : Operand) (strength : option float) : M Cn :=
  id <- gets CnId ;;
  modify (set_CnId (id + 1)%Z) ;;
  cn <- defined (Constraint_new id lhs operator (Some rhs) strength) ;;
  addConstraint cn ;;
  ret cn.

(** [_removeMarkerEffects(marker, strength)] *)
Definition _removeMarkerEffects (marker : Symbol) (strength : float) : M unit :=
  modify (fun s =>
    match find marker (_rowMap s) with
    | Some item => set_objective (insertRow (snd item) (- strength) (_objective s)) s
    | None => set_objective (insertSymbol marker (- strength) (_objective s)) s
    end).

(** [_removeConstraintEffects(cn, tag)] *)
Definition _removeConstraintEffects (cn : Cn) (tag : Tag) : M unit :=
  (if is_type SymbolType.Error (marker tag) then _removeMarkerEffects (marker tag) (strength cn)
   else ret tt) ;;
  (if is_type SymbolType.Error (other tag) then _removeMarkerEffects (other tag) (strength cn)
   else ret tt).

(** [removeConstraint(constraint)] *)
Definition removeConstraint (constraint : Cn) : M unit :=
  cnPair <- (fun s => let '(erased, cns) := erase constraint (_cnMap s) in
                      Ok erased (set_cnMap cns s)) ;;
  match cnPair with
  | None => throw "unknown constraint"
  | Some item =>
      _removeConstraintEffects constraint (snd item) ;;
      let marker := marker (snd item) in
      rowPair <- rowMap_erase marker ;;
      (match rowPair with
       | Some _ => ret tt
       | None =>
           rows <- gets _rowMap ;;
           let leaving := _getMarkerLeavingSymbol rows marker in
           if is_type SymbolType.Invalid leaving then throw "failed to find leaving row"
           else
             rowPair <- rowMap_erase leaving ;;
             leavingPair <- defined rowPair ;;
             row <- defined (solveForEx leaving marker (snd leavingPair)) ;;
             _substitute marker row
       end) ;;
      _optimize TheObjective
  end.

Definition hasConstraint (constraint : Cn) : M bool :=
  gets (fun s => contains constraint (_cnMap s)).

Definition getConstraints : M (list Cn) :=
  gets (fun s => map fst (_cnMap s)).

(** [addEditVariable(variable, strength)] *)
Definition addEditVariable (variable : Var) (strength : float) : M unit :=
  editPair <- gets (fun s => find variable (_editMap s)) ;;
  match editPair with
  | Some _ => throw "duplicate edit variable"
  | None =>
      let strength := Strength.clip strength in
      if strength =? Strength.required then throw "bad required strength"
      else
        let expr := Expr.new [ArgVariable variable] in
        id <- gets CnId ;;
        modify (set_CnId (id + 1)%Z) ;;
        cn <- defined (Constraint_new id (inr expr) Operator.Eq None (Some strength)) ;;
        addConstraint cn ;;
        found <- gets (fun s => find cn (_cnMap s)) ;;
        item <- defined found ;;
        let info := mkEditInfo (snd item) cn 0.0 in
        modify (fun s => set_editMap (insert variable info (_editMap s)) s)
  end.

(** [removeEditVariable(variable)] *)
Definition removeEditVariable (variable : Var) : M unit :=
  editPair <- (fun s => let '(erased, edits) := erase variable (_editMap s) in
                        Ok erased (set_editMap edits s)) ;;
  match editPair with
  | None => throw "unknown edit variable"
  | Some item => removeConstraint (constraint (snd item))
  end.

Definition hasEditVariable (variable : Var) : M bool :=
  gets (fun s => contains variable (_editMap s)).

(** The last loop of [suggestValue], over the rows of the tableau. *)
Fixpoint suggest_rows (marker : Symbol) (delta : float)
    (rows : list (Symbol * Row)) (infeasible : list Symbol)
  : list (Symbol * Row) * list Symbol :=
  match rows with
  | [] => ([], infeasible)
  | rowPair :: rest =>
      let row := snd rowPair in
      let coeff := coefficientFor marker row in
      let '(row, infeasible) :=
        if neqb coeff 0.0 then
          let row := add (delta * coeff) row in
          (row,
           if (constant row <? 0.0) && negb (is_type SymbolType.External (fst rowPair))
           then fst rowPair :: infeasible else infeasible)
        else (row, infeasible) in
      let '(rest', infeasible') := suggest_rows marker delta rest infeasible in
      ((fst rowPair, row) :: rest', infeasible')
  end.

(** [rowPair.second.add(value)] for the row stored under [key], followed by
    the push of [key] when the new constant is negative. *)
Definition add_to_basic (key : Symbol) (item : Symbol * Row) (value : float) : M unit :=
  modify (fun s =>
    let row := add value (snd item) in
    let s := set_rowMap (set_second key row (_rowMap s)) s in
    if constant row <? 0.0 then set_infeasibleRows (key :: _infeasibleRows s) s
    else s).

(** [suggestValue(variable, value)]; [fuel] is the bound handed to
    [_dualOptimize]. *)
Definition suggestValue (fuel : nat) (variable : Var) (value : float) : M unit :=
  editPair <- gets (fun s => find variable (_editMap s)) ;;
  match editPair with
  | None => throw "unknown edit variable"
  | Some item =>
      let info := snd item in
      let delta := value - info_constant info in
      modify (fun s =>
        set_editMap
          (set_second variable (mkEditInfo (tag info) (constraint info) value)
                      (_editMap s)) s) ;;
      let marker := marker (tag info) in
      rowPair <- gets (fun s => find marker (_rowMap s)) ;;
      match rowPair with
      | Some basic => add_to_basic marker basic (- delta) ;; _dualOptimize fuel
      | None =>
          let other := other (tag info) in
          rowPair <- gets (fun s => find other (_rowMap s)) ;;
          match rowPair with
          | Some basic => add_to_basic other basic delta ;; _dualOptimize fuel
          | None =>
              modify (fun s =>
                let '(rows, infeasible) :=
                  suggest_rows marker delta (_rowMap s) (_infeasibleRows s) in
                set_infeasibleRows infeasible (set_rowMap rows s)) ;;
              _dualOptimize fuel
          end
      end
  end.

(** The loop of [updateVariables] over the pairs of [_varMap]. *)
Fixpoint update_loop (vars : list (Var * Symbol)) : M unit :=
  match vars with
  | [] => ret tt
  | item :: rest =>
      rowPair <- gets (fun s => find (snd item) (_rowMap s)) ;;
      (match rowPair with
       | Some basic => modify (setValue (fst item) (constant (snd basic)))
       | None => modify (setValue (fst item) 0.0)
       end) ;;
      update_loop rest
  end.

(** [updateVariables()] *)
Definition updateVariables : M unit :=
  vars <- gets _varMap ;; update_loop vars.

End Solver.

(** * Properties of the program

    The predicates the statements below are written with, and the concrete
    solvers they are tried on. *)

(** ** Maps and rows *)

Section Ids.

Context {K V : Type} `{HasId K}.

(** The ids of the keys of a map, in array order. *)
Definition ids (m : IndexedMap K V) : list Z := map (fun item => id_of (fst item)) m.

End Ids.

(** The ids of the symbols of the cells of a row. *)
Definition cell_ids (r : Row) : list Z := ids (cells r).

(** No stored cell has a coefficient within epsilon of zero. *)
Definition cells_pruned (r : Row) : Prop :=
  Forall (fun item => nearZero (snd item) = false) (cells r).

(** The loop of [insertRow]. *)
Definition insert_cells (coefficient : float) (cs : list (Symbol * float)) (acc : Row)
  : Row :=
  fold_left (fun acc item => RowOps.insertSymbol (fst item) (snd item * coefficient) acc)
            cs acc.

(** A binary64 value, as the specification of the floating-point unit reads
    it, is NaN or carries the sign [b]. *)
Definition sign_in (b : bool) (x : spec_float) : Prop :=
  match x with
  | S754_nan => True
  | S754_zero s | S754_infinity s | S754_finite s _ _ => s = b
  end.

(** ** Calls *)

(** The state a call leaves behind, whether it returned or threw. *)
Definition final {A} (r : Result A) : option State :=
  match r with
  | Ok _ s | Throw _ s => Some s
  | Diverge => None
  end.

(** The state a call leaves, or the given state when the call was cut off. *)
Definition state_after {A} (c : M A) (s : State) : State :=
  match c s with
  | Ok _ s' | Throw _ s' => s'
  | Diverge => s
  end.

(** The call ends, by returning or by throwing, in a state that the relation
    [R] ties to the state it started in. *)
Definition keeps (R : State -> State -> Prop) {A} (c : M A) : Prop :=
  forall s, match c s with
            | Ok _ s' | Throw _ s' => R s s'
            | Diverge => False
            end.

(** The call never throws the error [msg]. *)
Definition avoids (msg : string) {A} (c : M A) : Prop :=
  forall s s', c s <> Throw (JsError msg) s'.

(** The calls that move the tableau through the dual simplex only. *)
Inductive Call :=
| SuggestValue (fuel : nat) (variable : Var) (value : float)
| UpdateVariables.

Definition call (c : Call) : M unit :=
  match c with
  | SuggestValue fuel variable value => Solver.suggestValue fuel variable value
  | UpdateVariables => Solver.updateVariables
  end.

Fixpoint calls (cs : list Call) : M unit :=
  match cs with
  | [] => ret tt
  | c :: rest => call c ;; calls rest
  end.

(** ** Tableaux *)

(** No row whose basic symbol is restricted (not External) has a constant
    below zero. *)
Definition feasible (s : State) : bool :=
  forallb
    (fun item => Solver.is_type SymbolType.External (fst item)
                 || negb (constant (snd item) <? 0))
    (_rowMap s).

Fixpoint distinct (l : list Z) : bool :=
  match l with
  | [] => true
  | x :: rest => negb (existsb (Z.eqb x) rest) && distinct rest
  end.

(** The shape every method of [IndexedMap] and every pivot keeps: the ids of
    the basic symbols are distinct, so are the ids of the cells of a row, and
    no basic symbol occurs in a row. *)
Definition tableau_wf (s : State) : bool :=
  distinct (ids (_rowMap s))
  && forallb (fun item => distinct (cell_ids (snd item))) (_rowMap s)
  && forallb
       (fun item =>
          forallb (fun key => negb (existsb (Z.eqb key) (cell_ids (snd item))))
                  (ids (_rowMap s)))
       (_rowMap s).

(** The three parts of [tableau_wf], as propositions. *)
Record wf (rows : IndexedMap Symbol Row) : Prop := {
  wf_keys : NoDup (ids rows);
  wf_cells : forall item, In item rows -> NoDup (cell_ids (snd item));
  wf_parametric :
    forall item x, In item rows -> In x (ids rows) -> ~ In x (cell_ids (snd item))
}.

Definition restricted_negative (item : Symbol * Row) : Prop :=
  Solver.is_type SymbolType.External (fst item) = false
  /\ (constant (snd item) <? 0) = true.

(** Every restricted row with a negative constant is on the list the dual
    simplex works through. *)
Definition tracked (rows : IndexedMap Symbol Row) (infeasible : list Symbol) : Prop :=
  forall item, In item rows -> restricted_negative item ->
               In (sym_id (fst item)) (map sym_id infeasible).

(** What [wf] reads of a tableau: the id of each basic symbol and the ids of
    the cells of its row. *)
Definition shape (rows : IndexedMap Symbol Row) : list (Z * list Z) :=
  map (fun item => (sym_id (fst item), cell_ids (snd item))) rows.

(** The rows of [rows'] are those of [rows], some with another constant; each
    one that changed and is restricted and negative is on the list. *)
Definition constants_moved (rows rows' : IndexedMap Symbol Row)
    (infeasible' : list Symbol) : Prop :=
  shape rows' = shape rows
  /\ forall item, In item rows' ->
       In item rows
       \/ (restricted_negative item -> In (sym_id (fst item)) (map sym_id infeasible')).

(** ** Concrete solvers *)

Definition var_x : Var := mkVariable 0 "x".

Definition no_values : Z -> float := fun _ => 0.

(** The solver that holds one edit variable and nothing else: the state
    [addEditVariable(v, Strength.strong)] leaves a new solver in, with the
    constant [suggested] of the edit info and the constant [k] of the row of
    [v]. *)
Definition edit_tag : Tag :=
  mkTag (mkSymbol SymbolType.Error 1) (mkSymbol SymbolType.Error 2).

Definition edit_constraint (v : Var) (cnId : Z) : Cn :=
  mkConstraint cnId (mkExpression [(v, 1)] 0) Operator.Eq Strength.strong.

Definition single_edit_state (v : Var) (cnId : Z) (values : Z -> float)
    (suggested k : float) : State :=
  {| maxIterations := 1000;
     _cnMap := [(edit_constraint v cnId, edit_tag)];
     _rowMap :=
       [(mkSymbol SymbolType.External 0,
         mkRow [(mkSymbol SymbolType.Error 2, -1); (mkSymbol SymbolType.Error 1, 1)] k)];
     _varMap := [(v, mkSymbol SymbolType.External 0)];
     _editMap := [(v, mkEditInfo edit_tag (edit_constraint v cnId) suggested)];
     _infeasibleRows := [];
     _objective :=
       mkRow [(mkSymbol SymbolType.Error 1, 1000000); (mkSymbol SymbolType.Error 2, 1000000)] 0;
     _artificial := None;
     _idTick := 3;
     CnId := (cnId + 1)%Z;
     var_values := values |}.

(** [new Constraint(x, op, k)], required, with the id [id], for the variable
    [x]. *)
Definition x_constraint (id : Z) (operator : Operator.t) (k : float) : Cn :=
  mkConstraint id (Variable_minus var_x (OpNumber k)) operator Strength.required.

(** A solver that holds the required [x = 5]. *)
Definition x_is_5 : Cn := x_constraint 0 Operator.Eq 5.

Definition holding_x_is_5 : State :=
  state_after (Solver.addConstraint x_is_5) (new_Solver 1 no_values).

(** The same equation again, as another constraint, and the row and tag
    [_createRow] makes for it. *)
Definition x_is_5_again : Cn := x_constraint 1 Operator.Eq 5.

Definition redundant_row : Row :=
  mkRow [(mkSymbol SymbolType.Dummy 1, -1); (mkSymbol SymbolType.Dummy 2, 1)] 0.

Definition redundant_tag : Tag := mkTag (mkSymbol SymbolType.Dummy 2) INVALID_SYMBOL.

(** An edit variable [x] at strength strong between the required bounds
    [10 <= x] and [x <= 100]. *)
Definition bounded_edit : State :=
  state_after
    (Solver.addEditVariable var_x Strength.strong ;;
     Solver.createConstraint (inl var_x) Operator.Ge (OpNumber 10) None ;;
     Solver.createConstraint (inl var_x) Operator.Le (OpNumber 100) None)
    (new_Solver 0 no_values).

Definition suggestions : list Call :=
  [SuggestValue 10 var_x 50; UpdateVariables; SuggestValue 10 var_x 500;
   SuggestValue 10 var_x 5; UpdateVariables].

Definition bounded_edit_suggested : State := state_after (calls suggestions) bounded_edit.

(** The required [x >= 10] followed by the required [0.001 x <= 0.009999995]:
    the second is off by 5e-9, within the epsilon of the artificial phase. *)
Definition nearly_infeasible : M unit :=
  Solver.createConstraint (inl var_x) Operator.Ge (OpNumber 10) None ;;
  Solver.createConstraint (inr (Expr.new [ArgPairVariable 0.001 var_x])) Operator.Le
                          (OpNumber 0.009999995) None ;;
  ret tt.

(** A row with a cell at the very edge of epsilon. *)
Definition scaled_row : Row :=
  mkRow [(mkSymbol SymbolType.External 0, 2); (mkSymbol SymbolType.External 1, 1.0e-8)] 0.

(** The variables and the calls of the usage example of the README and of the
    layout scenarios: widths and centers of a box. *)
Definition var_left : Var := mkVariable 0 "left".
Definition var_width : Var := mkVariable 1 "width".
Definition var_right : Var := mkVariable 2 "right".
Definition var_centerX : Var := mkVariable 2 "centerX".
Definition var_a : Var := mkVariable 0 "a".
Definition var_b : Var := mkVariable 1 "b".

(** [solver.addConstraint(new Constraint(new Expression(...args), operator))] *)
Definition addConstraint_new (id : Z) (args : list Arg) (operator : Operator.t)
  : M unit :=
  bind (defined (Constraint_new id (inr (Expr.new args)) operator None None))
              Solver.addConstraint.

(** The README: two edit variables, their suggestions, then the required
    [-right + left + width = 0]. *)
Definition readme : M unit :=
  Solver.addEditVariable var_left Strength.strong ;;
  Solver.addEditVariable var_width Strength.strong ;;
  Solver.suggestValue 10 var_left 100 ;;
  Solver.suggestValue 10 var_width 400 ;;
  addConstraint_new 100
    [ArgPairVariable (-1) var_right; ArgVariable var_left; ArgVariable var_width]
    Operator.Eq ;;
  Solver.updateVariables.

(** The required [right - left - width = 0] first, then the edits. *)
Definition width_arithmetic : M unit :=
  Solver.createConstraint
    (inr (Expr.new [ArgVariable var_right; ArgPairVariable (-1) var_left;
                    ArgPairVariable (-1) var_width]))
    Operator.Eq (OpNumber 0) None ;;
  Solver.addEditVariable var_left Strength.strong ;;
  Solver.addEditVariable var_width Strength.strong ;;
  Solver.suggestValue 10 var_left 100 ;;
  Solver.suggestValue 10 var_width 400 ;;
  Solver.updateVariables.

Definition width_again : M unit :=
  Solver.suggestValue 10 var_left 200 ;;
  Solver.suggestValue 10 var_width 600 ;;
  Solver.updateVariables.

(** The required [-centerX + left + 0.5 width = 0] under two edits. *)
Definition center : M unit :=
  Solver.addEditVariable var_left Strength.strong ;;
  Solver.addEditVariable var_width Strength.strong ;;
  Solver.createConstraint
    (inr (Expr.new [ArgPairVariable (-1) var_centerX; ArgVariable var_left;
                    ArgPairVariable 0.5 var_width]))
    Operator.Eq (OpNumber 0) None ;;
  Solver.suggestValue 10 var_left 0 ;;
  Solver.suggestValue 10 var_width 500 ;;
  Solver.updateVariables.

(** The required [a + b = 10], the strong [a = 7] and the weak [b = 0]. *)
Definition weak_against_strong : M unit :=
  Solver.createConstraint (inr (Expr.new [ArgVariable var_a; ArgVariable var_b]))
                          Operator.Eq (OpNumber 10) None ;;
  Solver.createConstraint (inl var_a) Operator.Eq (OpNumber 7) (Some Strength.strong) ;;
  Solver.createConstraint (inl var_b) Operator.Eq (OpNumber 0) (Some Strength.weak) ;;
  Solver.updateVariables.

(** The required [x = 5], removed and replaced by the required [x = 9]; the
    result is the value of [x] under each. *)
Definition remove_and_add_again : M (float * float) :=
  c <- Solver.createConstraint (inl var_x) Operator.Eq (OpNumber 5) None ;;
  Solver.updateVariables ;;
  first <- gets (value var_x) ;;
  Solver.removeConstraint c ;;
  Solver.createConstraint (inl var_x) Operator.Eq (OpNumber 9) None ;;
  Solver.updateVariables ;;
  second <- gets (value var_x) ;;
  ret (first, second).

(** The state a call ends in, when it ends, is tied by [R] to the state it
    started in. *)
Definition frames (R : State -> State -> Prop) {A} (c : M A) : Prop :=
  forall s s', final (c s) = Some s' -> R s s'.

(** The field [f] of the state is after the call what it was before. *)
Definition kept {F : Type} (f : State -> F) : State -> State -> Prop :=
  fun s s' => f s' = f s.

(** The methods of [Solver] that change the solver, [updateVariables]
    apart. *)
Module Public.

Inductive Method :=
| AddConstraint (constraint : Cn)
| CreateConstraint (lhs : Var + Expression) (operator : Operator.t) (rhs : Operand)
                   (strength : option float)
| RemoveConstraint (constraint : Cn)
| AddEditVariable (variable : Var) (strength : float)
| RemoveEditVariable (variable : Var)
| SuggestValue (fuel : nat) (variable : Var) (value : float).

(** The state a call ends in, whether it returns or throws (a caller may
    catch the error and go on); [None] for a call cut off. *)
Definition after (m : Method) (s : State) : option State :=
  match m with
  | AddConstraint constraint => final (Solver.addConstraint constraint s)
  | CreateConstraint lhs operator rhs strength =>
      final (Solver.createConstraint lhs operator rhs strength s)
  | RemoveConstraint constraint => final (Solver.removeConstraint constraint s)
  | AddEditVariable variable strength => final (Solver.addEditVariable variable strength s)
  | RemoveEditVariable variable => final (Solver.removeEditVariable variable s)
  | SuggestValue fuel variable value => final (Solver.suggestValue fuel variable value s)
  end.

Fixpoint after_all (ms : list Method) (s : State) : option State :=
  match ms with
  | [] => Some s
  | m :: rest =>
      match after m s with
      | Some s1 => after_all rest s1
      | None => None
      end
  end.

End Public.

(** Calls of which one throws: the required [x >= 10], the required [x <= 5]
    that cannot be satisfied, an edit variable and two suggestions. *)
Definition calls_with_a_throw : list Public.Method :=
  [Public.CreateConstraint (inl var_x) Operator.Ge (OpNumber 10) None;
   Public.CreateConstraint (inl var_x) Operator.Le (OpNumber 5) None;
   Public.AddEditVariable var_x Strength.strong;
   Public.SuggestValue 10 var_x 20;
   Public.SuggestValue 10 var_x 1].

(** A map of three cells. *)
Definition three_cells : IndexedMap Symbol float :=
  [(mkSymbol SymbolType.External 0, 1); (mkSymbol SymbolType.Slack 1, 2);
   (mkSymbol SymbolType.Error 2, 3)].

Definition three_cell_row : Row := mkRow three_cells 4.

(** The assignment [solver.maxIterations = n] to the public field. *)
Definition with_maxIterations (n : nat) (s : State) : State :=
  mkState n (_cnMap s) (_rowMap s) (_varMap s) (_editMap s) (_infeasibleRows s)
          (_objective s) (_artificial s) (_idTick s) (CnId s) (var_values s).

(** ** expression: the arguments of [new Expression(...)]

    [parseArgs] takes any JavaScript values and throws for those that are
    not a number, a [Variable], an [Expression] or a pair.  A value of another
    kind is embedded by the string that [+] makes of it. *)
Set Warnings "-register-all".

Inductive JsValue :=
| JsNumber (n : float)
| JsVariable (v : Var)
| JsExpression (e : Expression)
| JsArray (items : list JsValue)
| JsOther (shown : string).

(** One turn of the loop of [parseArgs]: the expression so far with the item
    added, or the message of the error thrown. *)
Definition parse_item (acc : Expression) (item : JsValue) : Expression + string :=
  match item with
  | JsNumber n => inl (mkExpression (terms acc) (expr_constant acc + n))
  | JsVariable v => inl (mkExpression (Expr.add_term v 1.0 (terms acc)) (expr_constant acc))
  | JsExpression e =>
      inl (fold_left
             (fun acc2 termPair =>
                mkExpression (Expr.add_term (fst termPair) (snd termPair) (terms acc2))
                             (expr_constant acc2))
             (terms e)
             (mkExpression (terms acc) (expr_constant acc + expr_constant e)))
  | JsArray items =>
      match items with
      | [value; value2] =>
          match value with
          | JsNumber value =>
              match value2 with
              | JsVariable v =>
                  inl (mkExpression (Expr.add_term v value (terms acc)) (expr_constant acc))
              | JsExpression e =>
                  inl (fold_left
                         (fun acc2 termPair =>
                            mkExpression
                              (Expr.add_term (fst termPair) (snd termPair * value)
                                             (terms acc2))
                              (expr_constant acc2))
                         (terms e)
                         (mkExpression (terms acc)
                                       (expr_constant acc + expr_constant e * value)))
              | _ => inr "array item 1 must be a variable or expression"
              end
          | _ => inr "array item 0 must be a number"
          end
      | _ => inr "array must have length 2"
      end
  | JsOther shown => inr (String.append "invalid Expression argument: " shown)
  end.

Fixpoint parse_items (args : list JsValue) (acc : Expression) : Expression + string :=
  match args with
  | [] => inl acc
  | item :: rest =>
      match parse_item acc item with
      | inl acc' => parse_items rest acc'
      | inr msg => inr msg
      end
  end.

(** [parseArgs(args)] on JavaScript values. *)
Definition parseArgs_js (args : list JsValue) : Expression + string :=
  parse_items args (mkExpression createMap 0.0).

(** The JavaScript value of an argument of the kinds [parseArgs] accepts. *)
Definition js_of_arg (a : Arg) : JsValue :=
  match a with
  | ArgNumber n => JsNumber n
  | ArgVariable v => JsVariable v
  | ArgExpression e => JsExpression e
  | ArgPairVariable k v => JsArray [JsNumber k; JsVariable v]
  | ArgPairExpression k e => JsArray [JsNumber k; JsExpression e]
  end.

(** What an argument adds to the coefficient of the variable with the id
    [id], in the order [parseArgs] adds it, and what it adds to the
    constant. *)
Definition has_id (id : Z) (w : Var) : bool := (var_id w =? id)%Z.

Definition addends (id : Z) (a : Arg) : list float :=
  match a with
  | ArgNumber _ => []
  | ArgVariable w => if has_id id w then [1.0] else []
  | ArgExpression e => map snd (filter (fun t => has_id id (fst t)) (terms e))
  | ArgPairVariable k w => if has_id id w then [k] else []
  | ArgPairExpression k e =>
      map (fun t => snd t * k) (filter (fun t => has_id id (fst t)) (terms e))
  end.

Definition constant_addends (a : Arg) : list float :=
  match a with
  | ArgNumber n => [n]
  | ArgVariable _ => []
  | ArgExpression e => [expr_constant e]
  | ArgPairVariable _ _ => []
  | ArgPairExpression k e => [expr_constant e * k]
  end.

(** The sum of numbers from left to right, as [+=] forms it from [0.0]. *)
Definition sum_of (xs : list float) : float := fold_left PrimFloat.add xs 0.0.

(** The terms of an expression under construction hold, for every variable,
    the sum of what has been added for its id. *)
Definition collected (ts : IndexedMap Var float) (C : Z -> list float) : Prop :=
  NoDup (ids ts)
  /\ forall v,
       match C (var_id v) with
       | [] => find v ts = None
       | cs => exists v', find v ts = Some (v', sum_of cs)
       end.

(** The example of the module documentation, after its assignment to
    [maxIterations]: two edit variables, the constraint
    [new Constraint(expr, Operator.Eq, Strength.required)] for
    [expr = -centerX + left + 0.5 width], and the suggestions 0 and 500. *)
Definition documented_example : M unit :=
  Solver.addEditVariable var_left Strength.strong ;;
  Solver.addEditVariable var_width Strength.strong ;;
  (cn <- defined
           (Constraint_new 100
              (inr (Expr.new [ArgPairVariable (-1) var_centerX; ArgVariable var_left;
                              ArgPairVariable 0.5 var_width]))
              Operator.Eq (Some (OpNumber Strength.required)) None) ;;
   Solver.addConstraint cn) ;;
  Solver.suggestValue 10 var_left 0 ;;
  Solver.suggestValue 10 var_width 500 ;;
  Solver.updateVariables.

(** ** The solved form of the tableau

    Every symbol of the tableau and every symbol of a variable was made by
    [_makeSymbol], so its id is below the counter [_idTick]. *)
Definition rows_below (n : Z) (rows : IndexedMap Symbol Row) : Prop :=
  forall item, In item rows ->
    (sym_id (fst item) < n)%Z
    /\ forall x, In x (cell_ids (snd item)) -> (x < n)%Z.

Definition symbols_below (s : State) : Prop :=
  rows_below (_idTick s) (_rowMap s)
  /\ forall p, In p (_varMap s) -> (sym_id (snd p) < _idTick s)%Z.

(** The tableau is in solved form: the basic symbols are distinct, so are
    the symbols of each row, no basic symbol occurs in a row, and every symbol
    is one that was made. *)
Definition solved_form (s : State) : Prop := wf (_rowMap s) /\ symbols_below s.

(** A row that may enter the tableau of [s]: its symbols are distinct, are
    not basic, and were made. *)
Definition row_fits (s : State) (row : Row) : Prop :=
  NoDup (cell_ids row)
  /\ forall x, In x (cell_ids row) -> ~ In x (ids (_rowMap s)) /\ (x < _idTick s)%Z.

(** The call, from the state [s], returns with [Q], or throws with the
    tableau in solved form (or was cut off). *)
Definition ends {A} (c : M A) (s : State) (Q : A -> State -> Prop) : Prop :=
  match c s with
  | Ok a s' => Q a s'
  | Throw _ s' => solved_form s'
  | Diverge => True
  end.

(** The bound of the specification on a tableau: every row has a constant at
    or above [-1.0e-8]. *)
Definition within_epsilon (s : State) : bool :=
  forallb (fun item => -1.0e-8 <=? constant (snd item)) (_rowMap s).

(** The required [3 x <= 1e9] and [0.7 x >= 0]. *)
Definition two_bounds : M unit :=
  Solver.createConstraint (inr (Expr.new [ArgPairVariable 3 var_x])) Operator.Le
                          (OpNumber 1.0e9) None ;;
  Solver.createConstraint (inr (Expr.new [ArgPairVariable 0.7 var_x])) Operator.Ge
                          (OpNumber 0) None ;;
  ret tt.

(** The two bounds, the required [x >= 1], which is the result, and [x] as
    an edit variable. *)
Definition held_at_one : M Cn :=
  two_bounds ;;
  c <- Solver.createConstraint (inl var_x) Operator.Ge (OpNumber 1) None ;;
  Solver.addEditVariable var_x Strength.strong ;;
  ret c.

(** The edit variable [x] suggested at 5, then the required [0.3 x <= 7e9]
    and [3 x >= 0] and the weak [x = 0]. *)
Definition edit_over_weak : M unit :=
  Solver.addEditVariable var_x Strength.strong ;;
  Solver.suggestValue 10 var_x 5 ;;
  Solver.createConstraint (inr (Expr.new [ArgPairVariable 0.3 var_x])) Operator.Le
                          (OpNumber 7.0e9) None ;;
  Solver.createConstraint (inr (Expr.new [ArgPairVariable 3 var_x])) Operator.Ge
                          (OpNumber 0) None ;;
  Solver.createConstraint (inl var_x) Operator.Eq (OpNumber 0) (Some Strength.weak) ;;
  ret tt.

(** Two suggestions whose difference overflows. *)
Definition overflowing_suggestions : list Call :=
  [SuggestValue 10 var_x 1.7e308; SuggestValue 10 var_x (-1.7e308)].

(** * Facts and theorems *)

(** * Facts of binary64 arithmetic *)

Module FloatFacts.

Lemma binary_round_aux_sign prec emax sx mx ex lx :
  sign_in sx (binary_round_aux prec emax sx mx ex lx).
Proof.
  unfold binary_round_aux.
  destruct (shr_fexp prec emax mx ex lx) as [mrs' e'].
  destruct (shr_fexp prec emax _ e' loc_Exact) as [mrs'' e''].
  destruct (shr_m mrs''); simpl; trivial.
  destruct (Z.leb _ _); simpl; trivial.
Qed.

Lemma SFmul_sign prec emax bx b_y x y :
  sign_in bx x -> sign_in b_y y -> sign_in (xorb bx b_y) (SFmul prec emax x y).
Proof.
  destruct x, y; simpl; intros; subst; trivial.
  apply binary_round_aux_sign.
Qed.

Lemma SFdiv_sign prec emax bx b_y x y :
  sign_in bx x -> sign_in b_y y -> sign_in (xorb bx b_y) (SFdiv prec emax x y).
Proof.
  destruct x, y; simpl; intros; subst; trivial.
  destruct (SFdiv_core_binary _ _ _ _ _ _) as [[mz ez] lz].
  apply binary_round_aux_sign.
Qed.

Lemma Prim2SF_zero : Prim2SF 0 = S754_zero false.
Proof. reflexivity. Qed.

Lemma ltb_zero_sign x : (x <? 0) = true -> sign_in true (Prim2SF x) /\ Prim2SF x <> S754_nan.
Proof.
  rewrite ltb_spec, Prim2SF_zero.
  destruct (Prim2SF x) as [s|s| |s m e]; try destruct s; simpl; intros; try discriminate;
    split; congruence.
Qed.

Lemma zero_ltb_sign x : (0 <? x) = true -> sign_in false (Prim2SF x) /\ Prim2SF x <> S754_nan.
Proof.
  rewrite ltb_spec, Prim2SF_zero.
  destruct (Prim2SF x) as [s|s| |s m e]; try destruct s; simpl; intros; try discriminate;
    split; congruence.
Qed.

Lemma sign_false_not_ltb_zero x : sign_in false (Prim2SF x) -> (x <? 0) = false.
Proof.
  rewrite ltb_spec, Prim2SF_zero.
  destruct (Prim2SF x) as [s|s| |s m e]; simpl; intros; subst; reflexivity.
Qed.

(** The constant of a row solved for a symbol of positive coefficient is
    not negative when the constant was. *)
Lemma pivot_constant_nonneg x c :
  (x <? 0) = true -> (0 <? c) = true -> (x * (-1 / c) <? 0) = false.
Proof.
  intros Hx Hc. apply sign_false_not_ltb_zero.
  destruct (ltb_zero_sign x Hx) as [Sx _], (zero_ltb_sign c Hc) as [Sc _].
  rewrite mul_spec, div_spec.
  change false with (xorb true (xorb true false)).
  apply SFmul_sign; trivial. apply SFdiv_sign; trivial. reflexivity.
Qed.

Lemma opp_involutive x : - - x = x.
Proof.
  apply Prim2SF_inj. rewrite !opp_spec. destruct (Prim2SF x); simpl; try reflexivity;
    now rewrite negb_involutive.
Qed.

Lemma nearZero_opp x : nearZero (- x) = nearZero x.
Proof.
  unfold nearZero. rewrite opp_involutive. rewrite !ltb_spec, !opp_spec, Prim2SF_zero.
  destruct (Prim2SF x) as [s|s| |s m e]; try destruct s; simpl; reflexivity.
Qed.


Lemma Prim2SF_one : Prim2SF 1 = S754_finite false 4503599627370496 (-52).
Proof. reflexivity. Qed.

Lemma digits_shift52 m :
  Zpos (digits2_pos (Pos.mul 4503599627370496 m)) = (Zpos (digits2_pos m) + 52)%Z.
Proof.
  cbn [Pos.mul digits2_pos]. rewrite !Pos2Z.inj_succ. lia.
Qed.

Lemma shr52 m :
  SpecFloat.iter_pos shr_1 52%positive (Build_shr_record (Zpos (Pos.mul 4503599627370496 m)) false false)
  = Build_shr_record (Zpos m) false false.
Proof. reflexivity. Qed.

Lemma SFmul_one s m e :
  valid_binary (S754_finite s m e) = true ->
  SF64mul (S754_finite s m e) (S754_finite false 4503599627370496 (-52))
  = S754_finite s m e.
Proof.
  unfold valid_binary, SpecFloat.valid_binary, bounded, canonical_mantissa.
  intros Hv. apply andb_prop in Hv. destruct Hv as [Hc He].
  apply Z.eqb_eq in Hc.
  unfold SF64mul, SFmul. rewrite xorb_false_r. rewrite (Pos.mul_comm m).
  unfold binary_round_aux, shr_fexp.
  unfold Zdigits2 at 1. rewrite digits_shift52.
  replace (Z.pos (digits2_pos m) + 52 + (e + -52))%Z with (Z.pos (digits2_pos m) + e)%Z by lia.
  rewrite Hc.
  replace (e - (e + -52))%Z with 52%Z by lia.
  unfold shr_record_of_loc at 1. unfold shr at 1. rewrite shr52.
  cbn [shr_m loc_of_shr_record round_nearest_even Zdigits2 shr_record_of_loc].
  replace (e + -52 + 52)%Z with e by lia.
  rewrite Hc, Z.sub_diag. cbn [shr shr_m]. now rewrite He.
Qed.

Lemma mul_1_r x : x * 1 = x.
Proof.
  apply Prim2SF_inj. rewrite mul_spec, Prim2SF_one.
  pose proof (Prim2SF_valid x) as Hv.
  destruct (Prim2SF x) as [s|s| |s m e] eqn:E.
  - cbn. now rewrite xorb_false_r.
  - cbn. now rewrite xorb_false_r.
  - reflexivity.
  - now apply SFmul_one.
Qed.

Lemma sub_0_r x : x - 0 = x.
Proof.
  apply Prim2SF_inj. rewrite sub_spec. change (Prim2SF 0) with (S754_zero false).
  destruct (Prim2SF x) as [s|s| |s m e]; try destruct s; reflexivity.
Qed.

Lemma add_negzero_l x : (-0) + x = x.
Proof.
  apply Prim2SF_inj. rewrite add_spec. change (Prim2SF (-0)) with (S754_zero true).
  destruct (Prim2SF x) as [s|s| |s m e]; try destruct s; reflexivity.
Qed.

Lemma add_0_l_nonneg x : sign_in false (Prim2SF x) -> 0 + x = x.
Proof.
  intros Hs. apply Prim2SF_inj. rewrite add_spec. change (Prim2SF 0) with (S754_zero false).
  destruct (Prim2SF x) as [s|s| |s m e]; simpl in Hs; subst; reflexivity.
Qed.



Lemma max0_sign m : sign_in false (Prim2SF (Math.max 0 m)).
Proof.
  unfold Math.max. change (is_nan 0) with false. cbn [orb].
  destruct (is_nan m); [exact I|].
  destruct (0 <? m) eqn:E; [now apply zero_ltb_sign|].
  destruct (m <? 0); [reflexivity|].
  change (get_sign 0) with false. reflexivity.
Qed.

Lemma mul_sign_nonneg a k :
  sign_in false (Prim2SF a) -> sign_in false (Prim2SF k) -> sign_in false (Prim2SF (a * k)).
Proof.
  intros Ha Hk. rewrite mul_spec. change false with (xorb false false).
  now apply SFmul_sign.
Qed.

End FloatFacts.

Import FloatFacts.

Module OrderFacts.

Lemma SFcompare_antisym x y :
  SFcompare y x = option_map CompOpp (SFcompare x y).
Proof.
  destruct x as [s|s| |s m e], y as [s'|s'| |s' m' e']; simpl; trivial;
    try (destruct s; reflexivity); try (destruct s'; reflexivity);
    try (destruct s, s'; reflexivity).
  destruct s, s'; simpl; trivial;
    rewrite (Z.compare_antisym e e'); destruct (Z.compare e e'); simpl; trivial;
    rewrite (Pos.compare_cont_antisym m m' Eq); simpl;
    now rewrite ?CompOpp_involutive.
Qed.

Lemma SFcompare_refl x : x <> S754_nan -> SFcompare x x = Some Eq.
Proof.
  destruct x as [s|s| |s m e]; simpl; intros N; trivial; try (now destruct s);
    try congruence.
  destruct s; rewrite Z.compare_refl, Pos.compare_cont_refl; reflexivity.
Qed.

Lemma SFcompare_Eq_finite s m e y :
  SFcompare (S754_finite s m e) y = Some Eq -> y = S754_finite s m e.
Proof.
  destruct y as [s'|s'| |s' m' e']; simpl.
  - destruct s; discriminate.
  - destruct s, s'; discriminate.
  - discriminate.
  - assert (P : forall c, Some c = Some Datatypes.Eq -> c = Datatypes.Eq) by congruence.
    assert (Q : PosDef.Pos.compare_cont Datatypes.Eq m m' = Datatypes.Eq -> m' = m).
    { intros C. symmetry. now apply Pos.compare_eq. }
    destruct s, s'; try discriminate;
      destruct (Z.compare_spec e e') as [<-|L|L]; try discriminate;
      intros C; apply P in C; f_equal; apply Q;
      destruct (PosDef.Pos.compare_cont Datatypes.Eq m m'); trivial; discriminate.
Qed.

Lemma compared_not_nan x y c :
  SFcompare x y = Some c -> x <> S754_nan /\ y <> S754_nan.
Proof. destruct x, y; simpl; intros E; split; congruence. Qed.

Lemma is_nan_false x : Prim2SF x <> S754_nan -> is_nan x = false.
Proof.
  intros N. unfold is_nan. rewrite FloatAxioms.eqb_spec. unfold SFeqb.
  now rewrite (SFcompare_refl _ N).
Qed.

Lemma ltb_compare x y : (x <? y) = true <-> SFcompare (Prim2SF x) (Prim2SF y) = Some Lt.
Proof.
  rewrite FloatAxioms.ltb_spec. unfold SFltb.
  destruct (SFcompare _ _) as [[]|]; split; congruence.
Qed.

Lemma eqb_compare x y : (x =? y) = true <-> SFcompare (Prim2SF x) (Prim2SF y) = Some Eq.
Proof.
  rewrite FloatAxioms.eqb_spec. unfold SFeqb.
  destruct (SFcompare _ _) as [[]|]; split; congruence.
Qed.

Lemma leb_cases x y : (x <=? y) = true -> (x <? y) = true \/ (x =? y) = true.
Proof.
  rewrite FloatAxioms.leb_spec, FloatAxioms.ltb_spec, FloatAxioms.eqb_spec. unfold SFleb, SFltb, SFeqb.
  destruct (SFcompare _ _) as [[]|]; auto.
Qed.

Lemma ltb_antisym x y : (x <? y) = true -> (y <? x) = false.
Proof.
  intros L. apply ltb_compare in L. rewrite FloatAxioms.ltb_spec. unfold SFltb.
  now rewrite (SFcompare_antisym (Prim2SF x) (Prim2SF y)), L.
Qed.

Lemma ltb_not_eqb x y : (x <? y) = true -> (x =? y) = false.
Proof.
  intros L. apply ltb_compare in L. rewrite FloatAxioms.eqb_spec. unfold SFeqb. now rewrite L.
Qed.

Lemma eqb_not_ltb x y : (x =? y) = true -> (x <? y) = false /\ (y <? x) = false.
Proof.
  intros E. apply eqb_compare in E. rewrite !FloatAxioms.ltb_spec. unfold SFltb.
  now rewrite (SFcompare_antisym (Prim2SF x) (Prim2SF y)), E.
Qed.

Lemma ltb_is_nan x y : (x <? y) = true -> is_nan x = false /\ is_nan y = false.
Proof.
  intros L. apply ltb_compare in L. apply compared_not_nan in L.
  split; apply is_nan_false; tauto.
Qed.

Lemma eqb_is_nan x y : (x =? y) = true -> is_nan x = false /\ is_nan y = false.
Proof.
  intros L. apply eqb_compare in L. apply compared_not_nan in L.
  split; apply is_nan_false; tauto.
Qed.

(** A number that compares equal to a finite non-zero one is that number. *)
Lemma eqb_finite_eq x y s m e :
  Prim2SF x = S754_finite s m e -> (x =? y) = true -> y = x.
Proof.
  intros F E. apply eqb_compare in E. rewrite F in E.
  apply SFcompare_Eq_finite in E. apply Prim2SF_inj. congruence.
Qed.

Lemma Prim2SF_required :
  Prim2SF Strength.required = S754_finite false 8397004996608000 (-23).
Proof. reflexivity. Qed.

(** [Strength.clip] of a strength at or above [required] is [required]. *)
Lemma clip_at_least_required strength :
  (Strength.required <=? strength) = true -> Strength.clip strength = Strength.required.
Proof.
  intros L. unfold Strength.clip.
  assert (E : Math.min Strength.required strength = Strength.required).
  { unfold Math.min. apply leb_cases in L. destruct L as [L|L].
    - destruct (ltb_is_nan _ _ L) as [-> ->]. cbn [orb]. now rewrite L.
    - destruct (eqb_is_nan _ _ L) as [-> ->]. cbn [orb].
      destruct (eqb_not_ltb _ _ L) as [-> ->].
      change (get_sign Strength.required) with false.
      exact (eqb_finite_eq _ _ _ _ _ Prim2SF_required L). }
  rewrite E. reflexivity.
Qed.

(** [Strength.clip] of a strength below [required] is that strength or
    zero, and is not [required]. *)
Lemma clip_below_required strength :
  (strength <? Strength.required) = true ->
  (Strength.clip strength = strength \/ Strength.clip strength = 0)
  /\ (Strength.clip strength =? Strength.required) = false.
Proof.
  intros L. unfold Strength.clip.
  assert (E : Math.min Strength.required strength = strength).
  { unfold Math.min. destruct (ltb_is_nan _ _ L) as [-> ->]. cbn [orb].
    now rewrite (ltb_antisym _ _ L), L. }
  rewrite E. unfold Math.max. change (is_nan 0) with false.
  destruct (ltb_is_nan _ _ L) as [-> _]. cbn [orb].
  change (get_sign 0) with false.
  destruct (0 <? strength); [split; [now left | now apply ltb_not_eqb]|].
  destruct (strength <? 0); split; auto.
Qed.

End OrderFacts.

Import OrderFacts.

(** * Facts about [IndexedMap] *)

Section IndexedMapFacts.

Context {K V : Type} `{HasId K}.

Lemma ids_app (m1 m2 : IndexedMap K V) : ids (m1 ++ m2) = ids m1 ++ ids m2.
Proof. apply map_app. Qed.

Lemma last_or_nil {A} (l : list A) : l = [] \/ exists l' z, l = l' ++ [z].
Proof. induction l using rev_ind; [now left | right; eauto]. Qed.

Lemma index_of_None key (m : IndexedMap K V) :
  index_of key m = None <-> ~ In (id_of key) (ids m).
Proof.
  induction m as [|item rest IH]; simpl.
  - tauto.
  - destruct (Z.eqb_spec (id_of (fst item)) (id_of key)) as [E|E].
    + split; [discriminate | intros N; exfalso; apply N; now left].
    + destruct (index_of key rest); simpl.
      * split; [discriminate|]. intros N. exfalso. apply N. right.
        destruct (in_dec Z.eq_dec (id_of key) (ids rest)) as [I|I]; [exact I|].
        apply IH in I. discriminate.
      * split; [|reflexivity]. intros _ [E'|I]; [now apply E|].
        revert I. now apply IH.
Qed.

(** A key that [index] knows splits the array around its pair. *)
Lemma index_of_split key (m : IndexedMap K V) i :
  index_of key m = Some i ->
  exists l1 item l2,
    m = l1 ++ item :: l2 /\ length l1 = i /\ id_of (fst item) = id_of key
    /\ ~ In (id_of key) (ids l1).
Proof.
  revert i. induction m as [|item rest IH]; simpl; intros i E; [discriminate|].
  destruct (Z.eqb_spec (id_of (fst item)) (id_of key)) as [Ek|Ek].
  - injection E as <-. exists [], item, rest. simpl. tauto.
  - destruct (index_of key rest) as [j|]; [|discriminate]. injection E as <-.
    destruct (IH j eq_refl) as (l1 & it & l2 & -> & <- & Eit & N).
    exists (item :: l1), it, l2. simpl. repeat split; trivial.
    intros [E'|I]; [now apply Ek | now apply N].
Qed.

Lemma index_of_app key (l1 : IndexedMap K V) item l2 :
  id_of (fst item) = id_of key -> ~ In (id_of key) (ids l1) ->
  index_of key (l1 ++ item :: l2) = Some (length l1).
Proof.
  intros E. induction l1 as [|a l1 IH]; simpl; intros N.
  - now rewrite E, Z.eqb_refl.
  - destruct (Z.eqb_spec (id_of (fst a)) (id_of key)) as [Ea|Ea]; [exfalso; apply N; now left|].
    rewrite IH; [reflexivity|]. intros I. apply N. now right.
Qed.

Lemma nth_error_middle (l1 : IndexedMap K V) item l2 :
  nth_error (l1 ++ item :: l2) (length l1) = Some item.
Proof. induction l1; simpl; trivial. Qed.

Lemma set_at_middle (l1 : IndexedMap K V) item x l2 :
  set_at (length l1) x (l1 ++ item :: l2) = l1 ++ x :: l2.
Proof. induction l1 as [|a l1 IH]; simpl; [reflexivity | now rewrite IH]. Qed.

Lemma find_middle key (l1 : IndexedMap K V) item l2 :
  id_of (fst item) = id_of key -> ~ In (id_of key) (ids l1) ->
  find key (l1 ++ item :: l2) = Some item.
Proof.
  intros E N. unfold find. rewrite index_of_app by assumption. apply nth_error_middle.
Qed.

Lemma find_None key (m : IndexedMap K V) :
  find key m = None <-> ~ In (id_of key) (ids m).
Proof.
  unfold find. destruct (index_of key m) as [i|] eqn:E.
  - destruct (index_of_split _ _ _ E) as (l1 & item & l2 & -> & <- & Ei & N).
    rewrite nth_error_middle. split; [discriminate|]. intros N'. exfalso. apply N'.
    rewrite ids_app. apply in_or_app. right. left. exact Ei.
  - apply index_of_None in E. tauto.
Qed.

Lemma find_Some key (m : IndexedMap K V) item :
  find key m = Some item ->
  exists l1 l2, m = l1 ++ item :: l2 /\ id_of (fst item) = id_of key
                /\ ~ In (id_of key) (ids l1).
Proof.
  unfold find. destruct (index_of key m) as [i|] eqn:E; [|discriminate].
  destruct (index_of_split _ _ _ E) as (l1 & it & l2 & -> & <- & Ei & N).
  rewrite nth_error_middle. intros [= <-]. now exists l1, l2.
Qed.

Lemma set_second_middle key v (l1 : IndexedMap K V) item l2 :
  id_of (fst item) = id_of key -> ~ In (id_of key) (ids l1) ->
  set_second key v (l1 ++ item :: l2) = l1 ++ (fst item, v) :: l2.
Proof.
  intros E N. unfold set_second. rewrite index_of_app by assumption.
  rewrite nth_error_middle. apply set_at_middle.
Qed.

Lemma insert_middle key v (l1 : IndexedMap K V) item l2 :
  id_of (fst item) = id_of key -> ~ In (id_of key) (ids l1) ->
  insert key v (l1 ++ item :: l2) = l1 ++ (key, v) :: l2.
Proof.
  intros E N. unfold insert. rewrite index_of_app by assumption. apply set_at_middle.
Qed.

Lemma insert_absent key v (m : IndexedMap K V) :
  ~ In (id_of key) (ids m) -> insert key v m = m ++ [(key, v)].
Proof. intros N. unfold insert. apply index_of_None in N. now rewrite N. Qed.

(** [erase] of the last pair, and of a pair before the last. *)
Lemma erase_last key (l1 : IndexedMap K V) item :
  id_of (fst item) = id_of key -> ~ In (id_of key) (ids l1) ->
  erase key (l1 ++ [item]) = (Some item, l1).
Proof.
  intros E N. unfold erase. rewrite index_of_app by assumption.
  rewrite nth_error_middle, map_app. cbn [map].
  rewrite last_last, removelast_last, Nat.eqb_refl. reflexivity.
Qed.

Lemma erase_middle key (l1 : IndexedMap K V) item l2 z :
  id_of (fst item) = id_of key -> ~ In (id_of key) (ids l1) ->
  erase key (l1 ++ item :: l2 ++ [z]) = (Some item, l1 ++ z :: l2).
Proof.
  intros E N. unfold erase. rewrite index_of_app by assumption.
  rewrite nth_error_middle.
  replace (l1 ++ item :: l2 ++ [z]) with ((l1 ++ item :: l2) ++ [z])
    by (now rewrite <- app_assoc).
  rewrite map_app. cbn [map]. rewrite last_last, removelast_last.
  destruct (Nat.eqb_spec (length l1) (length (l1 ++ item :: l2))) as [L|L].
  - rewrite length_app in L. simpl in L. lia.
  - now rewrite set_at_middle.
Qed.

Lemma erase_absent key (m : IndexedMap K V) :
  ~ In (id_of key) (ids m) -> erase key m = (None, m).
Proof. intros N. unfold erase. apply index_of_None in N. now rewrite N. Qed.

(** The two shapes of an [erase] that finds its key. *)
Lemma erase_found key (l1 : IndexedMap K V) item l2 :
  id_of (fst item) = id_of key -> ~ In (id_of key) (ids l1) ->
  exists rest, erase key (l1 ++ item :: l2) = (Some item, rest)
               /\ (forall p, In p rest <-> In p l1 \/ In p l2)
               /\ (forall x, In x (ids rest) <-> In x (ids l1) \/ In x (ids l2))
               /\ (NoDup (ids (l1 ++ item :: l2)) -> NoDup (ids rest)).
Proof.
  intros E N. destruct (last_or_nil l2) as [->|(l2' & z & ->)].
  - exists l1. rewrite erase_last by assumption.
    split; [reflexivity|]. split; [intros p; simpl; tauto|].
    split; [intros x; simpl; tauto|].
    unfold ids. rewrite map_app. cbn [map]. intros D.
    apply NoDup_remove_1 in D. now rewrite app_nil_r in D.
  - exists (l1 ++ z :: l2'). rewrite erase_middle by assumption.
    split; [reflexivity|].
    split; [intros p; rewrite !in_app_iff; simpl; rewrite ?in_app_iff; simpl; tauto|].
    split; [intros x; unfold ids; rewrite !map_app; cbn [map];
            rewrite !in_app_iff; simpl; rewrite ?in_app_iff; simpl; tauto|].
    unfold ids. rewrite !map_app. cbn [map]. rewrite map_app. cbn [map]. intros D.
    apply NoDup_remove_1 in D.
    eapply Permutation_NoDup; [|exact D].
    apply Permutation_app_head.
    apply Permutation_sym, Permutation_cons_append.
Qed.

Lemma find_In key (m : IndexedMap K V) item :
  find key m = Some item -> In item m /\ id_of (fst item) = id_of key.
Proof.
  intros F. destruct (find_Some _ _ _ F) as (l1 & l2 & -> & E & _).
  split; trivial. apply in_or_app. right. now left.
Qed.

(** With distinct ids, a pair of the array is the one [find] returns. *)
Lemma In_find key (m : IndexedMap K V) item :
  NoDup (ids m) -> In item m -> id_of (fst item) = id_of key -> find key m = Some item.
Proof.
  intros D I E. apply in_split in I. destruct I as (l1 & l2 & ->).
  apply find_middle; trivial. unfold ids in D. rewrite map_app in D. cbn [map] in D.
  apply NoDup_remove_2 in D. rewrite <- E. intros I. apply D. apply in_or_app. now left.
Qed.

Lemma In_ids (m : IndexedMap K V) item : In item m -> In (id_of (fst item)) (ids m).
Proof. intros I. unfold ids. now apply (in_map (fun p => id_of (fst p))). Qed.

Lemma ids_In (m : IndexedMap K V) x :
  In x (ids m) -> exists item, In item m /\ id_of (fst item) = x.
Proof.
  unfold ids. rewrite in_map_iff. intros (item & E & I). now exists item.
Qed.

Lemma erase_NoDup key (m : IndexedMap K V) :
  NoDup (ids m) ->
  NoDup (ids (snd (erase key m)))
  /\ ~ In (id_of key) (ids (snd (erase key m)))
  /\ (forall p, In p (snd (erase key m)) -> In p m)
  /\ (forall p, In p m -> id_of (fst p) <> id_of key -> In p (snd (erase key m))).
Proof.
  intros D. destruct (find key m) as [item|] eqn:F.
  - destruct (find_Some _ _ _ F) as (l1 & l2 & -> & E & N).
    destruct (erase_found key l1 item l2 E N) as (rest & -> & I & Ii & Dr).
    cbn [snd]. split; [now apply Dr|].
    assert (N2 : ~ In (id_of key) (ids l2)).
    { unfold ids in D. rewrite map_app in D. cbn [map] in D.
      apply NoDup_remove_2 in D. rewrite E in D. intros I2. apply D.
      apply in_or_app. now right. }
    split; [rewrite Ii; tauto|]. split.
    + intros p Ip. apply I in Ip. rewrite in_app_iff. simpl. tauto.
    + intros p Ip Np. apply I. rewrite in_app_iff in Ip. simpl in Ip.
      destruct Ip as [Ip|[<-|Ip]]; auto. now elim Np.
  - apply find_None in F. rewrite erase_absent by assumption. cbn [snd].
    repeat split; trivial.
Qed.

End IndexedMapFacts.

(** * Facts about [Row] *)

Module RowFacts.

Import RowOps.

(** What [setDefault] followed by the assignment to [pair.second] makes of
    the cells. *)
Lemma insertSymbol_shape symbol c r :
  exists l1 l2 key old,
    (cells r = l1 ++ (key, old) :: l2 \/ (cells r = l1 /\ l2 = [] /\ key = symbol /\ old = 0))
    /\ sym_id key = sym_id symbol /\ ~ In (sym_id symbol) (ids l1)
    /\ insertSymbol symbol c r =
       if nearZero (old + c)
       then mkRow (snd (erase symbol (l1 ++ (key, old + c) :: l2))) (constant r)
       else mkRow (l1 ++ (key, old + c) :: l2) (constant r).
Proof.
  unfold insertSymbol, setDefault.
  destruct (find symbol (cells r)) as [[key old]|] eqn:F.
  - destruct (find_Some _ _ _ F) as (l1 & l2 & E & Ek & N).
    exists l1, l2, key, old. rewrite E.
    rewrite set_second_middle by assumption. simpl. auto.
  - apply find_None in F. exists (cells r), [], symbol, 0.
    rewrite set_second_middle by (trivial). simpl. split; [right; auto|]. auto.
Qed.

Lemma insertSymbol_constant symbol c r : constant (insertSymbol symbol c r) = constant r.
Proof.
  destruct (insertSymbol_shape symbol c r) as (l1 & l2 & key & old & _ & _ & _ & ->).
  now destruct (nearZero _).
Qed.

Lemma insertSymbol_In symbol c r p :
  In p (cells (insertSymbol symbol c r)) ->
  In p (cells r) \/ (sym_id (fst p) = sym_id symbol /\ nearZero (snd p) = false).
Proof.
  destruct (insertSymbol_shape symbol c r) as (l1 & l2 & key & old & S & Ek & N & ->).
  assert (Sub : In p l1 \/ In p l2 -> In p (cells r)).
  { destruct S as [->|(-> & -> & _)]; rewrite ?in_app_iff; simpl; tauto. }
  destruct (nearZero (old + c)) eqn:Z; cbn [cells].
  - destruct (erase_found (H:=Symbol_HasId) symbol l1 (key, old + c) l2 Ek N) as (rest & -> & I & _).
    simpl. rewrite I. auto.
  - rewrite in_app_iff. simpl. intros [I|[<-|I]]; auto.
Qed.

Lemma insertSymbol_ids symbol c r x :
  In x (cell_ids (insertSymbol symbol c r)) -> In x (cell_ids r) \/ x = sym_id symbol.
Proof.
  unfold cell_ids.
  destruct (insertSymbol_shape symbol c r) as (l1 & l2 & key & old & S & Ek & N & ->).
  assert (Sub : In x (ids l1) \/ In x (ids l2) -> In x (ids (cells r))).
  { destruct S as [->|(-> & -> & _)]; rewrite ?ids_app, ?in_app_iff; simpl; tauto. }
  destruct (nearZero (old + c)) eqn:Z; cbn [cells].
  - destruct (erase_found (H:=Symbol_HasId) symbol l1 (key, old + c) l2 Ek N) as (rest & -> & _ & I & _).
    simpl. rewrite I. auto.
  - rewrite ids_app, in_app_iff. simpl. intros [I|[<-|I]]; auto.
Qed.

Lemma insertSymbol_ids_keep symbol c r x :
  In x (cell_ids r) -> x <> sym_id symbol -> In x (cell_ids (insertSymbol symbol c r)).
Proof.
  unfold cell_ids.
  destruct (insertSymbol_shape symbol c r) as (l1 & l2 & key & old & S & Ek & N & ->).
  intros I Nx.
  assert (Sub : In x (ids l1) \/ In x (ids l2)).
  { destruct S as [E|(E & -> & _)]; rewrite E in I; rewrite ?ids_app, ?in_app_iff in I;
      simpl in I; [|tauto]. destruct I as [I|[I|I]]; auto. exfalso. apply Nx. rewrite <- I. exact Ek. }
  destruct (nearZero (old + c)) eqn:Z; cbn [cells].
  - destruct (erase_found (H:=Symbol_HasId) symbol l1 (key, old + c) l2 Ek N) as (rest & -> & _ & I' & _).
    simpl. now rewrite I'.
  - rewrite ids_app, in_app_iff. simpl. tauto.
Qed.

Lemma insertSymbol_NoDup symbol c r :
  NoDup (cell_ids r) -> NoDup (cell_ids (insertSymbol symbol c r)).
Proof.
  unfold cell_ids.
  destruct (insertSymbol_shape symbol c r) as (l1 & l2 & key & old & S & Ek & N & ->).
  intros D.
  assert (D' : NoDup (ids (l1 ++ (key, old + c) :: l2))).
  { destruct S as [E|(E & -> & _)]; rewrite E in D.
    - now rewrite ids_app in *.
    - rewrite ids_app. cbn [ids map fst].
      eapply Permutation_NoDup; [apply Permutation_cons_append|].
      constructor; [|exact D]. intros I. apply N. now rewrite <- Ek. }
  destruct (nearZero (old + c)) eqn:Z; cbn [cells]; trivial.
  destruct (erase_found (H:=Symbol_HasId) symbol l1 (key, old + c) l2 Ek N) as (rest & -> & _ & _ & R).
  simpl. auto.
Qed.


Lemma insertSymbol_pruned symbol c r :
  cells_pruned r -> cells_pruned (insertSymbol symbol c r).
Proof.
  unfold cells_pruned. rewrite !Forall_forall. intros P p I.
  apply insertSymbol_In in I. destruct I as [I|[_ Z]]; auto.
Qed.

Lemma insertSymbol_erases symbol c r :
  NoDup (cell_ids r) -> nearZero (coefficientFor symbol r + c) = true ->
  find symbol (cells (insertSymbol symbol c r)) = None.
Proof.
  unfold cell_ids, coefficientFor. intros D.
  destruct (insertSymbol_shape symbol c r) as (l1 & l2 & key & old & S & Ek & N & ->).
  assert (F : find symbol (cells r) = Some (key, old) \/
              (find symbol (cells r) = None /\ old = 0)).
  { destruct S as [E|(E & -> & -> & ->)]; rewrite E.
    - left. now apply find_middle.
    - right. split; trivial. now apply find_None. }
  assert (D' : NoDup (ids (l1 ++ (key, old + c) :: l2))).
  { destruct S as [E|(E & -> & _)]; rewrite E in D.
    - now rewrite ids_app in *.
    - rewrite ids_app. cbn [ids map fst].
      eapply Permutation_NoDup; [apply Permutation_cons_append|].
      constructor; [|exact D]. intros I. apply N. now rewrite <- Ek. }
  intros Z.
  replace (nearZero (old + c)) with true
    by (destruct F as [F|[F ->]]; rewrite F in Z; now rewrite <- Z).
  destruct (erase_found (H:=Symbol_HasId) symbol l1 (key, old + c) l2 Ek N)
    as (rest & -> & _ & I & _).
  cbn [cells snd]. apply find_None. rewrite I.
  rewrite ids_app in D'. apply NoDup_remove_2 in D'. rewrite in_app_iff in D'.
  cbn [fst] in D'. change (id_of key) with (sym_id key) in D'. rewrite Ek in D'. exact D'.
Qed.

Lemma insertRow_unfold other coefficient r :
  insertRow other coefficient r =
  insert_cells coefficient (cells other)
    (mkRow (cells r) (constant r + constant other * coefficient)).
Proof. reflexivity. Qed.

Lemma insert_cells_pruned coefficient cs acc :
  cells_pruned acc -> cells_pruned (insert_cells coefficient cs acc).
Proof.
  revert acc. induction cs as [|item cs IH]; simpl; intros acc P; trivial.
  apply IH. now apply insertSymbol_pruned.
Qed.

Lemma insert_cells_NoDup coefficient cs acc :
  NoDup (cell_ids acc) -> NoDup (cell_ids (insert_cells coefficient cs acc)).
Proof.
  revert acc. induction cs as [|item cs IH]; simpl; intros acc P; trivial.
  apply IH. now apply insertSymbol_NoDup.
Qed.

Lemma insert_cells_constant coefficient cs acc :
  constant (insert_cells coefficient cs acc) = constant acc.
Proof.
  revert acc. induction cs as [|item cs IH]; simpl; intros acc; trivial.
  rewrite IH. apply insertSymbol_constant.
Qed.

Lemma insert_cells_ids coefficient cs acc x :
  In x (cell_ids (insert_cells coefficient cs acc)) ->
  In x (cell_ids acc) \/ In x (ids cs).
Proof.
  revert acc. induction cs as [|item cs IH]; simpl; intros acc I; auto.
  apply IH in I. destruct I as [I|I]; auto.
  apply insertSymbol_ids in I. destruct I as [I| ->]; auto.
Qed.

Lemma insertRow_pruned other coefficient r :
  cells_pruned r -> cells_pruned (insertRow other coefficient r).
Proof. intros P. rewrite insertRow_unfold. now apply insert_cells_pruned. Qed.

Lemma reverseSign_pruned r : cells_pruned r -> cells_pruned (reverseSign r).
Proof.
  unfold cells_pruned, reverseSign. cbn [cells]. intros P.
  apply Forall_map. eapply Forall_impl; [|exact P].
  intros item Z. cbn [snd]. now rewrite nearZero_opp.
Qed.

(** [substitute] either leaves the row alone (the symbol is absent) or
    takes the cell of the symbol out and inserts the other row. *)
Lemma substitute_shape symbol row r :
  (find symbol (cells r) = None /\ substitute symbol row r = r)
  \/ exists item rest,
       find symbol (cells r) = Some item
       /\ erase symbol (cells r) = (Some item, rest)
       /\ (forall p, In p rest -> In p (cells r))
       /\ (forall x, In x (ids rest) -> In x (cell_ids r))
       /\ (NoDup (cell_ids r) -> NoDup (ids rest) /\ ~ In (sym_id symbol) (ids rest))
       /\ substitute symbol row r = insertRow row (snd item) (mkRow rest (constant r)).
Proof.
  unfold substitute, cell_ids.
  destruct (find symbol (cells r)) as [item|] eqn:F.
  - right. destruct (find_Some _ _ _ F) as (l1 & l2 & E & Ek & N).
    destruct (erase_found (H:=Symbol_HasId) symbol l1 item l2 Ek N)
      as (rest & Er & I & Ii & D).
    exists item, rest. rewrite E, Er. repeat split; trivial.
    + intros p Ip. apply I in Ip. rewrite in_app_iff. simpl. tauto.
    + intros x Ix. apply Ii in Ix. rewrite ids_app, in_app_iff. simpl. tauto.
    + now apply D.
    + intros Ix. apply Ii in Ix. rewrite ids_app in H. apply NoDup_remove_2 in H.
      rewrite in_app_iff in H. change (sym_id symbol) with (id_of symbol) in Ix.
      rewrite <- Ek in Ix. tauto.
  - left. split; trivial. apply find_None in F. now rewrite erase_absent.
Qed.

Lemma substitute_pruned symbol row r :
  cells_pruned r -> cells_pruned (substitute symbol row r).
Proof.
  intros P. destruct (substitute_shape symbol row r)
    as [[_ ->]|(item & rest & _ & _ & I & _ & _ & ->)]; trivial.
  apply insertRow_pruned. unfold cells_pruned in *. rewrite Forall_forall in *. auto.
Qed.

End RowFacts.

Import RowFacts RowOps.

Module PivotFacts.

Lemma insertSymbol_In_keep symbol c r p :
  In p (cells r) -> sym_id (fst p) <> sym_id symbol ->
  In p (cells (insertSymbol symbol c r)).
Proof.
  destruct (insertSymbol_shape symbol c r) as (l1 & l2 & key & old & S & Ek & N & ->).
  intros I Np.
  assert (Sub : In p l1 \/ In p l2).
  { destruct S as [E|(E & -> & _)]; rewrite E in I; rewrite ?in_app_iff in I;
      simpl in I; [|tauto]. destruct I as [I|[<-|I]]; auto. now elim Np. }
  destruct (nearZero (old + c)); cbn [cells].
  - destruct (erase_found (H:=Symbol_HasId) symbol l1 (key, old + c) l2 Ek N)
      as (rest & -> & I' & _).
    cbn [snd]. now apply I'.
  - rewrite in_app_iff. simpl. tauto.
Qed.

Lemma ids_scaled (coeff : float) (cs : IndexedMap Symbol float) :
  ids (map (fun p => (fst p, snd p * coeff)) cs) = ids cs.
Proof. unfold ids. rewrite map_map. reflexivity. Qed.

(** [solveFor] on a row that holds the symbol. *)
Lemma solveFor_spec symbol c r :
  NoDup (cell_ids r) -> In (symbol, c) (cells r) ->
  exists r',
    solveFor symbol r = Some r'
    /\ constant r' = constant r * (-1 / c)
    /\ NoDup (cell_ids r')
    /\ forall x, In x (cell_ids r') -> In x (cell_ids r) /\ x <> sym_id symbol.
Proof.
  unfold cell_ids. intros D I.
  pose proof (In_find (H:=Symbol_HasId) symbol (cells r) (symbol, c) D I eq_refl) as F.
  destruct (find_Some _ _ _ F) as (l1 & l2 & E & Ek & N).
  destruct (erase_found (H:=Symbol_HasId) symbol l1 (symbol, c) l2 Ek N)
    as (rest & Er & _ & Ii & Dr).
  unfold solveFor. rewrite E, Er. eexists. split; [reflexivity|].
  cbn [cells constant snd]. rewrite ids_scaled. split; [reflexivity|].
  rewrite E in D. split; [now apply Dr|].
  intros x Ix. apply Ii in Ix. rewrite ids_app, in_app_iff. simpl. split; [tauto|].
  intros ->. rewrite ids_app in D. apply NoDup_remove_2 in D. rewrite in_app_iff in D.
  apply D. exact Ix.
Qed.

(** [solveForEx(lhs, rhs)] on a row that holds [rhs], for another [lhs]. *)
Lemma solveForEx_spec lhs rhs c r :
  NoDup (cell_ids r) -> In (rhs, c) (cells r) -> sym_id lhs <> sym_id rhs ->
  exists r',
    solveForEx lhs rhs r = Some r'
    /\ constant r' = constant r * (-1 / c)
    /\ NoDup (cell_ids r')
    /\ forall x, In x (cell_ids r') ->
                 (In x (cell_ids r) \/ x = sym_id lhs) /\ x <> sym_id rhs.
Proof.
  intros D I N. unfold solveForEx.
  destruct (solveFor_spec rhs c (insertSymbol lhs (-1) r)) as (r' & S & C & D' & Ids).
  - now apply insertSymbol_NoDup.
  - apply insertSymbol_In_keep; trivial. cbn [fst]. congruence.
  - exists r'. split; [exact S|]. rewrite insertSymbol_constant in C.
    split; [exact C|]. split; [exact D'|]. intros x Ix. apply Ids in Ix.
    destruct Ix as [Ix Nx]. split; [|exact Nx]. now apply insertSymbol_ids in Ix.
Qed.

Lemma substitute_NoDup symbol row r :
  NoDup (cell_ids r) -> NoDup (cell_ids (substitute symbol row r)).
Proof.
  intros D. destruct (substitute_shape symbol row r)
    as [[_ ->]|(item & rest & _ & _ & _ & _ & Dr & ->)]; trivial.
  rewrite insertRow_unfold. apply insert_cells_NoDup. now apply Dr.
Qed.

Lemma substitute_ids symbol row r x :
  NoDup (cell_ids r) ->
  In x (cell_ids (substitute symbol row r)) ->
  (In x (cell_ids r) /\ x <> sym_id symbol) \/ In x (cell_ids row).
Proof.
  intros D. destruct (substitute_shape symbol row r)
    as [[F ->]|(item & rest & _ & _ & _ & Ii & Dr & ->)].
  - intros I. left. split; trivial. apply find_None in F. intros ->. now apply F.
  - rewrite insertRow_unfold. intros I. apply insert_cells_ids in I.
    destruct I as [I|I]; [left | now right].
    unfold cell_ids in I. cbn [cells] in I. split; [now apply Ii|].
    intros ->. now apply (proj2 (Dr D)).
Qed.

End PivotFacts.

Import PivotFacts Solver.

(** * Facts about the solver *)

Section Keeps.

(** A relation between the state before and the state after that every
    step of a call maintains; the call ends, by returning or by throwing. *)
Variable R : State -> State -> Prop.
Hypothesis R_refl : forall s, R s s.
Hypothesis R_trans : forall s1 s2 s3, R s1 s2 -> R s2 s3 -> R s1 s3.

Lemma keeps_ret {A} (a : A) : keeps R (ret a).
Proof. intros s. apply R_refl. Qed.

Lemma keeps_throw {A} msg : keeps R (@throw A msg).
Proof. intros s. apply R_refl. Qed.

Lemma keeps_throwTypeError {A} : keeps R (@throwTypeError A).
Proof. intros s. apply R_refl. Qed.

Lemma keeps_gets {A} (f : State -> A) : keeps R (gets f).
Proof. intros s. apply R_refl. Qed.

Lemma keeps_defined {A} (o : option A) : keeps R (defined o).
Proof. destruct o; [apply keeps_ret | apply keeps_throwTypeError]. Qed.

Lemma keeps_modify f : (forall s, R s (f s)) -> keeps R (modify f).
Proof. intros Hf s. apply Hf. Qed.

Lemma keeps_bind {A B} (c : M A) (k : A -> M B) :
  keeps R c -> (forall a, keeps R (k a)) -> keeps R (bind c k).
Proof.
  intros Hc Hk s. unfold bind. specialize (Hc s).
  destruct (c s) as [a s1|e s1|]; trivial.
  specialize (Hk a s1). destruct (k a s1); eauto.
Qed.

End Keeps.

Create HintDb keeps discriminated.

(** One step of a proof that a composite call keeps the relation: split a
    [bind], or decide a test of the source. *)
Ltac keeps_split bind_lemma :=
  repeat first
    [ solve [eauto 3 with keeps]
    | apply bind_lemma; [|intros ?]
    | match goal with
      | |- keeps _ (if ?b then _ else _) => destruct b
      | |- keeps _ (match ?o with Some _ => _ | None => _ end) => destruct o
      | |- keeps _ (match ?o with TheObjective => _ | TheArtificial => _ end) => destruct o
      end ].

Section KeepsCnMap.

Let R (s s' : State) : Prop := _cnMap s' = _cnMap s.

Lemma cn_refl s : R s s.
Proof. reflexivity. Qed.

Lemma cn_trans s1 s2 s3 : R s1 s2 -> R s2 s3 -> R s1 s3.
Proof. unfold R. congruence. Qed.

Lemma cn_bind {A B} (c : M A) (k : A -> M B) :
  keeps R c -> (forall a, keeps R (k a)) -> keeps R (bind c k).
Proof. apply keeps_bind, cn_trans. Qed.

Lemma cn_ret {A} (a : A) : keeps R (ret a).
Proof. apply keeps_ret, cn_refl. Qed.

Lemma cn_throw {A} msg : keeps R (@throw A msg).
Proof. apply keeps_throw, cn_refl. Qed.

Lemma cn_gets {A} (f : State -> A) : keeps R (gets f).
Proof. apply keeps_gets, cn_refl. Qed.

Lemma cn_defined {A} (o : option A) : keeps R (defined o).
Proof. apply keeps_defined, cn_refl. Qed.

Hint Resolve cn_ret cn_throw cn_gets cn_defined : keeps.

Lemma rowMap_erase_cnMap key : keeps R (rowMap_erase key).
Proof. intros s. unfold rowMap_erase. now destruct (erase key (_rowMap s)). Qed.

Lemma rowMap_insert_cnMap key row : keeps R (rowMap_insert key row).
Proof. now apply keeps_modify. Qed.

Lemma substitute_cnMap symbol row : keeps R (_substitute symbol row).
Proof.
  intros s. unfold _substitute, modify.
  destruct (substitute_rows _ _ _ _). cbn. now destruct (_artificial s).
Qed.

Hint Resolve rowMap_erase_cnMap rowMap_insert_cnMap substitute_cnMap : keeps.

Lemma pivot_cnMap leaving entering row : keeps R (pivot leaving entering row).
Proof. unfold pivot. keeps_split @cn_bind. Qed.

Hint Resolve pivot_cnMap : keeps.

Lemma optimize_loop_cnMap n objective : keeps R (optimize_loop n objective).
Proof.
  induction n as [|n IH]; cbn [optimize_loop]; unfold deref; keeps_split @cn_bind.
Qed.

Hint Resolve optimize_loop_cnMap : keeps.

Lemma optimize_cnMap objective : keeps R (_optimize objective).
Proof. unfold _optimize. keeps_split @cn_bind. Qed.

Lemma removeMarkerEffects_cnMap marker strength :
  keeps R (_removeMarkerEffects marker strength).
Proof.
  unfold _removeMarkerEffects. apply keeps_modify. intros s.
  now destruct (find marker (_rowMap s)).
Qed.

Hint Resolve optimize_cnMap removeMarkerEffects_cnMap : keeps.

Lemma removeConstraintEffects_cnMap cn tag : keeps R (_removeConstraintEffects cn tag).
Proof. unfold _removeConstraintEffects. keeps_split @cn_bind. Qed.

Hint Resolve removeConstraintEffects_cnMap : keeps.

(** [removeConstraint] takes the constraint out of [_cnMap] first; nothing
    it does afterwards touches [_cnMap]. *)
Lemma removeConstraint_cnMap constraint s :
  match final (removeConstraint constraint s) with
  | Some s' => _cnMap s' = snd (erase constraint (_cnMap s))
  | None => False
  end.
Proof.
  unfold removeConstraint, bind at 1.
  destruct (erase constraint (_cnMap s)) as [[item|] cns] eqn:E; cbn [snd].
  - match goal with |- context [final (?c ?s0)] =>
      assert (K : keeps R c); [|specialize (K s0); destruct (c s0); cbn; auto] end.
    keeps_split @cn_bind.
  - reflexivity.
Qed.

End KeepsCnMap.

Section Avoids.

(** A call that never throws the error [msg]. *)
Variable msg : string.

Lemma avoids_ret {A} (a : A) : avoids msg (ret a).
Proof. intros s s'. discriminate. Qed.

Lemma avoids_gets {A} (f : State -> A) : avoids msg (gets f).
Proof. intros s s'. discriminate. Qed.

Lemma avoids_modify f : avoids msg (modify f).
Proof. intros s s'. discriminate. Qed.

Lemma avoids_throwTypeError {A} : avoids msg (@throwTypeError A).
Proof. intros s s'. discriminate. Qed.

Lemma avoids_defined {A} (o : option A) : avoids msg (defined o).
Proof. destruct o; [apply avoids_ret | apply avoids_throwTypeError]. Qed.

Lemma avoids_throw {A} other : other <> msg -> avoids msg (@throw A other).
Proof. intros N s s' E. injection E as E _. now apply N. Qed.

Lemma avoids_bind {A B} (c : M A) (k : A -> M B) :
  avoids msg c -> (forall a, avoids msg (k a)) -> avoids msg (bind c k).
Proof.
  intros Hc Hk s s'. unfold bind. specialize (Hc s).
  destruct (c s) as [a s1|e s1|]; [apply Hk | | discriminate].
  intros E. injection E as -> ->. now apply (Hc s').
Qed.

Lemma avoids_makeSymbol type : avoids msg (_makeSymbol type).
Proof. intros s s'. discriminate. Qed.

Lemma avoids_rowMap_erase key : avoids msg (rowMap_erase key).
Proof. intros s s'. unfold rowMap_erase. destruct (erase _ _). discriminate. Qed.

End Avoids.

Create HintDb avoids discriminated.
#[export] Hint Resolve avoids_ret avoids_gets avoids_modify avoids_throwTypeError
  avoids_defined avoids_makeSymbol avoids_rowMap_erase : avoids.

Ltac avoids_split :=
  repeat first
    [ solve [eauto 3 with avoids]
    | apply avoids_throw; discriminate
    | apply avoids_bind; [|intros ?]
    | match goal with
      | |- avoids _ (if ?b then _ else _) => destruct b
      | |- avoids _ (match ?o with Some _ => _ | None => _ end) => destruct o
      | |- avoids _ (match ?o with TheObjective => _ | TheArtificial => _ end) => destruct o
      | |- avoids _ (match ?o with Operator.Le => _ | Operator.Ge => _ | Operator.Eq => _ end) =>
          destruct o
      | |- avoids _ (let _ := _ in _) => cbv zeta
      end ].

Section AvoidsBadStrength.

Let msg := "bad required strength"%string.

Lemma getVarSymbol_avoids variable : avoids msg (_getVarSymbol variable).
Proof. unfold _getVarSymbol. avoids_split. Qed.

Hint Resolve getVarSymbol_avoids : avoids.

Lemma createRow_terms_avoids ts row : avoids msg (createRow_terms ts row).
Proof.
  revert row. induction ts as [|t ts IH]; intros row; cbn [createRow_terms];
    avoids_split.
Qed.

Hint Resolve createRow_terms_avoids : avoids.

Lemma createRow_avoids constraint : avoids msg (_createRow constraint).
Proof. unfold _createRow, objective_insertSymbol. avoids_split. Qed.

Lemma substitute_avoids symbol row : avoids msg (_substitute symbol row).
Proof. apply avoids_modify. Qed.

Lemma rowMap_insert_avoids key row : avoids msg (rowMap_insert key row).
Proof. apply avoids_modify. Qed.

Hint Resolve createRow_avoids substitute_avoids rowMap_insert_avoids : avoids.

Lemma pivot_avoids leaving entering row : avoids msg (pivot leaving entering row).
Proof. unfold pivot. avoids_split. Qed.

Hint Resolve pivot_avoids : avoids.

Lemma optimize_avoids objective : avoids msg (_optimize objective).
Proof.
  unfold _optimize. apply avoids_bind; [auto with avoids|]. intros n.
  induction n as [|n IH]; cbn [optimize_loop]; unfold deref; avoids_split.
Qed.

Hint Resolve optimize_avoids : avoids.

Lemma addWithArtificialVariable_avoids row : avoids msg (_addWithArtificialVariable row).
Proof. unfold _addWithArtificialVariable, deref. avoids_split. Qed.

Hint Resolve addWithArtificialVariable_avoids : avoids.

Lemma install_avoids constraint subject row tag :
  avoids msg (install constraint subject row tag).
Proof. unfold install. avoids_split. Qed.

Hint Resolve install_avoids : avoids.

Lemma addConstraint_avoids constraint : avoids msg (addConstraint constraint).
Proof. unfold addConstraint. avoids_split. Qed.

End AvoidsBadStrength.

(** The loop of [updateVariables] writes the values of the variables of
    [_varMap] and nothing else. *)
Lemma update_loop_spec vars s :
  exists values,
    update_loop vars s = Ok tt (set_var_values values s)
    /\ (forall id, ~ In id (ids vars) -> values id = var_values s id)
    /\ (NoDup (ids vars) ->
        forall v symbol, In (v, symbol) vars ->
          values (var_id v) =
          match find symbol (_rowMap s) with
          | Some basic => constant (snd basic)
          | None => 0
          end).
Proof.
  revert s. induction vars as [|[v symbol] rest IH]; intros s.
  - exists (var_values s). split; [now destruct s|]. split; [trivial|]. intros _ ? ? [].
  - cbn [update_loop]. unfold bind at 1, gets at 1.
    set (x := match find symbol (_rowMap s) with
              | Some basic => constant (snd basic)
              | None => 0
              end).
    assert (E : forall k : unit -> M unit,
               bind match find (snd (v, symbol)) (_rowMap s) with
                    | Some basic => modify (setValue (fst (v, symbol)) (constant (snd basic)))
                    | None => modify (setValue (fst (v, symbol)) 0)
                    end k s = k tt (setValue v x s)).
    { intros k. unfold x. cbn [fst snd]. now destruct (find symbol (_rowMap s)). }
    rewrite E. destruct (IH (setValue v x s)) as (values & Run & Out & In_).
    exists values. split; [exact Run|]. split.
    + intros id N. rewrite Out.
      * cbn. destruct (Z.eqb_spec id (var_id v)) as [->|]; trivial.
        exfalso. apply N. now left.
      * intros I. apply N. now right.
    + intros D v' symbol' [[= -> ->]|I].
      * inversion D as [|? ? Nv D']. rewrite Out by exact Nv.
        cbn. now rewrite Z.eqb_refl.
      * inversion D as [|? ? Nv D']. now apply In_.
Qed.

Lemma SymbolType_eqb_eq a b : SymbolType_eqb a b = true <-> a = b.
Proof. destruct a, b; simpl; split; congruence. Qed.

Lemma is_type_true t symbol : is_type t symbol = true <-> sym_type symbol = t.
Proof. apply SymbolType_eqb_eq. Qed.

Lemma is_type_false t symbol : is_type t symbol = false <-> sym_type symbol <> t.
Proof.
  unfold is_type. destruct (SymbolType_eqb (sym_type symbol) t) eqn:E.
  - apply SymbolType_eqb_eq in E. split; [discriminate | contradiction].
  - split; trivial. intros _ E'. apply SymbolType_eqb_eq in E'. congruence.
Qed.

(** The first loop of [_chooseSubject] returns the key of the first cell, in
    cell order, whose symbol is External. *)
Lemma first_external_spec cs :
  match first_external cs with
  | Some symbol =>
      exists i c,
        nth_error cs i = Some (symbol, c)
        /\ sym_type symbol = SymbolType.External
        /\ forall j item, (j < i)%nat -> nth_error cs j = Some item ->
                          sym_type (fst item) <> SymbolType.External
  | None => forall item, In item cs -> sym_type (fst item) <> SymbolType.External
  end.
Proof.
  induction cs as [|[symbol c] rest IH]; cbn [first_external fst].
  - intros item [].
  - destruct (is_type SymbolType.External symbol) eqn:E.
    + exists O, c. split; [reflexivity|]. split; [now apply is_type_true|]. intros; lia.
    + apply is_type_false in E. destruct (first_external rest) as [found|].
      * destruct IH as (i & c' & Hn & Ht & Hb). exists (S i), c'.
        split; [exact Hn|]. split; [exact Ht|].
        intros [|j] item Hj; cbn; [now intros [= <-]|]. apply Hb. lia.
      * intros item [<-|I]; [exact E | now apply IH].
Qed.

Lemma createRow_marker_type constraint s row tag s1 :
  _createRow constraint s = Ok (row, tag) s1 ->
  is_type SymbolType.Invalid (marker tag) = false.
Proof.
  unfold _createRow, bind at 1.
  destruct (createRow_terms _ _ s) as [row0 s0| |]; try discriminate.
  unfold bind at 1.
  destruct (op constraint);
    destruct (strength constraint <? Strength.required); cbn;
    intros [= _ <- _]; reflexivity.
Qed.

Lemma bind_Ok {A B} (c : M A) (k : A -> M B) s a s1 :
  c s = Ok a s1 -> bind c k s = k a s1.
Proof. intros E. unfold bind. now rewrite E. Qed.

(** Runs the first call of a sequence on a state that has no unknown in the
    way, and goes on with the rest. *)
Ltac run_first :=
  lazymatch goal with
  | |- bind ?c ?k ?s = _ =>
      let r := eval vm_compute in (c s) in
      lazymatch r with
      | Ok ?a ?s1 =>
          rewrite (bind_Ok c k s a s1) by (vm_compute; reflexivity); cbv beta
      end
  end.

Lemma Expr_new_variable v : Expr.new [ArgVariable v] = mkExpression [(v, 1)] 0.
Proof.
  unfold Expr.new, Expr.parseArgs, Expr.add_term, setDefault, set_second. cbn.
  now rewrite Z.eqb_refl.
Qed.

Lemma dualOptimize_nothing_infeasible fuel s :
  _infeasibleRows s = [] -> _dualOptimize fuel s = Ok tt s.
Proof. intros E. destruct fuel; cbn [_dualOptimize]; now rewrite E. Qed.

Ltac run_gets :=
  lazymatch goal with
  | |- bind (gets ?f) ?k ?s = _ =>
      rewrite (bind_Ok (gets f) k s (f s) s eq_refl); cbv beta
  end.

Ltac run_modify :=
  lazymatch goal with
  | |- bind (modify ?f) ?k ?s = _ =>
      rewrite (bind_Ok (modify f) k s tt (f s) eq_refl); cbv beta
  end.

Lemma find_singleton {K V} `{HasId K} (key : K) (value : V) :
  find key [(key, value)] = Some (key, value).
Proof. unfold find, index_of. cbn [fst]. now rewrite Z.eqb_refl. Qed.

Lemma addEditVariable_new_Solver cnId values v :
  addEditVariable v Strength.strong (new_Solver cnId values)
  = Ok tt (single_edit_state v cnId values 0 (-0)).
Proof.
  unfold addEditVariable, single_edit_state, edit_constraint. rewrite Expr_new_variable.
  run_first.
  change (Strength.clip Strength.strong =? Strength.required) with false. cbv iota.
  run_gets. run_modify. cbn [CnId new_Solver]. generalize (cnId + 1)%Z. intros nextCn.
  run_first. run_first.
  run_gets. cbn [_cnMap]. rewrite find_singleton.
  run_first. reflexivity.
Qed.

Lemma suggest_rows_external_row marker delta key row infeasible :
  is_type SymbolType.External key = true ->
  suggest_rows marker delta [(key, row)] infeasible =
  ([(key, if neqb (coefficientFor marker row) 0
          then add (delta * coefficientFor marker row) row else row)],
   infeasible).
Proof.
  intros E. cbn [suggest_rows fst snd]. rewrite E. cbn [negb].
  rewrite andb_false_r. now destruct (neqb _ _).
Qed.

Lemma suggestValue_single_edit fuel cnId values v suggested k x :
  suggestValue fuel v x (single_edit_state v cnId values suggested k)
  = Ok tt (single_edit_state v cnId values x (k + (x - suggested) * 1)).
Proof.
  unfold suggestValue, single_edit_state.
  run_gets. cbn [_editMap]. rewrite find_singleton.
  cbn [snd info_constant tag constraint marker other edit_tag].
  run_modify. cbn [_editMap]. unfold set_second, index_of. cbn [fst].
  change (id_of v) with (var_id v). rewrite Z.eqb_refl. cbn [nth_error set_at fst].
  unfold set_editMap at 1.
  cbn [maxIterations _cnMap _rowMap _varMap _editMap _infeasibleRows _objective
       _artificial _idTick CnId var_values].
  generalize (cnId + 1)%Z. intros nextCn. generalize (edit_constraint v cnId). intros cn.
  run_first. run_first.
  run_modify. cbn [_rowMap _infeasibleRows].
  rewrite suggest_rows_external_row by reflexivity.
  change (coefficientFor _ _) with 1. change (neqb 1 0) with true. cbv iota.
  unfold add. cbn [cells constant].
  apply dualOptimize_nothing_infeasible. reflexivity.
Qed.

Lemma updateVariables_single_edit cnId values v suggested k :
  exists s,
    updateVariables (single_edit_state v cnId values suggested k) = Ok tt s
    /\ value v s = k.
Proof.
  eexists. split.
  - unfold updateVariables, single_edit_state. run_gets. cbn [_varMap update_loop].
    run_first. cbv iota. generalize (cnId + 1)%Z. intros nextCn.
    generalize (edit_constraint v cnId). intros cn.
    unfold bind, modify, ret. reflexivity.
  - unfold value, setValue. cbn [var_values set_var_values]. now rewrite Z.eqb_refl.
Qed.

Module DualFacts.

Lemma distinct_NoDup l : distinct l = true <-> NoDup l.
Proof.
  induction l as [|x rest IH]; cbn [distinct].
  - split; [constructor | reflexivity].
  - rewrite andb_true_iff, negb_true_iff, IH. split.
    + intros [N D]. constructor; trivial. intros I.
      assert (E : existsb (Z.eqb x) rest = true)
        by (apply existsb_exists; exists x; split; [exact I | apply Z.eqb_refl]).
      congruence.
    + intros D. inversion D as [|? ? N D']. split; trivial.
      destruct (existsb (Z.eqb x) rest) eqn:E; trivial.
      apply existsb_exists in E. destruct E as (y & I & E).
      apply Z.eqb_eq in E. subst y. contradiction.
Qed.

Lemma not_existsb_In x l : negb (existsb (Z.eqb x) l) = true <-> ~ In x l.
Proof.
  rewrite negb_true_iff. split.
  - intros E I. assert (existsb (Z.eqb x) l = true); [|congruence].
    apply existsb_exists. exists x. split; [exact I | apply Z.eqb_refl].
  - intros N. destruct (existsb (Z.eqb x) l) eqn:E; trivial.
    apply existsb_exists in E. destruct E as (y & I & E).
    apply Z.eqb_eq in E. subst y. contradiction.
Qed.

Lemma tableau_wf_spec s : tableau_wf s = true <-> wf (_rowMap s).
Proof.
  unfold tableau_wf. rewrite !andb_true_iff, distinct_NoDup, !forallb_forall. split.
  - intros [[K C] P]. split; trivial.
    + intros item I. apply distinct_NoDup. now apply C.
    + intros item x I Ix. apply not_existsb_In.
      specialize (P item I). rewrite forallb_forall in P. now apply P.
  - intros [K C P]. repeat split; trivial.
    + intros item I. apply distinct_NoDup. now apply C.
    + intros item I. apply forallb_forall. intros x Ix. apply not_existsb_In.
      now apply P.
Qed.

Lemma feasible_spec s :
  feasible s = true <-> forall item, In item (_rowMap s) -> ~ restricted_negative item.
Proof.
  unfold feasible, restricted_negative. rewrite forallb_forall. split.
  - intros F item I [E N]. specialize (F item I). rewrite E, N in F. discriminate.
  - intros F item I. specialize (F item I).
    destruct (is_type _ _); trivial. destruct (_ <? _); trivial.
    exfalso. now apply F.
Qed.

(** The symbol [_getDualEnteringSymbol] returns is the invalid one or the
    key of a cell with a positive coefficient. *)
Lemma dual_entering_spec objective row :
  let entering := _getDualEnteringSymbol objective row in
  entering = INVALID_SYMBOL
  \/ exists c, In (entering, c) (cells row) /\ (0 <? c) = true.
Proof.
  unfold _getDualEnteringSymbol.
  match goal with |- context [fold_left ?f0 _ _] => set (f := f0) end.
  assert (G : forall cs acc,
             snd (fold_left f cs acc) = snd acc
             \/ exists c, In (snd (fold_left f cs acc), c) cs /\ (0 <? c) = true).
  { induction cs as [|[symbol c] cs IH]; intros acc; cbn [fold_left]; [now left|].
    destruct (IH (f acc (symbol, c))) as [E|(c' & I & P)].
    - rewrite E. unfold f. destruct acc as [ratio entering]. cbn [fst snd].
      destruct (0 <? c) eqn:Pc; cbn [andb]; [|now left].
      destruct (negb _); [|now left].
      destruct (_ <? ratio); [|now left].
      right. exists c. split; [now left | exact Pc].
    - right. exists c'. split; [now right | exact P]. }
  destruct (G (cells row) (Math.MAX_VALUE, INVALID_SYMBOL)) as [E|E]; [now left | now right].
Qed.

(** The loop of [_substitute]: the keys stay, every row takes the
    substitution, and the restricted rows that are negative afterwards are
    on the list. *)
Lemma substitute_rows_spec symbol row rows infeasible :
  let '(rows', infeasible') := substitute_rows symbol row rows infeasible in
  rows' = map (fun item => (fst item, substitute symbol row (snd item))) rows
  /\ tracked rows' infeasible'
  /\ (forall x, In x infeasible -> In x infeasible').
Proof.
  revert infeasible. induction rows as [|[key r] rest IH]; intros infeasible.
  - cbn. split; trivial. split; [intros ? []|trivial].
  - cbn [substitute_rows fst snd map].
    set (second := substitute symbol row r).
    match goal with |- context [substitute_rows symbol row rest ?l] =>
      set (infeasible1 := l) end.
    specialize (IH infeasible1).
    destruct (substitute_rows symbol row rest infeasible1) as [rest' infeasible'].
    destruct IH as (E & T & Sub). split; [now rewrite E|].
    assert (Sub1 : forall x, In x infeasible -> In x infeasible1).
    { intros x I. unfold infeasible1. destruct (_ && _); [now right | exact I]. }
    split; [|auto].
    intros item [<-|I] RN; [|now apply T].
    destruct RN as [Ek Nk]. cbn [fst snd] in *.
    apply in_map. apply Sub. unfold infeasible1. rewrite Nk, Ek. now left.
Qed.


Lemma ids_substituted symbol row (rows : IndexedMap Symbol Row) :
  ids (map (fun item => (fst item, substitute symbol row (snd item))) rows) = ids rows.
Proof. unfold ids. rewrite map_map. reflexivity. Qed.

(** A pivot of the dual simplex: the row of [leaving], whose constant is
    negative, is solved for [entering], a cell of it with a positive
    coefficient, and stored under [entering]. *)
Lemma dual_pivot_keeps rows infeasible leaving item entering c :
  wf rows ->
  find leaving rows = Some item ->
  (constant (snd item) <? 0) = true ->
  In (entering, c) (cells (snd item)) -> (0 <? c) = true ->
  exists row',
    solveForEx leaving entering (snd item) = Some row'
    /\ let '(rows1, infeasible1) :=
          substitute_rows entering row' (snd (erase leaving rows)) infeasible in
        wf (insert entering row' rows1)
        /\ tracked (insert entering row' rows1) infeasible1
        /\ (forall x, In x infeasible -> In x infeasible1).
Proof.
  intros [K C P] F Neg I Pos.
  destruct (find_In _ _ _ F) as [Ii Ei]. change (sym_id (fst item) = sym_id leaving) in Ei.
  assert (Ie : In (sym_id entering) (cell_ids (snd item))).
  { apply (In_ids (H:=Symbol_HasId) (cells (snd item)) (entering, c) I). }
  assert (Nle : sym_id leaving <> sym_id entering).
  { intros E. apply (P item (sym_id entering) Ii); trivial.
    rewrite <- E, <- Ei. now apply (In_ids (H:=Symbol_HasId) rows item). }
  assert (Nb : ~ In (sym_id entering) (ids rows)).
  { intros B. now apply (P item (sym_id entering) Ii). }
  destruct (solveForEx_spec leaving entering c (snd item) (C item Ii) I Nle)
    as (row' & S & Cst & D' & Ids).
  exists row'. split; [exact S|].
  destruct (erase_NoDup (H:=Symbol_HasId) leaving rows K) as (K1 & Nl & Sub1 & _).
  set (rows0 := snd (erase leaving rows)) in *.
  pose proof (substitute_rows_spec entering row' rows0 infeasible) as Sp.
  destruct (substitute_rows entering row' rows0 infeasible) as [rows1 infeasible1].
  destruct Sp as (E1 & T1 & SubI).
  assert (Ids1 : ids rows1 = ids rows0) by (rewrite E1; apply ids_substituted).
  assert (Nb1 : ~ In (id_of entering) (ids rows1)).
  { rewrite Ids1. intros B. apply ids_In in B. destruct B as (it & Iit & Eit).
    apply Nb. change (sym_id entering) with (id_of entering). rewrite <- Eit.
    apply In_ids. now apply Sub1. }
  rewrite (insert_absent entering row' rows1 Nb1).
  assert (Prow' : forall x, In x (ids rows1) \/ x = sym_id entering ->
                            ~ In x (cell_ids row')).
  { intros x Hx Ix. apply Ids in Ix. destruct Ix as [[Ix| ->] Nx].
    - destruct Hx as [Hx| ->]; [|now apply Nx].
      rewrite Ids1 in Hx. apply ids_In in Hx. destruct Hx as (it & Iit & <-).
      apply (P item (id_of (fst it)) Ii); trivial. apply In_ids. now apply Sub1.
    - destruct Hx as [Hx|Hx]; [|now apply Nle].
      rewrite Ids1 in Hx. now apply Nl. }
  assert (Back : forall it, In it rows1 ->
                   exists r, In (fst it, r) rows
                             /\ snd it = substitute entering row' r).
  { intros it Iit. rewrite E1 in Iit. apply in_map_iff in Iit.
    destruct Iit as ([k r] & <- & Ir). exists r. split; [now apply Sub1 | reflexivity]. }
  split; [|split; [|exact SubI]].
  - split.
    + rewrite ids_app. cbn [ids map fst].
      eapply Permutation_NoDup; [apply Permutation_cons_append|].
      constructor; [exact Nb1 | now rewrite Ids1].
    + intros it Iit. apply in_app_iff in Iit. destruct Iit as [Iit|[<-|[]]]; [|exact D'].
      destruct (Back it Iit) as (r & Ir & ->). apply substitute_NoDup.
      apply (C _ Ir).
    + intros it x Iit Ix. rewrite ids_app, in_app_iff in Ix. cbn in Ix.
      assert (Hx : In x (ids rows1) \/ x = sym_id entering)
        by (destruct Ix as [?|[<-|[]]]; auto).
      apply in_app_iff in Iit. destruct Iit as [Iit|[<-|[]]]; [|now apply Prow'].
      destruct (Back it Iit) as (r & Ir & ->). intros Ic.
      apply substitute_ids in Ic; [|apply (C _ Ir)].
      destruct Ic as [[Ic Nx]|Ic]; [|now apply (Prow' x Hx)].
      destruct Hx as [Hx|Hx]; [|now apply Nx].
      rewrite Ids1 in Hx. apply ids_In in Hx. destruct Hx as (it' & Iit' & <-).
      apply (P _ (id_of (fst it')) Ir); trivial. apply In_ids. now apply Sub1.
  - intros it Iit RN. apply in_app_iff in Iit. destruct Iit as [Iit|[<-|[]]].
    + now apply T1.
    + destruct RN as [_ Nr]. cbn [snd] in Nr. rewrite Cst in Nr.
      now rewrite (pivot_constant_nonneg _ _ Neg Pos) in Nr.
Qed.


Lemma substitute_run symbol row s :
  exists s',
    _substitute symbol row s = Ok tt s'
    /\ _rowMap s' = fst (substitute_rows symbol row (_rowMap s) (_infeasibleRows s))
    /\ _infeasibleRows s' = snd (substitute_rows symbol row (_rowMap s) (_infeasibleRows s)).
Proof.
  unfold _substitute, modify.
  destruct (substitute_rows symbol row (_rowMap s) (_infeasibleRows s)) as [rows inf].
  cbn [_artificial set_objective set_infeasibleRows set_rowMap].
  destruct (_artificial s); eexists; repeat split.
Qed.

(** [_dualOptimize], when it returns, leaves no restricted row negative. *)
Lemma dualOptimize_feasible fuel :
  forall s s',
    wf (_rowMap s) -> tracked (_rowMap s) (_infeasibleRows s) ->
    _dualOptimize fuel s = Ok tt s' ->
    wf (_rowMap s') /\ forall item, In item (_rowMap s') -> ~ restricted_negative item.
Proof.
  induction fuel as [|fuel IH]; intros s s' W T Run; cbn [_dualOptimize] in Run;
    destruct (_infeasibleRows s) as [|leaving rest] eqn:Einf;
    try discriminate;
    try (injection Run as <-; split; [exact W|]; intros item I RN;
         exact (T item I RN)).
  change (_rowMap (set_infeasibleRows rest s)) with (_rowMap s) in Run.
  change (_objective (set_infeasibleRows rest s)) with (_objective s) in Run.
  assert (Tr : forall item, find leaving (_rowMap s) = Some item ->
                 (constant (snd item) <? 0) = false ->
                 tracked (_rowMap s) rest).
  { intros item F Neg it I RN. destruct (T it I RN) as [E|Ir]; [|exact Ir].
    exfalso. destruct W as [K _ _].
    rewrite (In_find (H:=Symbol_HasId) leaving _ it K I (eq_sym E)) in F.
    injection F as <-. destruct RN as [_ RN]. congruence. }
  destruct (find leaving (_rowMap s)) as [item|] eqn:F.
  - destruct (constant (snd item) <? 0) eqn:Neg.
    + pose proof (dual_entering_spec (_objective s) (snd item)) as De. cbv zeta in De.
      set (entering := _getDualEnteringSymbol (_objective s) (snd item)) in *.
      destruct (is_type SymbolType.Invalid entering) eqn:Inv; [discriminate|].
      destruct De as [De|(c & Ic & Pc)]; [rewrite De in Inv; discriminate|].
      destruct (dual_pivot_keeps _ rest leaving item entering c W F Neg Ic Pc)
        as (row' & S & Keep).
      unfold bind at 1, rowMap_erase at 1 in Run.
      change (_rowMap (set_infeasibleRows rest s)) with (_rowMap s) in Run.
      destruct (erase leaving (_rowMap s)) as [erased rows0] eqn:Er.
      cbn [snd] in Keep.
      unfold bind at 1, pivot at 1, bind at 1 in Run. rewrite S in Run.
      cbn [defined ret] in Run. unfold bind at 1 in Run.
      destruct (substitute_run entering row' (set_rowMap rows0 (set_infeasibleRows rest s)))
        as (s1 & R1 & Rows1 & Inf1).
      rewrite R1 in Run. cbn [_rowMap _infeasibleRows set_rowMap set_infeasibleRows] in *.
      destruct (substitute_rows entering row' rows0 rest) as [rows1 infeasible1].
      cbn [fst snd] in *. destruct Keep as (W1 & T1 & _).
      unfold rowMap_insert at 1, modify at 1 in Run.
      apply (IH _ _) in Run; trivial; cbn [_rowMap _infeasibleRows set_rowMap];
        now rewrite ?Rows1, ?Inf1.
    + apply (IH _ _) in Run; trivial. cbn [_rowMap _infeasibleRows set_infeasibleRows].
      now apply (Tr item).
  - apply (IH _ _) in Run; trivial. cbn [_rowMap _infeasibleRows set_infeasibleRows].
    intros it I RN. destruct (T it I RN) as [E|Ir]; [|exact Ir].
    exfalso. apply find_None in F. apply F.
    change (id_of leaving) with (sym_id leaving). rewrite E.
    now apply (In_ids (H:=Symbol_HasId)).
Qed.


Lemma shape_ids rows : ids rows = map fst (shape rows).
Proof. unfold shape, ids. rewrite map_map. reflexivity. Qed.

Lemma wf_shape rows rows' : shape rows' = shape rows -> wf rows -> wf rows'.
Proof.
  intros E [K C P].
  assert (Back : forall item, In item rows' ->
                   exists it, In it rows /\ cell_ids (snd it) = cell_ids (snd item)).
  { intros item I.
    apply (in_map (fun item => (sym_id (fst item), cell_ids (snd item)))) in I.
    fold (shape rows') in I. rewrite E in I. apply in_map_iff in I.
    destruct I as (it & Eit & Iit). exists it. split; [exact Iit | congruence]. }
  split.
  - now rewrite shape_ids, E, <- shape_ids.
  - intros item I. destruct (Back item I) as (it & Iit & <-). now apply C.
  - intros item x I Ix. destruct (Back item I) as (it & Iit & <-).
    apply P; trivial. now rewrite shape_ids, <- E, <- shape_ids.
Qed.

Lemma constants_moved_tracked s rows' infeasible' :
  (forall item, In item (_rowMap s) -> ~ restricted_negative item) ->
  wf (_rowMap s) ->
  constants_moved (_rowMap s) rows' infeasible' ->
  wf rows' /\ tracked rows' infeasible'.
Proof.
  intros F W [Sh Mv]. split; [now apply (wf_shape (_rowMap s))|].
  intros item I RN. destruct (Mv item I) as [Old|New]; [|now apply New].
  now elim (F item Old).
Qed.

Lemma add_to_basic_moves key basic value s :
  find key (_rowMap s) = Some basic ->
  exists s',
    add_to_basic key basic value s = Ok tt s'
    /\ constants_moved (_rowMap s) (_rowMap s') (_infeasibleRows s').
Proof.
  intros F. destruct (find_Some _ _ _ F) as (l1 & l2 & E & Ek & N).
  unfold add_to_basic, modify. cbv zeta.
  set (row := add value (snd basic)).
  assert (Rows : shape (set_second key row (_rowMap s)) = shape (_rowMap s)
                 /\ forall item, In item (set_second key row (_rowMap s)) ->
                       In item (_rowMap s) \/ item = (fst basic, row)).
  { rewrite E, (set_second_middle key row l1 basic l2 Ek N). split.
    - unfold shape. rewrite !map_app. reflexivity.
    - intros item I. apply in_app_iff in I. rewrite in_app_iff. simpl.
      destruct I as [I|[<-|I]]; auto. }
  destruct Rows as [Sh Mv].
  destruct (constant row <? 0) eqn:Neg; eexists; (split; [reflexivity|]);
    cbn [_rowMap _infeasibleRows set_rowMap set_infeasibleRows];
    (split; [exact Sh|]);
    intros item I; (destruct (Mv item I) as [Old| ->]; [now left | right]).
  - intros _. cbn [map fst]. left. symmetry. exact Ek.
  - intros [_ RN]. cbn [snd] in RN. congruence.
Qed.

Lemma suggest_rows_moves marker delta rows infeasible :
  let '(rows', infeasible') := suggest_rows marker delta rows infeasible in
  constants_moved rows rows' infeasible'
  /\ (forall x, In x infeasible -> In x infeasible').
Proof.
  revert infeasible. induction rows as [|[key r] rest IH]; intros infeasible.
  - cbn. repeat split; trivial. intros ? [].
  - cbn [suggest_rows fst snd].
    destruct (neqb (coefficientFor marker r) 0) eqn:Nz.
    + set (row := add (delta * coefficientFor marker r) r).
      match goal with |- context [suggest_rows marker delta rest ?l] =>
        set (infeasible1 := l) end.
      specialize (IH infeasible1).
      destruct (suggest_rows marker delta rest infeasible1) as [rest' infeasible'].
      destruct IH as ([Sh Mv] & Sub).
      assert (Sub1 : forall x, In x infeasible -> In x infeasible1).
      { intros x I. unfold infeasible1. destruct (_ && _); [now right | exact I]. }
      split; [split|auto].
      * unfold shape in *. cbn [map fst snd]. now rewrite Sh.
      * intros item [<-|I].
        -- right. intros [Ek Nk]. cbn [fst snd] in *. apply in_map. apply Sub.
           unfold infeasible1. rewrite Nk, Ek. now left.
        -- destruct (Mv item I) as [Old|New]; [left; now right | now right].
    + specialize (IH infeasible).
      destruct (suggest_rows marker delta rest infeasible) as [rest' infeasible'].
      destruct IH as ([Sh Mv] & Sub). split; [split|auto].
      * unfold shape in *. cbn [map fst snd]. now rewrite Sh.
      * intros item [<-|I]; [left; now left|].
        destruct (Mv item I) as [Old|New]; [left; now right | now right].
Qed.

Lemma suggestValue_feasible fuel variable x s s' :
  tableau_wf s = true -> feasible s = true ->
  suggestValue fuel variable x s = Ok tt s' ->
  tableau_wf s' = true /\ feasible s' = true.
Proof.
  rewrite !tableau_wf_spec, !feasible_spec. intros W F.
  unfold suggestValue, bind at 1, gets at 1.
  destruct (find variable (_editMap s)) as [item|]; [|discriminate].
  unfold bind at 1, modify at 1.
  set (s1 := set_editMap _ s).
  change (forall item, In item (_rowMap s1) -> ~ restricted_negative item) in F.
  change (wf (_rowMap s1)) in W. clearbody s1.
  unfold bind at 1, gets at 1.
  destruct (find (marker (tag (snd item))) (_rowMap s1)) as [basic|] eqn:Fm.
  - destruct (add_to_basic_moves _ basic (- (x - info_constant (snd item))) s1 Fm)
      as (s2 & R2 & Mv).
    unfold bind at 1. rewrite R2. intros Run.
    destruct (constants_moved_tracked s1 _ _ F W Mv) as [W2 T2].
    exact (dualOptimize_feasible fuel s2 s' W2 T2 Run).
  - unfold bind at 1, gets at 1.
    destruct (find (other (tag (snd item))) (_rowMap s1)) as [basic|] eqn:Fo.
    + destruct (add_to_basic_moves _ basic (x - info_constant (snd item)) s1 Fo)
        as (s2 & R2 & Mv).
      unfold bind at 1. rewrite R2. intros Run.
      destruct (constants_moved_tracked s1 _ _ F W Mv) as [W2 T2].
      exact (dualOptimize_feasible fuel s2 s' W2 T2 Run).
    + unfold bind at 1, modify at 1.
      pose proof (suggest_rows_moves (marker (tag (snd item)))
                    (x - info_constant (snd item)) (_rowMap s1) (_infeasibleRows s1))
        as Sm.
      destruct (suggest_rows _ _ (_rowMap s1) (_infeasibleRows s1)) as [rows' inf'].
      destruct Sm as [Mv _]. intros Run.
      destruct (constants_moved_tracked s1 _ _ F W Mv) as [W2 T2].
      exact (dualOptimize_feasible fuel (set_infeasibleRows inf' (set_rowMap rows' s1))
               s' W2 T2 Run).
Qed.

End DualFacts.

Import DualFacts.

(** [updateVariables] leaves the tableau alone. *)
Lemma updateVariables_rowMap s s' :
  updateVariables s = Ok tt s' -> _rowMap s' = _rowMap s.
Proof.
  destruct (update_loop_spec (_varMap s) s) as (values & Run & _).
  unfold updateVariables, bind, gets. rewrite Run. now intros [= <-].
Qed.

(** * Laws of the maps, the rows and the solver *)

(** ** The indexed map *)

Section IndexedMapLaws.

Context {K V : Type} `{HasId K}.

(** [find] reads the first pair of the array whose key has the id. *)
Lemma find_cons key (item : K * V) rest :
  find key (item :: rest) =
  if (id_of (fst item) =? id_of key)%Z then Some item else find key rest.
Proof.
  unfold find. simpl. destruct (id_of (fst item) =? id_of key)%Z; [reflexivity|].
  now destruct (index_of key rest).
Qed.

Lemma find_app_other key (l1 l2 : IndexedMap K V) :
  ~ In (id_of key) (ids l1) -> find key (l1 ++ l2) = find key l2.
Proof.
  induction l1 as [|a l1 IH]; intros N; [reflexivity|].
  cbn [app]. rewrite find_cons.
  destruct (Z.eqb_spec (id_of (fst a)) (id_of key)) as [E|E].
  - exfalso. apply N. now left.
  - apply IH. intros I. apply N. now right.
Qed.

Lemma find_replace key (l1 : IndexedMap K V) a b l2 :
  id_of (fst a) <> id_of key -> id_of (fst b) <> id_of key ->
  find key (l1 ++ a :: l2) = find key (l1 ++ b :: l2).
Proof.
  intros Na Nb. induction l1 as [|c l1 IH]; cbn [app]; rewrite !find_cons.
  - apply Z.eqb_neq in Na, Nb. now rewrite Na, Nb.
  - now rewrite IH.
Qed.

Lemma find_app_absent key (m : IndexedMap K V) item :
  id_of (fst item) <> id_of key -> find key (m ++ [item]) = find key m.
Proof.
  intros N. induction m as [|c m IH]; cbn [app]; rewrite !find_cons.
  - apply Z.eqb_neq in N. now rewrite N.
  - now rewrite IH.
Qed.

Lemma contains_find key (m : IndexedMap K V) :
  contains key m = match find key m with Some _ => true | None => false end.
Proof.
  unfold contains, find. destruct (index_of key m) as [i|] eqn:E; [|reflexivity].
  destruct (index_of_split _ _ _ E) as (l1 & item & l2 & -> & <- & _).
  now rewrite nth_error_middle.
Qed.

Lemma insert_find_key key value (m : IndexedMap K V) :
  find key (insert key value m) = Some (key, value).
Proof.
  destruct (find key m) as [item|] eqn:F.
  - destruct (find_Some _ _ _ F) as (l1 & l2 & -> & E & N).
    rewrite (insert_middle key value l1 item l2 E N). now apply find_middle.
  - apply find_None in F. rewrite (insert_absent key value m F).
    rewrite find_app_other by exact F. rewrite find_cons. cbn [fst].
    now rewrite Z.eqb_refl.
Qed.

Lemma insert_find_other key value (m : IndexedMap K V) other :
  id_of other <> id_of key -> find other (insert key value m) = find other m.
Proof.
  intros O. destruct (find key m) as [item|] eqn:F.
  - destruct (find_Some _ _ _ F) as (l1 & l2 & -> & E & N).
    rewrite (insert_middle key value l1 item l2 E N).
    apply find_replace; cbn [fst]; congruence.
  - apply find_None in F. rewrite (insert_absent key value m F).
    apply find_app_absent. cbn [fst]. congruence.
Qed.

Lemma erase_find_key key (m : IndexedMap K V) :
  NoDup (ids m) -> find key (snd (erase key m)) = None.
Proof. intros D. apply find_None. now apply erase_NoDup. Qed.

Lemma erase_find_other key (m : IndexedMap K V) other :
  NoDup (ids m) -> id_of other <> id_of key ->
  find other (snd (erase key m)) = find other m.
Proof.
  intros D O. destruct (erase_NoDup key m D) as (D' & N' & Sub & Keep).
  destruct (find other m) as [p|] eqn:F.
  - destruct (find_In _ _ _ F) as [I E]. apply In_find; trivial.
    apply Keep; congruence.
  - apply find_None. apply find_None in F. intros I. apply F.
    destruct (ids_In _ _ I) as (p & Ip & <-). apply In_ids. now apply Sub.
Qed.

Lemma erase_fst key (m : IndexedMap K V) : fst (erase key m) = find key m.
Proof.
  destruct (find key m) as [item|] eqn:F.
  - destruct (find_Some _ _ _ F) as (l1 & l2 & -> & E & N).
    destruct (erase_found key l1 item l2 E N) as (rest & -> & _). reflexivity.
  - apply find_None in F. now rewrite (erase_absent key m F).
Qed.

(** Insert and look up: [insert(key, value)] makes [find(key)] return the
    new pair, leaves the pair of every other key alone, and grows the map by
    one pair exactly when the key was not in it. *)
Theorem insert_then_find (key : K) (value : V) (m : IndexedMap K V) :
  find key (insert key value m) = Some (key, value)
  /\ (forall other, id_of other <> id_of key ->
                    find other (insert key value m) = find other m)
  /\ size (insert key value m) = (if contains key m then size m else S (size m)).
Proof.
  split; [apply insert_find_key|]. split; [intros other; apply insert_find_other|].
  rewrite contains_find. destruct (find key m) as [item|] eqn:F.
  - destruct (find_Some _ _ _ F) as (l1 & l2 & -> & E & N).
    rewrite (insert_middle key value l1 item l2 E N).
    unfold size. rewrite !length_app. reflexivity.
  - apply find_None in F. rewrite (insert_absent key value m F).
    unfold size. rewrite length_app. cbn. lia.
Qed.

(** Erase and look up, in a map whose keys have distinct ids: [erase(key)]
    returns the pair [find(key)] returned, after it [find(key)] returns
    nothing, and the pair of every other key is found as before. *)
Theorem erase_then_find (key : K) (m : IndexedMap K V) :
  NoDup (ids m) ->
  fst (erase key m) = find key m
  /\ find key (snd (erase key m)) = None
  /\ (forall other, id_of other <> id_of key ->
                    find other (snd (erase key m)) = find other m)
  /\ size (snd (erase key m)) = (if contains key m then pred (size m) else size m).
Proof.
  intros D. split; [apply erase_fst|]. split; [now apply erase_find_key|].
  split; [intros other; now apply erase_find_other|].
  rewrite contains_find. destruct (find key m) as [item|] eqn:F.
  - destruct (find_Some _ _ _ F) as (l1 & l2 & -> & E & N).
    destruct (last_or_nil l2) as [->|(l2' & z & ->)].
    + rewrite (erase_last key l1 item E N). unfold size. rewrite length_app.
      cbn. lia.
    + rewrite (erase_middle key l1 item l2' z E N). unfold size. cbn [snd].
      rewrite !length_app. cbn. rewrite !length_app. cbn. lia.
  - apply find_None in F. now rewrite (erase_absent key m F).
Qed.

(** [erase] fills the place of the erased pair with the last pair of the
    array: the order of the other pairs stays, but for the last one. *)
Theorem erase_moves_last_pair (key : K) (l1 : IndexedMap K V) (item : K * V)
    (l2 : IndexedMap K V) :
  id_of (fst item) = id_of key -> ~ In (id_of key) (ids l1) ->
  erase key (l1 ++ item :: l2) =
  (Some item,
   match rev l2 with
   | [] => l1
   | z :: _ => l1 ++ z :: removelast l2
   end).
Proof.
  intros E N. destruct (last_or_nil l2) as [->|(l2' & z & ->)].
  - now apply erase_last.
  - rewrite rev_app_distr. cbn [rev app]. rewrite removelast_last.
    now apply erase_middle.
Qed.

Lemma append_NoDup key value (m : IndexedMap K V) :
  NoDup (ids m) -> ~ In (id_of key) (ids m) -> NoDup (ids (m ++ [(key, value)])).
Proof.
  intros D N. rewrite ids_app. apply NoDup_app; trivial.
  - repeat constructor. intros [].
  - intros x I [<-|[]]. now apply N.
Qed.

Lemma ids_replace (l1 l2 : IndexedMap K V) a b :
  id_of (fst a) = id_of (fst b) -> ids (l1 ++ a :: l2) = ids (l1 ++ b :: l2).
Proof. intros E. rewrite !ids_app. cbn. now rewrite E. Qed.

Lemma insert_NoDup key value (m : IndexedMap K V) :
  NoDup (ids m) -> NoDup (ids (insert key value m)).
Proof.
  intros D. destruct (find key m) as [item|] eqn:F.
  - destruct (find_Some _ _ _ F) as (l1 & l2 & -> & E & N).
    rewrite (insert_middle key value l1 item l2 E N).
    now rewrite (ids_replace l1 l2 (key, value) item).
  - apply find_None in F. rewrite (insert_absent key value m F). now apply append_NoDup.
Qed.

Lemma setDefault_NoDup key factory (m : IndexedMap K V) :
  NoDup (ids m) -> NoDup (ids (snd (setDefault key factory m))).
Proof.
  intros D. unfold setDefault. destruct (find key m) as [item|] eqn:F; cbn [snd]; trivial.
  apply find_None in F. now apply append_NoDup.
Qed.

Lemma set_second_ids key value (m : IndexedMap K V) : ids (set_second key value m) = ids m.
Proof.
  destruct (find key m) as [item|] eqn:F.
  - destruct (find_Some _ _ _ F) as (l1 & l2 & -> & E & N).
    rewrite (set_second_middle key value l1 item l2 E N).
    now apply ids_replace.
  - unfold find in F. unfold set_second.
    destruct (index_of key m) as [i|] eqn:I; trivial. now rewrite F.
Qed.

(** The methods that change a map keep the ids of its keys distinct. *)
Theorem map_methods_keep_ids_distinct (m : IndexedMap K V) (key : K) (value : V)
    (factory : unit -> V) :
  NoDup (ids m) ->
  NoDup (ids (insert key value m))
  /\ NoDup (ids (snd (erase key m)))
  /\ NoDup (ids (snd (setDefault key factory m)))
  /\ NoDup (ids (set_second key value m)).
Proof.
  intros D. split; [now apply insert_NoDup|]. split; [now apply erase_NoDup|].
  split; [now apply setDefault_NoDup | now rewrite set_second_ids].
Qed.

Lemma setDefault_find_key key factory (m : IndexedMap K V) :
  find key (snd (setDefault key factory m)) = Some (fst (setDefault key factory m)).
Proof.
  unfold setDefault. destruct (find key m) as [item|] eqn:F; cbn [fst snd]; trivial.
  apply find_None in F. rewrite find_app_other by exact F.
  rewrite find_cons. cbn [fst]. now rewrite Z.eqb_refl.
Qed.

Lemma setDefault_find_other key factory (m : IndexedMap K V) other :
  id_of other <> id_of key ->
  find other (snd (setDefault key factory m)) = find other m.
Proof.
  intros O. unfold setDefault. destruct (find key m) as [item|] eqn:F; cbn [snd]; trivial.
  apply find_app_absent. cbn [fst]. congruence.
Qed.

Lemma set_second_find_key key value (m : IndexedMap K V) item :
  find key m = Some item -> find key (set_second key value m) = Some (fst item, value).
Proof.
  intros F. destruct (find_Some _ _ _ F) as (l1 & l2 & -> & E & N).
  rewrite (set_second_middle key value l1 item l2 E N). now apply find_middle.
Qed.

Lemma set_second_find_other key value (m : IndexedMap K V) other :
  id_of other <> id_of key -> find other (set_second key value m) = find other m.
Proof.
  intros O. destruct (find key m) as [item|] eqn:F.
  - destruct (find_Some _ _ _ F) as (l1 & l2 & -> & E & N).
    rewrite (set_second_middle key value l1 item l2 E N).
    apply find_replace; cbn [fst]; congruence.
  - unfold find in F. unfold set_second.
    destruct (index_of key m) as [i|] eqn:I; trivial. now rewrite F.
Qed.

End IndexedMapLaws.

(** Distinct ids of a concrete map, by evaluation. *)
Ltac distinct_ids :=
  vm_compute; repeat (apply NoDup_cons; [cbn; intuition discriminate|]); apply NoDup_nil.

Lemma erase_then_find_witness :
  find (mkSymbol SymbolType.Slack 1) (snd (erase (mkSymbol SymbolType.Slack 1) three_cells))
  = None
  /\ size (snd (erase (mkSymbol SymbolType.Slack 1) three_cells)) = 2%nat.
Proof.
  destruct (erase_then_find (mkSymbol SymbolType.Slack 1) three_cells) as (_ & A & _ & B);
    [distinct_ids|].
  split; [exact A | exact B].
Defined.

Lemma erase_moves_last_pair_witness :
  erase (mkSymbol SymbolType.External 0) three_cells =
  (Some (mkSymbol SymbolType.External 0, 1),
   [(mkSymbol SymbolType.Error 2, 3); (mkSymbol SymbolType.Slack 1, 2)]).
Proof.
  apply (erase_moves_last_pair (mkSymbol SymbolType.External 0) []
           (mkSymbol SymbolType.External 0, 1)
           [(mkSymbol SymbolType.Slack 1, 2); (mkSymbol SymbolType.Error 2, 3)]).
  - reflexivity.
  - intros [].
Defined.

Lemma map_methods_keep_ids_distinct_witness :
  NoDup (ids (insert (mkSymbol SymbolType.Dummy 3) 4 three_cells))
  /\ NoDup (ids (snd (erase (mkSymbol SymbolType.Slack 1) three_cells))).
Proof.
  destruct (map_methods_keep_ids_distinct three_cells (mkSymbol SymbolType.Dummy 3) 4
              (fun _ => 0)) as (A & _); [distinct_ids|].
  destruct (map_methods_keep_ids_distinct three_cells (mkSymbol SymbolType.Slack 1) 4
              (fun _ => 0)) as (_ & B & _); [distinct_ids|].
  split; [exact A | exact B].
Defined.

(** ** Numbers: [nearZero] and [Strength.clip] *)

Module NumberLaws.

Lemma SFcompare_total x y :
  x <> S754_nan -> y <> S754_nan -> exists c, SFcompare x y = Some c.
Proof.
  intros Nx Ny. destruct x as [sx|sx| |sx mx ex], y as [sy|sy| |sy my ey];
    try contradiction; cbn; eauto.
Qed.

Lemma is_nan_spec x : is_nan x = true <-> Prim2SF x = S754_nan.
Proof.
  unfold is_nan. rewrite FloatAxioms.eqb_spec. unfold SFeqb. split.
  - intros E. destruct (Prim2SF x) as [s|s| |s m e] eqn:P; trivial; exfalso.
    + now destruct s.
    + now destruct s.
    + rewrite SFcompare_refl in E; discriminate.
  - now intros ->.
Qed.

Lemma not_nan x : is_nan x = false -> Prim2SF x <> S754_nan.
Proof. intros N E. apply is_nan_spec in E. congruence. Qed.

Lemma ltb_leb x y : (x <? y) = true -> (x <=? y) = true.
Proof.
  rewrite FloatAxioms.ltb_spec, FloatAxioms.leb_spec. unfold SFltb, SFleb.
  now destruct (SFcompare _ _) as [[]|].
Qed.

(** Of two numbers that are not NaN, one is below the other or they are
    equal. *)
Lemma not_leb_ltb x y :
  is_nan x = false -> is_nan y = false -> (x <=? y) = false -> (y <? x) = true.
Proof.
  intros Nx Ny. apply not_nan in Nx, Ny.
  rewrite FloatAxioms.ltb_spec, FloatAxioms.leb_spec. unfold SFltb, SFleb.
  rewrite (SFcompare_antisym (Prim2SF x) (Prim2SF y)).
  destruct (SFcompare_total _ _ Nx Ny) as [[] ->]; cbn; congruence.
Qed.

Lemma leb_zero_below_required v :
  (v <=? 0) = true -> (v <? Strength.required) = true.
Proof.
  rewrite FloatAxioms.ltb_spec, FloatAxioms.leb_spec, Prim2SF_zero, Prim2SF_required.
  generalize 8397004996608000%positive. intros M.
  unfold SFltb, SFleb, SFcompare.
  destruct (Prim2SF v) as [s|s| |s m e]; try destruct s; trivial; discriminate.
Qed.

Lemma leb_zero_not_ltb v : (v <=? 0) = true -> (0 <? v) = false.
Proof.
  rewrite FloatAxioms.ltb_spec, FloatAxioms.leb_spec, Prim2SF_zero.
  unfold SFltb, SFleb, SFcompare.
  destruct (Prim2SF v) as [s|s| |s m e]; try destruct s; trivial; discriminate.
Qed.

(** [clip] below [required]: the number itself when it is above zero, and
    zero otherwise. *)
Lemma clip_below v :
  (v <? Strength.required) = true ->
  Strength.clip v = if 0 <? v then v else 0.
Proof.
  intros L. destruct (ltb_is_nan _ _ L) as [Nv _].
  unfold Strength.clip. unfold Math.min at 1.
  rewrite Nv, (ltb_antisym _ _ L), L.
  change (is_nan Strength.required || false) with false. cbn iota.
  unfold Math.max. rewrite Nv. change (is_nan 0 || false) with false. cbn iota.
  destruct (0 <? v); [reflexivity|]. now destruct (v <? 0).
Qed.

End NumberLaws.

Import NumberLaws.

(** [nearZero(value)] tests the magnitude of the number against epsilon: it
    holds exactly when [|value| < 1.0e-8], so it is the same for a number and
    its opposite, and false for NaN. *)
Theorem nearZero_tests_magnitude (value : float) :
  nearZero value = (abs value <? 1.0e-8)
  /\ nearZero (- value) = nearZero value
  /\ (is_nan value = true -> nearZero value = false).
Proof.
  assert (A : nearZero value = (abs value <? 1.0e-8)).
  { unfold nearZero. rewrite !FloatAxioms.ltb_spec, opp_spec, abs_spec, Prim2SF_zero.
    generalize (Prim2SF 1.0e-8). intros eps.
    destruct (Prim2SF value) as [s|s| |s m e]; try (destruct s); reflexivity. }
  split; [exact A|]. split; [apply nearZero_opp|].
  intros N. apply is_nan_spec in N. rewrite A, FloatAxioms.ltb_spec, abs_spec, N.
  reflexivity.
Qed.

(** [Strength.clip(value)]: [required] for a number at or above it, the
    number itself between zero and [required], zero for a number at or below
    zero, and NaN for NaN; so the result of a number that is not NaN lies
    between zero and [required], and clipping twice is clipping once. *)
Theorem clip_by_cases (value : float) :
  ((Strength.required <=? value) = true -> Strength.clip value = Strength.required)
  /\ ((0 <? value) = true -> (value <? Strength.required) = true ->
      Strength.clip value = value)
  /\ ((value <=? 0) = true -> Strength.clip value = 0)
  /\ (is_nan value = true -> is_nan (Strength.clip value) = true)
  /\ (is_nan value = false ->
      (0 <=? Strength.clip value) = true
      /\ (Strength.clip value <=? Strength.required) = true
      /\ Strength.clip (Strength.clip value) = Strength.clip value).
Proof.
  split; [apply clip_at_least_required|].
  split; [intros P L; rewrite (clip_below _ L); now rewrite P|].
  split.
  { intros L. rewrite (clip_below _ (leb_zero_below_required _ L)).
    now rewrite (leb_zero_not_ltb _ L). }
  split.
  { intros N. unfold Strength.clip, Math.min. rewrite N, orb_true_r.
    unfold Math.max. reflexivity. }
  intros N. destruct (Strength.required <=? value) eqn:R.
  - rewrite (clip_at_least_required _ R). repeat split; reflexivity.
  - assert (L : (value <? Strength.required) = true)
      by (apply not_leb_ltb; trivial).
    rewrite (clip_below _ L). destruct (0 <? value) eqn:P.
    + split; [now apply ltb_leb|]. split; [now apply ltb_leb|].
      rewrite (clip_below _ L). now rewrite P.
    + repeat split; reflexivity.
Qed.

(** ** Rows *)

Module RowLaws.

Lemma coefficientFor_middle symbol l1 key c l2 k :
  sym_id key = sym_id symbol -> ~ In (sym_id symbol) (ids l1) ->
  coefficientFor symbol (mkRow (l1 ++ (key, c) :: l2) k) = c.
Proof.
  intros E N. unfold coefficientFor. cbn [cells].
  now rewrite (find_middle (H:=Symbol_HasId) symbol l1 (key, c) l2 E N).
Qed.

Lemma coefficientFor_absent symbol r :
  find symbol (cells r) = None -> coefficientFor symbol r = 0.
Proof. intros F. unfold coefficientFor. now rewrite F. Qed.

(** The coefficient [insertSymbol] leaves for its symbol. *)
Lemma insertSymbol_coefficient symbol c r :
  NoDup (cell_ids r) ->
  coefficientFor symbol (insertSymbol symbol c r) =
  if nearZero (coefficientFor symbol r + c) then 0 else coefficientFor symbol r + c.
Proof.
  intros D. destruct (nearZero (coefficientFor symbol r + c)) eqn:Z.
  - apply coefficientFor_absent. now apply insertSymbol_erases.
  - destruct (insertSymbol_shape symbol c r) as (l1 & l2 & key & old & Sh & E & N & ->).
    assert (O : coefficientFor symbol r = old).
    { destruct Sh as [C|(C & _ & _ & ->)].
      - destruct r as [cs k]. cbn [cells] in C. subst cs.
        now apply coefficientFor_middle.
      - apply coefficientFor_absent. apply find_None. now rewrite C. }
    rewrite O in Z. rewrite Z, O. now apply coefficientFor_middle.
Qed.

Lemma insertSymbol_coefficient_other symbol c r other :
  NoDup (cell_ids r) -> sym_id other <> sym_id symbol ->
  coefficientFor other (insertSymbol symbol c r) = coefficientFor other r.
Proof.
  intros D O.
  destruct (insertSymbol_shape symbol c r) as (l1 & l2 & key & old & Sh & E & N & ->).
  assert (F : find other (l1 ++ (key, old + c) :: l2) = find other (cells r)).
  { destruct Sh as [C|(C & -> & _ & _)]; rewrite C.
    - apply (find_replace (H:=Symbol_HasId)); cbn [fst]; change (id_of key) with (sym_id key);
        change (id_of other) with (sym_id other); congruence.
    - apply (find_app_absent (H:=Symbol_HasId)). cbn [fst].
      change (id_of key) with (sym_id key); change (id_of other) with (sym_id other).
      congruence. }
  assert (D' : NoDup (ids (l1 ++ (key, old + c) :: l2))).
  { destruct Sh as [C|(C & -> & _ & _)].
    - unfold cell_ids in D. rewrite C in D. rewrite ids_app in D |- *. exact D.
    - rewrite ids_app. apply NoDup_app.
      + unfold cell_ids in D. now rewrite C in D.
      + repeat constructor. intros [].
      + intros x I [<-|[]]. apply N. rewrite <- E. exact I. }
  unfold coefficientFor.
  destruct (nearZero (old + c)); cbn [cells]; [|now rewrite F].
  rewrite (erase_find_other (H:=Symbol_HasId) symbol _ other D' O). now rewrite F.
Qed.

End RowLaws.

Import RowLaws.

(** Insert and read back, in a row whose cells have distinct symbols:
    [insertSymbol(symbol, c)] adds [c] to the coefficient of the symbol, and
    the coefficient reads [0.0] when the sum is within epsilon of zero; the
    coefficient of every other symbol and the constant stay. *)
Theorem insertSymbol_then_coefficientFor (r : Row) (symbol : Symbol) (c : float) :
  NoDup (cell_ids r) ->
  coefficientFor symbol (insertSymbol symbol c r) =
    (if nearZero (coefficientFor symbol r + c) then 0 else coefficientFor symbol r + c)
  /\ (forall other, sym_id other <> sym_id symbol ->
        coefficientFor other (insertSymbol symbol c r) = coefficientFor other r)
  /\ constant (insertSymbol symbol c r) = constant r
  /\ NoDup (cell_ids (insertSymbol symbol c r)).
Proof.
  intros D. split; [now apply insertSymbol_coefficient|].
  split; [intros other; now apply insertSymbol_coefficient_other|].
  split; [apply insertSymbol_constant | now apply insertSymbol_NoDup].
Qed.

Lemma insertSymbol_then_coefficientFor_witness :
  coefficientFor (mkSymbol SymbolType.Slack 1)
    (insertSymbol (mkSymbol SymbolType.Slack 1) (-2) three_cell_row) = 0
  /\ coefficientFor (mkSymbol SymbolType.Error 2)
       (insertSymbol (mkSymbol SymbolType.Slack 1) (-2) three_cell_row) = 3.
Proof.
  destruct (insertSymbol_then_coefficientFor three_cell_row (mkSymbol SymbolType.Slack 1) (-2))
    as (A & B & _); [distinct_ids|].
  split; [exact A|].
  apply (B (mkSymbol SymbolType.Error 2)). discriminate.
Defined.

(** [solveFor(symbol)] fails, on the read of the missing pair, exactly when
    the symbol has no cell in the row.  In a row whose cells have distinct
    symbols, with the cell [c] for the symbol, it takes that cell out and
    multiplies the constant and every other cell by [-1.0 / c]. *)
Theorem solveFor_scales_the_rest (r : Row) (symbol : Symbol) :
  (solveFor symbol r = None <-> find symbol (cells r) = None)
  /\ (NoDup (cell_ids r) ->
      forall c, In (symbol, c) (cells r) ->
      exists r',
        solveFor symbol r = Some r'
        /\ constant r' = constant r * (-1 / c)
        /\ find symbol (cells r') = None
        /\ (forall other k, sym_id other <> sym_id symbol ->
              In (other, k) (cells r) -> In (other, k * (-1 / c)) (cells r'))
        /\ (forall item, In item (cells r') ->
              exists k, In (fst item, k) (cells r) /\ snd item = k * (-1 / c))).
Proof.
  split.
  - unfold solveFor. rewrite <- (erase_fst (H:=Symbol_HasId) symbol (cells r)).
    destruct (erase symbol (cells r)) as [[item|] rest]; cbn [fst]; split; congruence.
  - intros D c I.
    assert (F : find symbol (cells r) = Some (symbol, c)) by (now apply In_find).
    destruct (erase_NoDup (H:=Symbol_HasId) symbol (cells r) D) as (D' & N' & Sub & Keep).
    pose proof (erase_fst (H:=Symbol_HasId) symbol (cells r)) as Ef. rewrite F in Ef.
    unfold solveFor. destruct (erase symbol (cells r)) as [erased rest].
    cbn [fst snd] in *. subst erased. eexists. split; [reflexivity|].
    cbn [cells constant snd]. split; [reflexivity|]. split.
    + apply find_None. rewrite ids_scaled. exact N'.
    + split.
      * intros other k O Ik.
        change (other, k * (-1 / c))
          with ((fun p : Symbol * float => (fst p, snd p * (-1 / c))) (other, k)).
        apply in_map. apply Keep; trivial.
      * intros item Ii. apply in_map_iff in Ii as (p & <- & Ip). exists (snd p).
        cbn [fst snd]. split; [|reflexivity]. rewrite <- surjective_pairing.
        now apply Sub.
Qed.

(** [substitute(symbol, row)] in a row whose cells have distinct symbols:
    when the substituted row does not hold the symbol, neither does the
    result; and a row without the symbol is left as it is. *)
Theorem substitute_eliminates_symbol (r row : Row) (symbol : Symbol) :
  NoDup (cell_ids r) ->
  (find symbol (cells row) = None ->
   find symbol (cells (substitute symbol row r)) = None)
  /\ (find symbol (cells r) = None -> substitute symbol row r = r)
  /\ NoDup (cell_ids (substitute symbol row r)).
Proof.
  intros D. split; [|split].
  - intros A. apply find_None. intros I.
    destruct (substitute_ids symbol row r _ D I) as [[_ N]|I'].
    + now apply N.
    + apply find_None in A. now apply A.
  - intros A. destruct (substitute_shape symbol row r) as [[_ E]|(item & rest & F & _)];
      [exact E | congruence].
  - now apply substitute_NoDup.
Qed.

Lemma substitute_eliminates_symbol_witness :
  find (mkSymbol SymbolType.Slack 1)
       (cells (substitute (mkSymbol SymbolType.Slack 1)
                          (mkRow [(mkSymbol SymbolType.Dummy 3, 5)] 6) three_cell_row))
  = None.
Proof.
  destruct (substitute_eliminates_symbol three_cell_row
              (mkRow [(mkSymbol SymbolType.Dummy 3, 5)] 6) (mkSymbol SymbolType.Slack 1))
    as (A & _); [distinct_ids|].
  apply A. reflexivity.
Defined.

Module InsertRowLaws.

Lemma insert_cells_coefficient_absent k cs acc symbol :
  NoDup (cell_ids acc) -> ~ In (sym_id symbol) (ids cs) ->
  coefficientFor symbol (insert_cells k cs acc) = coefficientFor symbol acc.
Proof.
  revert acc. induction cs as [|item cs IH]; intros acc D N; [reflexivity|].
  cbn [insert_cells fold_left]. fold (insert_cells k cs (insertSymbol (fst item) (snd item * k) acc)).
  rewrite IH.
  - apply insertSymbol_coefficient_other; trivial. intros E. apply N. left.
    now rewrite E.
  - now apply insertSymbol_NoDup.
  - intros I. apply N. now right.
Qed.

Lemma insert_cells_coefficient k cs acc symbol c :
  NoDup (cell_ids acc) -> NoDup (ids cs) -> In (symbol, c) cs ->
  coefficientFor symbol (insert_cells k cs acc) =
  if nearZero (coefficientFor symbol acc + c * k) then 0
  else coefficientFor symbol acc + c * k.
Proof.
  revert acc. induction cs as [|item cs IH]; intros acc D Dc I; [destruct I|].
  cbn [insert_cells fold_left]. fold (insert_cells k cs (insertSymbol (fst item) (snd item * k) acc)).
  cbn in Dc. apply NoDup_cons_iff in Dc as [N Dc]. destruct I as [->|I].
  - cbn [fst snd]. rewrite insert_cells_coefficient_absent.
    + now apply insertSymbol_coefficient.
    + now apply insertSymbol_NoDup.
    + exact N.
  - rewrite (IH _ (insertSymbol_NoDup _ _ _ D) Dc I).
    rewrite insertSymbol_coefficient_other; trivial.
    intros E. apply N. change (id_of (fst item)) with (sym_id (fst item)). rewrite <- E.
    apply (In_ids (H:=Symbol_HasId)) in I. exact I.
Qed.

End InsertRowLaws.

Import InsertRowLaws.

(** [insertRow(other, k)], for rows whose cells have distinct symbols, adds
    [k] times the other row, cell by cell: the constant becomes
    [constant + other.constant * k], the coefficient of a symbol of the other
    row with coefficient [c] becomes [coefficient + c * k] (and reads [0.0]
    when that is within epsilon of zero), and the coefficient of a symbol the
    other row does not hold stays. *)
Theorem insertRow_adds_cell_by_cell (r other : Row) (k : float) :
  NoDup (cell_ids r) -> NoDup (cell_ids other) ->
  constant (insertRow other k r) = constant r + constant other * k
  /\ (forall symbol c, In (symbol, c) (cells other) ->
        coefficientFor symbol (insertRow other k r) =
        if nearZero (coefficientFor symbol r + c * k) then 0
        else coefficientFor symbol r + c * k)
  /\ (forall symbol, find symbol (cells other) = None ->
        coefficientFor symbol (insertRow other k r) = coefficientFor symbol r)
  /\ NoDup (cell_ids (insertRow other k r)).
Proof.
  intros D Do. rewrite insertRow_unfold.
  set (acc := mkRow (cells r) (constant r + constant other * k)).
  assert (Da : NoDup (cell_ids acc)) by exact D.
  split; [now rewrite insert_cells_constant|]. split; [|split].
  - intros symbol c I. now rewrite (insert_cells_coefficient k _ acc symbol c Da Do I).
  - intros symbol F. apply find_None in F.
    now rewrite (insert_cells_coefficient_absent k _ acc symbol Da F).
  - now apply insert_cells_NoDup.
Qed.

Lemma insertRow_adds_cell_by_cell_witness :
  constant (insertRow (mkRow [(mkSymbol SymbolType.Slack 1, -1); (mkSymbol SymbolType.Dummy 3, 5)] 6)
                      2 three_cell_row) = 16
  /\ coefficientFor (mkSymbol SymbolType.Slack 1)
       (insertRow (mkRow [(mkSymbol SymbolType.Slack 1, -1); (mkSymbol SymbolType.Dummy 3, 5)] 6)
                  2 three_cell_row) = 0.
Proof.
  destruct (insertRow_adds_cell_by_cell three_cell_row
              (mkRow [(mkSymbol SymbolType.Slack 1, -1); (mkSymbol SymbolType.Dummy 3, 5)] 6) 2)
    as (A & B & _); [distinct_ids | distinct_ids |].
  split; [exact A|].
  apply (B (mkSymbol SymbolType.Slack 1) (-1)). left. reflexivity.
Defined.

(** ** What a call leaves alone *)

Section Frames.

Variable R : State -> State -> Prop.
Hypothesis R_refl : forall s, R s s.
Hypothesis R_trans : forall s1 s2 s3, R s1 s2 -> R s2 s3 -> R s1 s3.

Lemma frames_ret {A} (a : A) : frames R (ret a).
Proof. intros s s' [= <-]. apply R_refl. Qed.

Lemma frames_throw {A} msg : frames R (@throw A msg).
Proof. intros s s' [= <-]. apply R_refl. Qed.

Lemma frames_throwTypeError {A} : frames R (@throwTypeError A).
Proof. intros s s' [= <-]. apply R_refl. Qed.

Lemma frames_gets {A} (f : State -> A) : frames R (gets f).
Proof. intros s s' [= <-]. apply R_refl. Qed.

Lemma frames_defined {A} (o : option A) : frames R (defined o).
Proof. destruct o; [apply frames_ret | apply frames_throwTypeError]. Qed.

Lemma frames_modify f : (forall s, R s (f s)) -> frames R (modify f).
Proof. intros Hf s s' [= <-]. apply Hf. Qed.

Lemma frames_bind {A B} (c : M A) (k : A -> M B) :
  frames R c -> (forall a, frames R (k a)) -> frames R (bind c k).
Proof.
  intros Hc Hk s s'. unfold bind. specialize (Hc s).
  destruct (c s) as [a s1|e s1|]; cbn [final] in *.
  - intros E. apply (R_trans s s1 s'); [now apply Hc | now apply (Hk a s1)].
  - exact (Hc s').
  - discriminate.
Qed.

End Frames.

Create HintDb frames discriminated.

(** One step of a proof that a composite call frames a relation. *)
Ltac frames_split bind_lemma :=
  repeat first
    [ solve [eauto 3 with frames]
    | apply bind_lemma; [|intros ?]
    | match goal with
      | |- frames _ (if ?b then _ else _) => destruct b
      | |- frames _ (match ?o with Some _ => _ | None => _ end) => destruct o
      | |- frames _ (match ?o with TheObjective => _ | TheArtificial => _ end) => destruct o
      | |- frames _ (match ?o with Operator.Le => _ | Operator.Ge => _ | Operator.Eq => _ end) =>
          destruct o
      | |- frames _ (let _ := _ in _) => cbv zeta
      end ].

Section Framed.

(** A relation that every setter the calls write through respects, and that
    the two counters respect when they go up by one, ties the state a call
    of the solver ends in to the state it started in. *)
Variable R : State -> State -> Prop.
Hypothesis R_refl : forall s, R s s.
Hypothesis R_trans : forall s1 s2 s3, R s1 s2 -> R s2 s3 -> R s1 s3.
Hypothesis R_cnMap : forall v s, R s (set_cnMap v s).
Hypothesis R_rowMap : forall v s, R s (set_rowMap v s).
Hypothesis R_varMap : forall v s, R s (set_varMap v s).
Hypothesis R_editMap : forall v s, R s (set_editMap v s).
Hypothesis R_infeasibleRows : forall v s, R s (set_infeasibleRows v s).
Hypothesis R_objective : forall v s, R s (set_objective v s).
Hypothesis R_artificial : forall v s, R s (set_artificial v s).
Hypothesis R_idTick : forall s, R s (set_idTick (_idTick s + 1)%Z s).
Hypothesis R_CnId : forall s, R s (set_CnId (CnId s + 1)%Z s).

Lemma framed_bind {A B} (c : M A) (k : A -> M B) :
  frames R c -> (forall a, frames R (k a)) -> frames R (bind c k).
Proof. apply frames_bind, R_trans. Qed.

Lemma framed_ret {A} (a : A) : frames R (ret a).
Proof. apply frames_ret, R_refl. Qed.

Lemma framed_throw {A} msg : frames R (@throw A msg).
Proof. apply frames_throw, R_refl. Qed.

Lemma framed_gets {A} (g : State -> A) : frames R (gets g).
Proof. apply frames_gets, R_refl. Qed.

Lemma framed_defined {A} (o : option A) : frames R (defined o).
Proof. apply frames_defined, R_refl. Qed.

Hint Resolve framed_ret framed_throw framed_gets framed_defined : frames.

Lemma makeSymbol_frames type : frames R (_makeSymbol type).
Proof. intros s s' [= <-]. apply R_idTick. Qed.

Hint Resolve makeSymbol_frames : frames.

Lemma getVarSymbol_frames variable : frames R (_getVarSymbol variable).
Proof.
  unfold _getVarSymbol. frames_split @framed_bind.
  apply frames_modify. intros s. apply R_varMap.
Qed.

Hint Resolve getVarSymbol_frames : frames.

Lemma createRow_terms_frames ts row : frames R (createRow_terms ts row).
Proof.
  revert row. induction ts as [|t ts IH]; intros row; cbn [createRow_terms];
    frames_split @framed_bind.
Qed.

Hint Resolve createRow_terms_frames : frames.

Lemma objective_insertSymbol_frames symbol c : frames R (objective_insertSymbol symbol c).
Proof. apply frames_modify. intros s. apply R_objective. Qed.

Hint Resolve objective_insertSymbol_frames : frames.

Lemma createRow_frames constraint : frames R (_createRow constraint).
Proof. unfold _createRow. frames_split @framed_bind. Qed.

Lemma substitute_frames symbol row : frames R (_substitute symbol row).
Proof.
  apply frames_modify. intros s.
  destruct (substitute_rows _ _ _ _) as [rows infeasible].
  cbn [_artificial set_objective set_infeasibleRows set_rowMap].
  assert (A : R s (set_objective (substitute symbol row (_objective s))
                     (set_infeasibleRows infeasible (set_rowMap rows s)))).
  { eapply R_trans; [apply R_rowMap|]. eapply R_trans; [apply R_infeasibleRows|].
    apply R_objective. }
  destruct (_artificial s); [|exact A].
  eapply R_trans; [exact A | apply R_artificial].
Qed.

Lemma rowMap_erase_frames key : frames R (rowMap_erase key).
Proof.
  intros s s'. unfold rowMap_erase. destruct (erase key (_rowMap s)).
  intros [= <-]. apply R_rowMap.
Qed.

Lemma rowMap_insert_frames key row : frames R (rowMap_insert key row).
Proof. apply frames_modify. intros s. apply R_rowMap. Qed.

Hint Resolve createRow_frames substitute_frames rowMap_erase_frames rowMap_insert_frames : frames.

Lemma pivot_frames leaving entering row : frames R (pivot leaving entering row).
Proof. unfold pivot. frames_split @framed_bind. Qed.

Hint Resolve pivot_frames : frames.

Lemma optimize_loop_frames n objective : frames R (optimize_loop n objective).
Proof.
  induction n as [|n IH]; cbn [optimize_loop]; unfold deref; frames_split @framed_bind.
Qed.

Hint Resolve optimize_loop_frames : frames.

Lemma optimize_frames objective : frames R (_optimize objective).
Proof. unfold _optimize. frames_split @framed_bind. Qed.

Hint Resolve optimize_frames : frames.

Lemma dualOptimize_frames fuel : frames R (_dualOptimize fuel).
Proof.
  induction fuel as [|fuel IH]; intros s s'; cbn [_dualOptimize].
  - destruct (_infeasibleRows s); [intros [= <-]; apply R_refl | discriminate].
  - destruct (_infeasibleRows s) as [|leaving rest]; [intros [= <-]; apply R_refl|].
    assert (S0 : R s (set_infeasibleRows rest s)) by apply R_infeasibleRows.
    set (s0 := set_infeasibleRows rest s) in *.
    destruct (find leaving (_rowMap s0)) as [item|].
    + destruct (constant (snd item) <? 0).
      * destruct (is_type SymbolType.Invalid _).
        -- intros [= <-]. exact S0.
        -- intros E. apply (R_trans _ _ _ S0). revert E.
           match goal with |- final (?c s0) = _ -> _ =>
             assert (K : frames R c); [|apply K] end.
           frames_split @framed_bind.
      * intros E. apply (R_trans _ _ _ S0). now apply IH.
    + intros E. apply (R_trans _ _ _ S0). now apply IH.
Qed.

Hint Resolve dualOptimize_frames : frames.

Lemma addWithArtificialVariable_frames row : frames R (_addWithArtificialVariable row).
Proof.
  unfold _addWithArtificialVariable, deref. frames_split @framed_bind;
    apply frames_modify; intros s; first [apply R_artificial | apply R_rowMap | apply R_objective].
Qed.

Hint Resolve addWithArtificialVariable_frames : frames.

Lemma install_frames constraint subject row tag :
  frames R (install constraint subject row tag).
Proof.
  unfold install. frames_split @framed_bind; apply frames_modify; intros s; apply R_cnMap.
Qed.

Hint Resolve install_frames : frames.

Lemma addConstraint_frames constraint : frames R (addConstraint constraint).
Proof. unfold addConstraint. frames_split @framed_bind. Qed.

Hint Resolve addConstraint_frames : frames.

(** The counter of constraint ids goes up by one. *)
Lemma next_CnId_frames {A} (k : Z -> M A) :
  (forall id, frames R (k id)) ->
  frames R (id <- gets CnId ;; modify (set_CnId (id + 1)%Z) ;; k id).
Proof.
  intros Hk s s'. unfold bind at 1, gets at 1. unfold bind at 1, modify at 1.
  intros E. eapply R_trans; [apply R_CnId|]. exact (Hk _ _ _ E).
Qed.

Lemma createConstraint_frames lhs operator rhs strength :
  frames R (createConstraint lhs operator rhs strength).
Proof.
  unfold createConstraint. apply next_CnId_frames. intros id. frames_split @framed_bind.
Qed.

Lemma removeMarkerEffects_frames marker strength :
  frames R (_removeMarkerEffects marker strength).
Proof.
  apply frames_modify. intros s. destruct (find marker (_rowMap s)); apply R_objective.
Qed.

Hint Resolve removeMarkerEffects_frames : frames.

Lemma removeConstraintEffects_frames cn tag : frames R (_removeConstraintEffects cn tag).
Proof. unfold _removeConstraintEffects. frames_split @framed_bind. Qed.

Hint Resolve removeConstraintEffects_frames : frames.

Lemma removeConstraint_frames constraint : frames R (removeConstraint constraint).
Proof.
  unfold removeConstraint. apply framed_bind.
  - intros s s'. destruct (erase constraint (_cnMap s)). intros [= <-]. apply R_cnMap.
  - intros cnPair. frames_split @framed_bind.
Qed.

Hint Resolve removeConstraint_frames : frames.

Lemma addEditVariable_frames variable strength :
  frames R (addEditVariable variable strength).
Proof.
  unfold addEditVariable. apply framed_bind; [auto with frames|]. intros [item|];
    [auto with frames|].
  cbv zeta. destruct (_ =? _); [auto with frames|].
  apply next_CnId_frames. intros id. frames_split @framed_bind.
  apply frames_modify. intros s. apply R_editMap.
Qed.

Lemma removeEditVariable_frames variable : frames R (removeEditVariable variable).
Proof.
  unfold removeEditVariable. apply framed_bind.
  - intros s s'. destruct (erase variable (_editMap s)). intros [= <-]. apply R_editMap.
  - intros editPair. frames_split @framed_bind.
Qed.

Lemma add_to_basic_frames key item x : frames R (add_to_basic key item x).
Proof.
  apply frames_modify. intros s. cbv zeta.
  destruct (constant (add x (snd item)) <? 0); [|apply R_rowMap].
  eapply R_trans; [apply R_rowMap | apply R_infeasibleRows].
Qed.

Hint Resolve add_to_basic_frames : frames.

Lemma suggestValue_frames fuel variable x : frames R (suggestValue fuel variable x).
Proof.
  unfold suggestValue. frames_split @framed_bind; apply frames_modify; intros s;
    try apply R_editMap.
  destruct (suggest_rows _ _ _ _).
  eapply R_trans; [apply R_rowMap | apply R_infeasibleRows].
Qed.

(** [suggestValue] for an edit variable: the record of the value in
    [_editMap], and then the moves of the tableau. *)
Lemma suggestValue_moves fuel variable x s item :
  find variable (_editMap s) = Some item ->
  exists c : M unit,
    frames R c
    /\ suggestValue fuel variable x s =
       c (set_editMap
            (set_second variable
               (mkEditInfo (tag (snd item)) (constraint (snd item)) x) (_editMap s))
            s).
Proof.
  intros Fi. eexists. split; cycle 1.
  - unfold suggestValue, bind at 1, gets at 1. rewrite Fi.
    unfold bind at 1, modify at 1. reflexivity.
  - cbv beta. frames_split @framed_bind. apply frames_modify. intros s0.
    destruct (suggest_rows _ _ _ _).
    eapply R_trans; [apply R_rowMap | apply R_infeasibleRows].
Qed.

End Framed.

(** The side conditions of a frame lemma, for a relation that says a field
    is kept or a counter does not go down. *)
Ltac frame_conditions :=
  intros; unfold kept in *; cbn; first [reflexivity | congruence | lia].

(** No call but [updateVariables] writes the value of a variable, and no
    call changes [maxIterations]: after any sequence of the other calls, some
    of which may have thrown, every variable has the value it had. *)
Theorem values_wait_for_updateVariables (ms : list Public.Method) (s s' : State) :
  Public.after_all ms s = Some s' ->
  var_values s' = var_values s /\ maxIterations s' = maxIterations s.
Proof.
  revert s. induction ms as [|m ms IH]; intros s; cbn [Public.after_all].
  - now intros [= <-].
  - destruct (Public.after m s) as [s1|] eqn:E; [|discriminate].
    intros Rest. destruct (IH s1 Rest) as [-> ->].
    assert (K : kept (fun s => (var_values s, maxIterations s)) s s1).
    { destruct m; cbn [Public.after] in E; revert E;
        [ apply addConstraint_frames | apply createConstraint_frames
        | apply removeConstraint_frames | apply addEditVariable_frames
        | apply removeEditVariable_frames | apply suggestValue_frames ];
        frame_conditions. }
    unfold kept in K. now injection K as -> ->.
Qed.

Lemma values_wait_for_updateVariables_witness :
  exists s',
    Public.after_all calls_with_a_throw (new_Solver 0 no_values) = Some s'
    /\ var_values s' = no_values /\ maxIterations s' = 1000%nat.
Proof.
  eexists. split; [vm_compute; reflexivity|].
  apply (values_wait_for_updateVariables calls_with_a_throw (new_Solver 0 no_values)).
  vm_compute. reflexivity.
Defined.

(** ** The constraints and edit variables a solver holds *)

Section OptimizeErrors.

(** The errors of the simplex loop, and no others, come out of a pivot or
    of [_optimize]. *)
Variable msg : string.
Hypothesis not_unbounded : msg <> "the objective is unbounded".
Hypothesis not_exceeded : msg <> "solver iterations exceeded".

Lemma pivot_throws_no_other leaving entering row :
  avoids msg (pivot leaving entering row).
Proof.
  unfold pivot. apply avoids_bind; [apply avoids_defined|]. intros solved.
  apply avoids_bind; [apply avoids_modify|]. intros _. apply avoids_modify.
Qed.

Lemma optimize_throws_no_other objective : avoids msg (_optimize objective).
Proof.
  unfold _optimize. apply avoids_bind; [apply avoids_gets|]. intros n.
  induction n as [|n IH]; cbn [optimize_loop].
  - apply avoids_throw. congruence.
  - apply avoids_bind.
    { destruct objective; cbn [deref]; [apply avoids_gets|].
      apply avoids_bind; [apply avoids_gets | intros a; apply avoids_defined]. }
    intros obj. cbv zeta. destruct (is_type _ _); [apply avoids_ret|].
    apply avoids_bind; [apply avoids_gets|]. intros rows.
    destruct (is_type _ _); [apply avoids_throw; congruence|].
    apply avoids_bind; [apply avoids_rowMap_erase|]. intros erased.
    apply avoids_bind; [apply avoids_defined|]. intros item.
    apply avoids_bind; [apply pivot_throws_no_other|]. intros _. exact IH.
Qed.

End OptimizeErrors.

Lemma final_bind {A B} (c : M A) (k : A -> M B) s s' :
  final (bind c k s) = Some s' ->
  (exists e, c s = Throw e s')
  \/ exists a s1, c s = Ok a s1 /\ final (k a s1) = Some s'.
Proof.
  unfold bind. destruct (c s) as [a s1|e s1|]; cbn [final].
  - intros E. right. now exists a, s1.
  - intros [= <-]. left. now exists e.
  - discriminate.
Qed.

(** What [install] does to [_cnMap]. *)
Lemma install_cnMap constraint subject row tag s s' :
  final (install constraint subject row tag s) = Some s' ->
  (_cnMap s' = _cnMap s
   /\ (forall a, install constraint subject row tag s <> Ok a s'))
  \/ (_cnMap s' = insert constraint tag (_cnMap s)
      /\ forall msg, install constraint subject row tag s = Throw (JsError msg) s' ->
                     msg = "the objective is unbounded"
                     \/ msg = "solver iterations exceeded").
Proof.
  unfold install.
  match goal with |- context [bind ?pre _] => set (c := pre) end.
  assert (K : frames (kept _cnMap) c).
  { subst c. destruct (is_type SymbolType.Invalid subject).
    - apply framed_bind; try frame_conditions.
      + apply addWithArtificialVariable_frames; frame_conditions.
      + intros added. destruct (negb added);
          [apply framed_throw | apply framed_ret]; frame_conditions.
    - apply framed_bind; try frame_conditions.
      + apply framed_defined; frame_conditions.
      + intros solved. apply framed_bind; try frame_conditions.
        * apply substitute_frames; frame_conditions.
        * intros _. apply rowMap_insert_frames; frame_conditions. }
  match goal with |- context [final ?w] => set (whole := w) end.
  assert (W : whole =
              match c s with
              | Ok _ s1 =>
                  (modify (fun s => set_cnMap (insert constraint tag (_cnMap s)) s) ;;
                   _optimize TheObjective) s1
              | Throw e s1 => Throw e s1
              | Diverge => Diverge
              end) by reflexivity.
  clearbody whole. specialize (K s).
  destruct (c s) as [[] s1|e s1|]; subst whole; cbn [final].
  - specialize (K s1 eq_refl). unfold bind at 1, modify at 1. intros E. right.
    set (s2 := set_cnMap (insert constraint tag (_cnMap s1)) s1) in *.
    assert (K2 : kept _cnMap s2 s')
      by (revert E; apply optimize_frames; frame_conditions).
    unfold kept in K, K2. split.
    + rewrite K2. subst s2. cbn. now rewrite K.
    + intros msg T.
      destruct (string_dec msg "the objective is unbounded") as [|N1]; [now left|].
      destruct (string_dec msg "solver iterations exceeded") as [|N2]; [now right|].
      exfalso. exact (optimize_throws_no_other msg N1 N2 TheObjective s2 s' T).
  - intros [= <-]. left. split; [exact (K s1 eq_refl) | intros ?; discriminate].
  - discriminate.
Qed.

(** What [addConstraint] does to [_cnMap], however it ends. *)
Lemma addConstraint_cnMap constraint s s' :
  final (addConstraint constraint s) = Some s' ->
  (_cnMap s' = _cnMap s /\ (forall a, addConstraint constraint s <> Ok a s'))
  \/ (find constraint (_cnMap s) = None
      /\ (exists tag, _cnMap s' = _cnMap s ++ [(constraint, tag)])
      /\ forall msg, addConstraint constraint s = Throw (JsError msg) s' ->
                     msg = "the objective is unbounded"
                     \/ msg = "solver iterations exceeded").
Proof.
  remember (addConstraint constraint s) as whole eqn:W.
  unfold addConstraint, bind at 1, gets at 1 in W.
  destruct (find constraint (_cnMap s)) as [item|] eqn:F.
  - subst whole. intros [= <-]. left. split; [reflexivity | intros ?; discriminate].
  - assert (K : forall s1, final (_createRow constraint s) = Some s1 -> kept _cnMap s s1)
      by (apply createRow_frames; frame_conditions).
    unfold bind at 1 in W. destruct (_createRow constraint s) as [[row tag] s1|e s1|];
      cbn [final fst snd] in *.
    + specialize (K s1 eq_refl). unfold kept in K.
      assert (I : forall subject,
                 whole = install constraint subject row tag s1 ->
                 final whole = Some s' ->
                 (_cnMap s' = _cnMap s /\ (forall a, whole <> Ok a s'))
                 \/ (@None (Cn * Tag) = None
                     /\ (exists tag0, _cnMap s' = _cnMap s ++ [(constraint, tag0)])
                     /\ forall msg,
                          whole = Throw (JsError msg) s' ->
                          msg = "the objective is unbounded"
                          \/ msg = "solver iterations exceeded")).
      { intros subject -> E. destruct (install_cnMap _ _ _ _ _ _ E) as [[C N]|[C T]].
        - left. split; [congruence | exact N].
        - right. split; [reflexivity|]. split; [|exact T]. exists tag.
          rewrite C, K. apply insert_absent. now apply find_None. }
      destruct (is_type SymbolType.Invalid _ && allDummies row); [|now apply (I _ W)].
      destruct (negb (nearZero (constant row))); [|now apply (I _ W)].
      subst whole. intros [= <-]. left. split; [exact K | intros ?; discriminate].
    + subst whole. intros [= <-]. left. split; [exact (K s1 eq_refl) | intros ?; discriminate].
    + subst whole. discriminate.
Qed.

Lemma addConstraint_hasConstraint constraint s s' :
  addConstraint constraint s = Ok tt s' -> hasConstraint constraint s' = Ok true s'.
Proof.
  intros E.
  destruct (addConstraint_cnMap constraint s s') as [[_ N]|(F & [tag C] & _)].
  - now rewrite E.
  - now elim (N tt).
  - unfold hasConstraint, gets. f_equal. rewrite contains_find, C.
    apply find_None in F.
    rewrite (find_app_other (H:=Constraint_HasId) constraint _ _ F), find_cons.
    cbn [fst]. now rewrite Z.eqb_refl.
Qed.

(** [addConstraint] and the constraints of the solver.  When it returns,
    the constraint was new and is now the last one of [_cnMap], behind the
    ones that were there; when it throws 'duplicate constraint' or
    'unsatisfiable constraint', [_cnMap] is as it was; and when it throws
    anything else, [_cnMap] is as it was or has the constraint as its last
    one (an error of the closing [_optimize] comes after the constraint is
    recorded). *)
Theorem addConstraint_records_the_constraint (constraint : Cn) (s : State) :
  (forall s', addConstraint constraint s = Ok tt s' ->
     find constraint (_cnMap s) = None
     /\ (exists tag, _cnMap s' = _cnMap s ++ [(constraint, tag)])
     /\ hasConstraint constraint s' = Ok true s')
  /\ (forall msg s', addConstraint constraint s = Throw (JsError msg) s' ->
        msg = "duplicate constraint" \/ msg = "unsatisfiable constraint" ->
        _cnMap s' = _cnMap s)
  /\ (forall s', final (addConstraint constraint s) = Some s' ->
        _cnMap s' = _cnMap s
        \/ exists tag, _cnMap s' = _cnMap s ++ [(constraint, tag)]).
Proof.
  split; [|split].
  - intros s' E.
    destruct (addConstraint_cnMap constraint s s') as [[_ N]|(F & [tag C] & _)].
    + now rewrite E.
    + now elim (N tt).
    + split; [exact F|]. split; [now exists tag|].
      unfold hasConstraint, gets. f_equal. rewrite contains_find, C.
      apply find_None in F.
      rewrite (find_app_other (H:=Constraint_HasId) constraint _ _ F), find_cons.
      cbn [fst]. now rewrite Z.eqb_refl.
  - intros msg s' E M.
    destruct (addConstraint_cnMap constraint s s') as [[C _]|(_ & _ & T)].
    + now rewrite E.
    + exact C.
    + destruct (T msg E) as [->| ->], M as [M|M]; discriminate M.
  - intros s' E.
    destruct (addConstraint_cnMap constraint s s' E) as [[C _]|(_ & T & _)]; auto.
Qed.

Lemma removeConstraint_hasConstraint constraint s s' :
  NoDup (ids (_cnMap s)) ->
  final (removeConstraint constraint s) = Some s' ->
  hasConstraint constraint s' = Ok false s'.
Proof.
  intros D E. pose proof (removeConstraint_cnMap constraint s) as C.
  rewrite E in C. unfold hasConstraint, gets. f_equal. rewrite contains_find, C.
  now rewrite (erase_find_key (H:=Constraint_HasId) constraint (_cnMap s) D).
Qed.

(** [removeConstraint] and the constraints of the solver, when the
    constraints of [_cnMap] have distinct ids: however the call ends (it
    erases the constraint from [_cnMap] before anything else, so also when it
    throws later), the solver does not hold the constraint afterwards, and
    holds every other constraint it held, with the tag it had. *)
Theorem removeConstraint_forgets_the_constraint (constraint : Cn) (s s' : State) :
  NoDup (ids (_cnMap s)) ->
  final (removeConstraint constraint s) = Some s' ->
  hasConstraint constraint s' = Ok false s'
  /\ (forall other, cn_id other <> cn_id constraint ->
        find other (_cnMap s') = find other (_cnMap s))
  /\ NoDup (ids (_cnMap s'))
  /\ (forall a, removeConstraint constraint s = Ok a s' ->
        find constraint (_cnMap s) <> None).
Proof.
  intros D E. pose proof (removeConstraint_cnMap constraint s) as C.
  rewrite E in C. split; [|split; [|split]].
  - now apply (removeConstraint_hasConstraint constraint s).
  - intros other O. rewrite C.
    now apply (erase_find_other (H:=Constraint_HasId)).
  - rewrite C. now apply erase_NoDup.
  - intros a Run F. apply find_None in F. unfold removeConstraint, bind at 1 in Run.
    rewrite (erase_absent (H:=Constraint_HasId) constraint (_cnMap s) F) in Run.
    discriminate Run.
Qed.

Lemma removeConstraint_forgets_the_constraint_witness :
  exists s',
    removeConstraint x_is_5 holding_x_is_5 = Ok tt s'
    /\ hasConstraint x_is_5 s' = Ok false s'.
Proof.
  eexists. split; [vm_compute; reflexivity|].
  apply (removeConstraint_forgets_the_constraint x_is_5 holding_x_is_5).
  - vm_compute. repeat constructor. intros [].
  - vm_compute. reflexivity.
Defined.

(** The constraint [addEditVariable] makes for a variable. *)
Lemma addEditVariable_run variable strength s s' :
  addEditVariable variable strength s = Ok tt s' ->
  let cn := mkConstraint (CnId s) (Expr.new [ArgVariable variable]) Operator.Eq
                         (Strength.clip strength) in
  find variable (_editMap s) = None
  /\ (Strength.clip strength =? Strength.required) = false
  /\ exists s1 tag,
       addConstraint cn (set_CnId (CnId s + 1)%Z s) = Ok tt s1
       /\ find cn (_cnMap s1) = Some (cn, tag)
       /\ s' = set_editMap (insert variable (mkEditInfo tag cn 0) (_editMap s1)) s1.
Proof.
  intros Run cn. unfold addEditVariable, bind at 1, gets at 1 in Run.
  destruct (find variable (_editMap s)) as [item|] eqn:F; [discriminate Run|].
  split; [reflexivity|].
  destruct (Strength.clip strength =? Strength.required) eqn:Q; [discriminate Run|].
  split; [reflexivity|].
  unfold bind at 1, gets at 1 in Run. unfold bind at 1, modify at 1 in Run.
  unfold Constraint_new in Run. unfold bind at 1, defined at 1, ret at 1 in Run.
  assert (Cl : Strength.clip (Strength.clip strength) = Strength.clip strength).
  { destruct (Strength.required <=? strength) eqn:R.
    - rewrite (clip_at_least_required _ R). reflexivity.
    - destruct (is_nan strength) eqn:N.
      + unfold Strength.clip at 2 3, Math.min. rewrite N, orb_true_r.
        reflexivity.
      + assert (L : (strength <? Strength.required) = true)
          by (apply not_leb_ltb; trivial).
        rewrite (clip_below _ L). destruct (0 <? strength) eqn:P.
        * rewrite (clip_below _ L). now rewrite P.
        * reflexivity. }
  rewrite Cl in Run. fold cn in Run. cbn [CnId set_CnId] in Run.
  unfold bind at 1 in Run.
  destruct (addConstraint cn (set_CnId (CnId s + 1)%Z s)) as [[] s1|e s1|] eqn:A;
    try discriminate Run.
  assert (Fin : final (addConstraint cn (set_CnId (CnId s + 1)%Z s)) = Some s1)
    by now rewrite A.
  destruct (addConstraint_cnMap _ _ _ Fin) as [[_ N]|(Fc & [tag C] & _)];
    [now elim (N tt)|].
  assert (Fs : find cn (_cnMap s1) = Some (cn, tag)).
  { rewrite C. apply find_None in Fc.
    rewrite (find_app_other (H:=Constraint_HasId) cn _ _ Fc), find_cons.
    cbn [fst]. now rewrite Z.eqb_refl. }
  unfold bind at 1, gets at 1 in Run. rewrite Fs in Run.
  unfold bind at 1, defined at 1, ret at 1 in Run. cbn [snd] in Run.
  injection Run as <-. now exists s1, tag.
Qed.

(** [addEditVariable] that returns: the variable was no edit variable and
    the clipped strength is below [required]; the solver then holds the
    variable as an edit variable with the constant [0.0], and holds the
    constraint [variable = 0] made for it, with the next id of the counter,
    at the clipped strength. *)
Theorem addEditVariable_records_the_variable (variable : Var) (strength : float)
    (s s' : State) :
  addEditVariable variable strength s = Ok tt s' ->
  let cn := mkConstraint (CnId s) (Expr.new [ArgVariable variable]) Operator.Eq
                         (Strength.clip strength) in
  find variable (_editMap s) = None
  /\ (Strength.clip strength =? Strength.required) = false
  /\ hasEditVariable variable s' = Ok true s'
  /\ hasConstraint cn s' = Ok true s'
  /\ CnId s' = (CnId s + 1)%Z
  /\ exists tag,
       _editMap s' = _editMap s ++ [(variable, mkEditInfo tag cn 0)]
       /\ find cn (_cnMap s') = Some (cn, tag).
Proof.
  intros Run cn.
  destruct (addEditVariable_run _ _ _ _ Run) as (F & Q & s1 & tag & A & Fc & ->).
  fold cn in A, Fc.
  assert (K : kept (fun s => (_editMap s, CnId s)) (set_CnId (CnId s + 1)%Z s) s1).
  { assert (Fin : final (addConstraint cn (set_CnId (CnId s + 1)%Z s)) = Some s1)
      by now rewrite A.
    revert Fin. apply addConstraint_frames; frame_conditions. }
  unfold kept in K. cbn in K. injection K as Ke Kc.
  assert (I : insert variable (mkEditInfo tag cn 0) (_editMap s1)
              = _editMap s ++ [(variable, mkEditInfo tag cn 0)]).
  { rewrite Ke. apply insert_absent. now apply find_None. }
  split; [exact F|]. split; [exact Q|]. split; [|split; [|split]].
  - unfold hasEditVariable, gets. f_equal. rewrite contains_find. cbn [_editMap set_editMap].
    now rewrite (insert_find_key (H:=Variable_HasId)).
  - unfold hasConstraint, gets. f_equal. rewrite contains_find. cbn [_cnMap set_editMap].
    now rewrite Fc.
  - exact Kc.
  - exists tag. split; [exact I | exact Fc].
Qed.

Lemma addEditVariable_records_the_variable_witness :
  exists s',
    addEditVariable var_x Strength.strong (new_Solver 0 no_values) = Ok tt s'
    /\ hasEditVariable var_x s' = Ok true s'.
Proof.
  eexists. split; [vm_compute; reflexivity|].
  apply (addEditVariable_records_the_variable var_x Strength.strong (new_Solver 0 no_values)).
  vm_compute. reflexivity.
Defined.

(** [removeEditVariable], when the variables of [_editMap] and the
    constraints of [_cnMap] have distinct ids: however the call ends (it
    erases the variable from [_editMap] first), the variable is no edit
    variable afterwards, every other edit variable stays one, and the
    constraint that was made for the variable is gone from the solver. *)
Theorem removeEditVariable_forgets_the_variable (variable : Var) (s s' : State) :
  NoDup (ids (_editMap s)) -> NoDup (ids (_cnMap s)) ->
  final (removeEditVariable variable s) = Some s' ->
  hasEditVariable variable s' = Ok false s'
  /\ (forall other, var_id other <> var_id variable ->
        find other (_editMap s') = find other (_editMap s))
  /\ (forall item, find variable (_editMap s) = Some item ->
        hasConstraint (constraint (snd item)) s' = Ok false s').
Proof.
  intros De Dc. unfold removeEditVariable, bind at 1.
  pose proof (erase_fst (H:=Variable_HasId) variable (_editMap s)) as Ef.
  pose proof (erase_find_key (H:=Variable_HasId) variable (_editMap s) De) as Ek.
  pose proof (fun other => erase_find_other (H:=Variable_HasId) variable (_editMap s) other De)
    as Eo.
  destruct (erase variable (_editMap s)) as [erased edits]. cbn [fst snd] in *.
  set (s0 := set_editMap edits s).
  assert (Each : forall s1, _editMap s1 = edits ->
            hasEditVariable variable s1 = Ok false s1
            /\ (forall other, var_id other <> var_id variable ->
                  find other (_editMap s1) = find other (_editMap s))).
  { intros s1 E1. split.
    - unfold hasEditVariable, gets. f_equal. now rewrite contains_find, E1, Ek.
    - intros other O. rewrite E1. now apply Eo. }
  destruct erased as [item|].
  - intros E.
    assert (Ke : kept _editMap s0 s')
      by (revert E; apply removeConstraint_frames; frame_conditions).
    destruct (Each s' Ke) as [G1 G2]. split; [exact G1|]. split; [exact G2|].
    intros item' F'. rewrite <- Ef in F'. injection F' as <-.
    apply (removeConstraint_hasConstraint (constraint (snd item)) s0 s' Dc E).
  - intros [= <-]. destruct (Each s0 eq_refl) as [G1 G2].
    split; [exact G1|]. split; [exact G2|]. intros item F. congruence.
Qed.

Lemma removeEditVariable_forgets_the_variable_witness :
  exists s',
    removeEditVariable var_x bounded_edit = Ok tt s'
    /\ hasEditVariable var_x s' = Ok false s'.
Proof.
  eexists. split; [vm_compute; reflexivity|].
  apply (removeEditVariable_forgets_the_variable var_x bounded_edit).
  - distinct_ids.
  - distinct_ids.
  - vm_compute. reflexivity.
Defined.

(** [suggestValue] for a variable that is an edit variable: however the
    call ends (also when the dual simplex throws), the solver has recorded
    the value as the constant of the edit variable, from which the next
    suggestion takes its difference; and the call changes no constraint, no
    edit variable's tag or constraint, no symbol of a variable and neither
    counter. *)
Theorem suggestValue_records_the_value (fuel : nat) (variable : Var) (x : float)
    (s s' : State) (item : Var * EditInfo) :
  find variable (_editMap s) = Some item ->
  final (suggestValue fuel variable x s) = Some s' ->
  find variable (_editMap s')
    = Some (fst item, mkEditInfo (tag (snd item)) (constraint (snd item)) x)
  /\ (forall other, var_id other <> var_id variable ->
        find other (_editMap s') = find other (_editMap s))
  /\ _cnMap s' = _cnMap s /\ _varMap s' = _varMap s
  /\ _idTick s' = _idTick s /\ CnId s' = CnId s.
Proof.
  intros F E.
  assert (Moves : exists c : M unit,
            frames (kept (fun s => (_editMap s, _cnMap s, _varMap s, _idTick s, CnId s))) c
            /\ suggestValue fuel variable x s =
               c (set_editMap
                    (set_second variable
                       (mkEditInfo (tag (snd item)) (constraint (snd item)) x)
                       (_editMap s)) s))
    by (apply suggestValue_moves; trivial; frame_conditions).
  destruct Moves as (c & K & Run).
  rewrite Run in E. specialize (K _ _ E). unfold kept in K. cbn in K.
  injection K as -> -> -> -> ->.
  destruct (find_Some _ _ _ F) as (l1 & l2 & M & Ei & N).
  rewrite M, (set_second_middle variable _ l1 item l2 Ei N).
  repeat split.
  - now apply find_middle.
  - intros other O. apply find_replace; cbn [fst]; change (id_of (fst item)) with (var_id (fst item));
      change (id_of other) with (var_id other); change (id_of variable) with (var_id variable) in Ei;
      change (id_of (fst item)) with (var_id (fst item)) in Ei; congruence.
Qed.

Lemma suggestValue_records_the_value_witness :
  exists s' item,
    final (suggestValue 10 var_x 500 bounded_edit) = Some s'
    /\ find var_x (_editMap s') = Some (var_x, item) /\ info_constant item = 500.
Proof.
  destruct (suggestValue_records_the_value 10 var_x 500 bounded_edit
              (state_after (suggestValue 10 var_x 500) bounded_edit)
              (var_x, mkEditInfo edit_tag (edit_constraint var_x 0) 0))
    as (F & _).
  - vm_compute. reflexivity.
  - vm_compute. reflexivity.
  - eexists. eexists. split; [vm_compute; reflexivity|]. split; [exact F | reflexivity].
Defined.

(** ** The choice of the pivot *)

Module RatioFacts.

Lemma SFcompare_Lt_trans x y z :
  SFcompare x y = Some Lt -> SFcompare y z = Some Lt -> SFcompare x z = Some Lt.
Proof.
  destruct x as [sx|sx| |sx mx ex], y as [sy|sy| |sy my ey], z as [sz|sz| |sz mz ez];
    try destruct sx; try destruct sy; try destruct sz; cbn;
    try discriminate; try reflexivity;
    change (Pos.compare_cont Eq) with Pos.compare;
    intros A B; injection A as A; injection B as B; f_equal;
    destruct (Z.compare_spec ex ey), (Z.compare_spec ey ez), (Z.compare_spec ex ez);
    try discriminate; try reflexivity; try lia; subst;
    destruct (Pos.compare_spec mx my), (Pos.compare_spec my mz), (Pos.compare_spec mx mz);
    try discriminate; try reflexivity; try lia.
Qed.

Lemma ltb_trans x y z : (x <? y) = true -> (y <? z) = true -> (x <? z) = true.
Proof.
  rewrite !ltb_compare. apply SFcompare_Lt_trans.
Qed.

Lemma ltb_irrefl x : (x <? x) = false.
Proof.
  destruct (x <? x) eqn:E; [|reflexivity]. now rewrite (ltb_antisym _ _ E) in E.
Qed.

End RatioFacts.

Import RatioFacts.

Section LeastRatio.

(** The loop of a ratio test: over the items that are eligible, keep the
    first one whose ratio is below every ratio kept before, starting from
    [Number.MAX_VALUE]. *)
Context {T : Type} (eligible : T -> bool) (ratio : T -> float) (name : T -> Symbol).

Let step (acc : float * Symbol) (item : T) : float * Symbol :=
  if eligible item then
    if ratio item <? fst acc then (ratio item, name item) else acc
  else acc.

Lemma least_ratio_loop (l : list T) (acc : float * Symbol) :
  let res := fold_left step l acc in
  (res = acc
   \/ exists item, In item l /\ eligible item = true
                   /\ res = (ratio item, name item)
                   /\ (ratio item <? fst acc) = true)
  /\ forall item, In item l -> eligible item = true -> (ratio item <? fst res) = false.
Proof.
  revert acc. induction l as [|a l IH]; intros acc; cbn [fold_left].
  - split; [now left | intros item []].
  - destruct (IH (step acc a)) as [Res Least]. cbv zeta.
    set (res := fold_left step l (step acc a)) in *.
    assert (Below : res = step acc a \/ (fst res <? fst (step acc a)) = true).
    { destruct Res as [->|(item & _ & _ & -> & L)]; [now left | now right]. }
    split.
    + destruct Res as [->|(item & I & E & -> & L)].
      * unfold step. destruct (eligible a) eqn:Ea; [|now left].
        destruct (ratio a <? fst acc) eqn:La; [|now left].
        right. exists a. repeat split; trivial. now left.
      * right. exists item. split; [now right|]. split; [exact E|]. split; [reflexivity|].
        revert L. unfold step. destruct (eligible a); trivial.
        destruct (ratio a <? fst acc) eqn:La; trivial. cbn [fst]. intros L.
        now apply (ltb_trans _ _ _ L).
    + intros item [<-|I] E; [|now apply Least].
      destruct (ratio a <? fst res) eqn:L; [exfalso|reflexivity].
      revert Below. unfold step. rewrite E.
      destruct (ratio a <? fst acc) eqn:La.
      * cbn [fst]. intros [B|B].
        -- rewrite B in L. cbn [fst] in L. now rewrite ltb_irrefl in L.
        -- now rewrite (ltb_antisym _ _ B) in L.
      * intros [B|B].
        -- rewrite B in L. congruence.
        -- rewrite (ltb_trans _ _ _ L B) in La. discriminate La.
Qed.

End LeastRatio.

Lemma fold_left_ext_eq {A B} (f g : A -> B -> A) l a :
  (forall a b, f a b = g a b) -> fold_left f l a = fold_left g l a.
Proof.
  intros E. revert a. induction l as [|b l IH]; intros a; cbn; [reflexivity|].
  now rewrite E, IH.
Qed.

(** The ratio test of the simplex, [_getLeavingSymbol(entering)].  Among the
    rows that may leave, those whose basic symbol is not External and whose
    coefficient for the entering symbol is negative, it returns the basic
    symbol of one whose ratio [-constant / coefficient] is below
    [Number.MAX_VALUE] and not above the ratio of any other; and the invalid
    symbol when no such row has a ratio below [Number.MAX_VALUE].  A row of an
    External symbol never leaves. *)
Theorem leaving_symbol_has_the_least_ratio (rows : IndexedMap Symbol Row)
    (entering : Symbol) :
  let leaving := _getLeavingSymbol rows entering in
  let may_leave (item : Symbol * Row) :=
    negb (is_type SymbolType.External (fst item))
    && (coefficientFor entering (snd item) <? 0) in
  let ratio (item : Symbol * Row) :=
    - constant (snd item) / coefficientFor entering (snd item) in
  (leaving = INVALID_SYMBOL
   /\ forall item, In item rows -> may_leave item = true ->
                   (ratio item <? Math.MAX_VALUE) = false)
  \/ exists row,
       In (leaving, row) rows
       /\ may_leave (leaving, row) = true
       /\ (ratio (leaving, row) <? Math.MAX_VALUE) = true
       /\ forall item, In item rows -> may_leave item = true ->
                       (ratio item <? ratio (leaving, row)) = false.
Proof.
  intros leaving may_leave ratio.
  assert (E : leaving =
              snd (fold_left
                     (fun acc item =>
                        if may_leave item then
                          if ratio item <? fst acc then (ratio item, fst item) else acc
                        else acc)
                     rows (Math.MAX_VALUE, INVALID_SYMBOL))).
  { subst leaving. unfold _getLeavingSymbol. f_equal. apply fold_left_ext_eq.
    intros [r found] item. subst may_leave ratio. cbn [fst snd].
    destruct (is_type SymbolType.External (fst item)); cbn [negb andb]; trivial. }
  destruct (least_ratio_loop may_leave ratio fst rows (Math.MAX_VALUE, INVALID_SYMBOL))
    as [Res Least].
  cbv zeta in Res, Least. rewrite E.
  destruct Res as [R|(item & I & El & R & L)]; rewrite R in Least |- *; cbn [fst snd] in *.
  - left. split; [reflexivity | exact Least].
  - right. exists (snd item). rewrite <- surjective_pairing.
    split; [exact I|]. split; [exact El|]. split; [exact L | exact Least].
Qed.

(** The ratio test of the dual simplex, [_getDualEnteringSymbol(row)].
    Among the cells of the row with a positive coefficient [c] and a symbol
    that is not Dummy, it returns the symbol of one whose ratio
    [objective coefficient / c] is below [Number.MAX_VALUE] and not above the
    ratio of any other; and the invalid symbol when there is none. *)
Theorem dual_entering_symbol_has_the_least_ratio (objective row : Row) :
  let entering := _getDualEnteringSymbol objective row in
  let may_enter (cell : Symbol * float) :=
    (0 <? snd cell) && negb (is_type SymbolType.Dummy (fst cell)) in
  let ratio (cell : Symbol * float) := coefficientFor (fst cell) objective / snd cell in
  (entering = INVALID_SYMBOL
   /\ forall cell, In cell (cells row) -> may_enter cell = true ->
                   (ratio cell <? Math.MAX_VALUE) = false)
  \/ exists c,
       In (entering, c) (cells row)
       /\ may_enter (entering, c) = true
       /\ (ratio (entering, c) <? Math.MAX_VALUE) = true
       /\ forall cell, In cell (cells row) -> may_enter cell = true ->
                       (ratio cell <? ratio (entering, c)) = false.
Proof.
  intros entering may_enter ratio.
  assert (E : entering =
              snd (fold_left
                     (fun acc cell =>
                        if may_enter cell then
                          if ratio cell <? fst acc then (ratio cell, fst cell) else acc
                        else acc)
                     (cells row) (Math.MAX_VALUE, INVALID_SYMBOL))).
  { subst entering. unfold _getDualEnteringSymbol. f_equal. apply fold_left_ext_eq.
    intros [r found] cell. subst may_enter ratio. cbn [fst snd]. reflexivity. }
  destruct (least_ratio_loop may_enter ratio fst (cells row) (Math.MAX_VALUE, INVALID_SYMBOL))
    as [Res Least].
  cbv zeta in Res, Least. rewrite E.
  destruct Res as [R|(cell & I & El & R & L)]; rewrite R in Least |- *; cbn [fst snd] in *.
  - left. split; [reflexivity | exact Least].
  - right. exists (snd cell). rewrite <- surjective_pairing.
    split; [exact I|]. split; [exact El|]. split; [exact L | exact Least].
Qed.

Lemma entering_loop_spec (objective : Row) :
  let entering := _getEnteringSymbol objective in
  let improves (cell : Symbol * float) :=
    (snd cell <? 0) && negb (is_type SymbolType.Dummy (fst cell)) in
  (exists i c,
     nth_error (cells objective) i = Some (entering, c)
     /\ improves (entering, c) = true
     /\ forall j cell, (j < i)%nat -> nth_error (cells objective) j = Some cell ->
                       improves cell = false)
  \/ (entering = INVALID_SYMBOL
      /\ forall cell, In cell (cells objective) -> improves cell = false).
Proof.
  intros entering improves. subst entering. unfold _getEnteringSymbol.
  induction (cells objective) as [|cell cs IH]; cbn [entering_loop].
  - right. split; [reflexivity | intros cell []].
  - fold (improves cell). destruct (improves cell) eqn:E.
    + left. exists 0%nat, (snd cell). rewrite <- surjective_pairing.
      split; [reflexivity|]. split; [exact E|]. intros j c L. lia.
    + destruct IH as [(i & c & N & I & Before)|[-> None]].
      * left. exists (S i), c. split; [exact N|]. split; [exact I|].
        intros [|j] c' L; cbn [nth_error].
        -- now intros [= <-].
        -- apply Before. lia.
      * right. split; [reflexivity|]. intros c [<-|I]; [exact E | now apply None].
Qed.

(** The entering symbol of the simplex, [_getEnteringSymbol(objective)]: the
    symbol of the first cell of the objective, in the order of its cells,
    whose coefficient is negative and whose symbol is not Dummy; and the
    invalid symbol when there is no such cell. *)
Theorem entering_symbol_is_the_first_negative (objective : Row) :
  let entering := _getEnteringSymbol objective in
  let improves (cell : Symbol * float) :=
    (snd cell <? 0) && negb (is_type SymbolType.Dummy (fst cell)) in
  (exists i c,
     nth_error (cells objective) i = Some (entering, c)
     /\ improves (entering, c) = true
     /\ forall j cell, (j < i)%nat -> nth_error (cells objective) j = Some cell ->
                       improves cell = false)
  \/ (entering = INVALID_SYMBOL
      /\ forall cell, In cell (cells objective) -> improves cell = false).
Proof. apply entering_loop_spec. Qed.

(** [_optimize] returns only when no symbol can enter. *)
Lemma optimize_loop_returns n objective s s' :
  optimize_loop n objective s = Ok tt s' ->
  exists row, deref objective s' = Ok row s'
              /\ is_type SymbolType.Invalid (_getEnteringSymbol row) = true.
Proof.
  revert s. induction n as [|n IH]; intros s; cbn [optimize_loop]; [discriminate|].
  unfold bind at 1. destruct (deref objective s) as [row s0|e s0|] eqn:D; try discriminate.
  assert (S0 : s0 = s).
  { destruct objective; cbn [deref] in D.
    - now injection D as _ <-.
    - unfold bind, gets, defined, ret, throwTypeError in D.
      destruct (_artificial s); [now injection D as _ <- | discriminate D]. }
  subst s0. cbv zeta. destruct (is_type SymbolType.Invalid (_getEnteringSymbol row)) eqn:I.
  - intros [= <-]. now exists row.
  - unfold bind at 1, gets at 1.
    match goal with |- context [if ?b then _ else _] => destruct b end; [discriminate|].
    unfold bind at 1. destruct (rowMap_erase _ s) as [erased s1|e s1|]; try discriminate.
    unfold bind at 1. destruct (defined erased s1) as [item s2|e s2|]; try discriminate.
    unfold bind at 1. destruct (pivot _ _ _ s2) as [[] s3|e s3|]; try discriminate.
    apply IH.
Qed.

Lemma bind_Ok_inv {A B} (c : M A) (k : A -> M B) s b s' :
  bind c k s = Ok b s' -> exists a s1, c s = Ok a s1 /\ k a s1 = Ok b s'.
Proof.
  unfold bind. destruct (c s) as [a s1|e s1|]; try discriminate. intros E.
  now exists a, s1.
Qed.

Lemma optimize_returns s s' :
  _optimize TheObjective s = Ok tt s' ->
  is_type SymbolType.Invalid (_getEnteringSymbol (_objective s')) = true.
Proof.
  unfold _optimize, bind, gets. intros E.
  destruct (optimize_loop_returns _ _ _ _ E) as (row & D & I).
  cbn [deref] in D. unfold gets in D. now injection D as <-.
Qed.

Lemma addConstraint_returns constraint s s' :
  addConstraint constraint s = Ok tt s' ->
  is_type SymbolType.Invalid (_getEnteringSymbol (_objective s')) = true.
Proof.
  unfold addConstraint. intros E.
  apply bind_Ok_inv in E as (found & s0 & G & E). injection G as <- <-.
  destruct (find constraint (_cnMap s)); [discriminate E|].
  apply bind_Ok_inv in E as (data & s1 & _ & E). cbv zeta in E.
  assert (I : forall subject, install constraint subject (fst data) (snd data) s1 = Ok tt s' ->
                is_type SymbolType.Invalid (_getEnteringSymbol (_objective s')) = true).
  { intros subject In. unfold install in In.
    apply bind_Ok_inv in In as (? & s2 & _ & In).
    apply bind_Ok_inv in In as (? & s3 & _ & In). now apply optimize_returns in In. }
  destruct (is_type SymbolType.Invalid _ && allDummies _); [|now apply (I _ E)].
  destruct (negb _); [discriminate E | now apply (I _ E)].
Qed.

Lemma removeConstraint_returns constraint s s' :
  removeConstraint constraint s = Ok tt s' ->
  is_type SymbolType.Invalid (_getEnteringSymbol (_objective s')) = true.
Proof.
  unfold removeConstraint. intros E.
  apply bind_Ok_inv in E as (cnPair & s0 & _ & E).
  destruct cnPair as [item|]; [|discriminate E].
  apply bind_Ok_inv in E as (? & s1 & _ & E). cbv zeta in E.
  apply bind_Ok_inv in E as (rowPair & s2 & _ & E).
  apply bind_Ok_inv in E as (? & s3 & _ & E). now apply optimize_returns in E.
Qed.

(** Optimality: when [addConstraint], [removeConstraint], [addEditVariable]
    or [removeEditVariable] returns, [_getEnteringSymbol] finds no symbol to
    enter in the objective; so, in an objective that does not hold the invalid
    symbol, no cell of a symbol that is not Dummy has a negative
    coefficient. *)
Theorem returning_calls_end_at_an_optimum (s s' : State) :
  (exists constraint, addConstraint constraint s = Ok tt s')
  \/ (exists constraint, removeConstraint constraint s = Ok tt s')
  \/ (exists variable strength, addEditVariable variable strength s = Ok tt s')
  \/ (exists variable, removeEditVariable variable s = Ok tt s') ->
  is_type SymbolType.Invalid (_getEnteringSymbol (_objective s')) = true
  /\ ((forall cell, In cell (cells (_objective s')) ->
         sym_type (fst cell) <> SymbolType.Invalid) ->
      forall cell, In cell (cells (_objective s')) ->
        sym_type (fst cell) <> SymbolType.Dummy -> (snd cell <? 0) = false).
Proof.
  intros Run.
  assert (I : is_type SymbolType.Invalid (_getEnteringSymbol (_objective s')) = true).
  { destruct Run as [[c E]|[[c E]|[(v & k & E)|[v E]]]].
    - now apply addConstraint_returns in E.
    - now apply removeConstraint_returns in E.
    - destruct (addEditVariable_run _ _ _ _ E) as (_ & _ & s1 & tag & A & _ & ->).
      cbn [_objective set_editMap]. now apply addConstraint_returns in A.
    - unfold removeEditVariable in E. apply bind_Ok_inv in E as (editPair & s0 & _ & E).
      destruct editPair; [|discriminate E]. now apply removeConstraint_returns in E. }
  split; [exact I|]. intros Valid cell In_ ND.
  destruct (entering_loop_spec (_objective s'))
    as [(i & c & N & Im & _)|[_ None]].
  - exfalso. apply nth_error_In in N. apply (Valid _ N). cbn [fst].
    unfold is_type in I. now apply SymbolType_eqb_eq in I.
  - specialize (None cell In_). apply andb_false_iff in None as [L|D]; [exact L|].
    exfalso. apply ND. apply negb_false_iff in D. unfold is_type in D.
    now apply SymbolType_eqb_eq in D.
Qed.

Lemma returning_calls_end_at_an_optimum_witness :
  is_type SymbolType.Invalid (_getEnteringSymbol (_objective holding_x_is_5)) = true.
Proof.
  apply (returning_calls_end_at_an_optimum (new_Solver 1 no_values) holding_x_is_5).
  left. exists x_is_5. vm_compute. reflexivity.
Defined.

(** ** Counters *)

(** Symbols and constraint ids are not reused: no call makes the counter of
    symbol ids or the counter of constraint ids go down, whether it returns
    or throws. *)
Theorem counters_never_go_down (ms : list Public.Method) (s s' : State) :
  Public.after_all ms s = Some s' ->
  (_idTick s <= _idTick s')%Z /\ (CnId s <= CnId s')%Z.
Proof.
  revert s. induction ms as [|m ms IH]; intros s; cbn [Public.after_all].
  - intros [= <-]. lia.
  - destruct (Public.after m s) as [s1|] eqn:E; [|discriminate].
    intros Rest. specialize (IH s1 Rest).
    set (R := fun s s' : State => (_idTick s <= _idTick s')%Z /\ (CnId s <= CnId s')%Z).
    assert (K : R s s1).
    { destruct m; cbn [Public.after] in E; revert E;
        [ apply (addConstraint_frames R) | apply (createConstraint_frames R)
        | apply (removeConstraint_frames R) | apply (addEditVariable_frames R)
        | apply (removeEditVariable_frames R) | apply (suggestValue_frames R) ];
        subst R; intros; cbn in *; lia. }
    subst R. cbv beta in K. lia.
Qed.

Lemma counters_never_go_down_witness :
  exists s',
    Public.after_all calls_with_a_throw (new_Solver 0 no_values) = Some s'
    /\ (0 <= _idTick s')%Z /\ (0 <= CnId s')%Z.
Proof.
  eexists. split; [vm_compute; reflexivity|].
  apply (counters_never_go_down calls_with_a_throw (new_Solver 0 no_values)).
  vm_compute. reflexivity.
Defined.

(** The symbols [_createRow] tags a constraint with are new ones, made by
    the call: the marker is a Slack symbol for an inequality, an Error symbol
    for an equality that is not required and a Dummy symbol for a required
    equality; the other symbol is a second new Error symbol when the
    constraint is not required, and the invalid symbol when it is. *)
Theorem createRow_tags_with_new_symbols (constraint : Cn) (s s' : State)
    (row : Row) (tag : Tag) :
  _createRow constraint s = Ok (row, tag) s' ->
  (_idTick s <= sym_id (marker tag) < _idTick s')%Z
  /\ sym_type (marker tag) =
     match op constraint with
     | Operator.Eq =>
         if strength constraint <? Strength.required then SymbolType.Error
         else SymbolType.Dummy
     | _ => SymbolType.Slack
     end
  /\ if strength constraint <? Strength.required
     then sym_type (other tag) = SymbolType.Error
          /\ (_idTick s <= sym_id (other tag) < _idTick s')%Z
          /\ sym_id (other tag) <> sym_id (marker tag)
     else other tag = INVALID_SYMBOL.
Proof.
  unfold _createRow. intros E.
  apply bind_Ok_inv in E as (row1 & s1 & T & E).
  assert (K : (_idTick s <= _idTick s1)%Z).
  { assert (Fin : final (createRow_terms (terms (expression constraint))
                           (RowOps.new (Some (expr_constant (expression constraint)))) s)
                  = Some s1) by now rewrite T.
    set (R := fun s s' : State => (_idTick s <= _idTick s')%Z).
    change (R s s1). revert Fin.
    apply (createRow_terms_frames R); subst R; intros; cbn in *; lia. }
  cbv zeta in E. apply bind_Ok_inv in E as (created & s2 & C & E).
  unfold ret in E. injection E as _ <- <-.
  destruct (op constraint); destruct (strength constraint <? Strength.required);
    unfold bind, _makeSymbol, objective_insertSymbol, modify, ret in C;
    injection C as <- <-; cbn; repeat split; lia.
Qed.

Lemma createRow_tags_with_new_symbols_witness :
  redundant_tag = mkTag (mkSymbol SymbolType.Dummy 2) INVALID_SYMBOL
  /\ (_idTick holding_x_is_5 <= 2 < _idTick (state_after (_createRow x_is_5_again) holding_x_is_5))%Z.
Proof.
  split; [reflexivity|].
  apply (createRow_tags_with_new_symbols x_is_5_again holding_x_is_5
           (state_after (_createRow x_is_5_again) holding_x_is_5)
           redundant_row redundant_tag).
  vm_compute. reflexivity.
Defined.

(** [createConstraint] takes the id of the new constraint from the counter
    and moves the counter on by one, also when the add throws; when it
    returns, the solver holds the constraint it returns, whose strength is
    the clipped one ([required] when none is given). *)
Theorem createConstraint_numbers_the_constraint (lhs : Var + Expression)
    (operator : Operator.t) (rhs : Operand) (strength0 : option float) (s : State) :
  (forall s', final (createConstraint lhs operator rhs strength0 s) = Some s' ->
              CnId s' = (CnId s + 1)%Z)
  /\ (forall cn s', createConstraint lhs operator rhs strength0 s = Ok cn s' ->
        cn_id cn = CnId s
        /\ op cn = operator
        /\ strength cn =
           Strength.clip (match strength0 with None => Strength.required | Some k => k end)
        /\ hasConstraint cn s' = Ok true s').
Proof.
  assert (New : exists cn,
            Constraint_new (CnId s) lhs operator (Some rhs) strength0 = Some cn
            /\ cn_id cn = CnId s /\ op cn = operator
            /\ strength cn =
               Strength.clip (match strength0 with None => Strength.required | Some k => k end)).
  { unfold Constraint_new. destruct lhs; eexists; repeat split. }
  destruct New as (cn & N & Id & Op & St).
  assert (Run : createConstraint lhs operator rhs strength0 s =
                (addConstraint cn ;; ret cn) (set_CnId (CnId s + 1)%Z s)).
  { unfold createConstraint, bind at 1, gets at 1. unfold bind at 1, modify at 1.
    unfold bind at 1. now rewrite N. }
  rewrite Run. split.
  - intros s' E.
    assert (K : kept CnId (set_CnId (CnId s + 1)%Z s) s').
    { revert E. apply framed_bind; try frame_conditions.
      - apply addConstraint_frames; frame_conditions.
      - intros _. apply framed_ret; frame_conditions. }
    exact K.
  - intros cn' s' E. apply bind_Ok_inv in E as ([] & s1 & A & E).
    injection E as <- <-. repeat split; trivial.
    now apply addConstraint_hasConstraint in A.
Qed.

(** ** Edges *)

Lemma optimize_needs_an_iteration objective s s' :
  _optimize objective s = Ok tt s' -> (0 < maxIterations s)%nat.
Proof.
  unfold _optimize, bind, gets. destruct (maxIterations s); [discriminate | lia].
Qed.

(** The bound on iterations is tested before the objective is looked at:
    with [maxIterations = 0], no [addConstraint], [removeConstraint],
    [addEditVariable] or [removeEditVariable] returns, whatever the
    constraint. *)
Theorem no_iteration_no_return (s : State) :
  maxIterations s = 0%nat ->
  (forall constraint s', addConstraint constraint s <> Ok tt s')
  /\ (forall constraint s', removeConstraint constraint s <> Ok tt s')
  /\ (forall variable strength s', addEditVariable variable strength s <> Ok tt s')
  /\ (forall variable s', removeEditVariable variable s <> Ok tt s').
Proof.
  intros Z.
  assert (Add : forall s0 constraint s',
            maxIterations s0 = 0%nat -> addConstraint constraint s0 <> Ok tt s').
  { intros s0 constraint s' Z0 E. unfold addConstraint in E.
    apply bind_Ok_inv in E as (found & s1 & G & E). injection G as <- <-.
    destruct (find constraint (_cnMap s0)); [discriminate E|].
    apply bind_Ok_inv in E as (data & s1 & C & E). cbv zeta in E.
    assert (K1 : kept maxIterations s0 s1).
    { assert (Fin : final (_createRow constraint s0) = Some s1) by now rewrite C.
      revert Fin. apply createRow_frames; frame_conditions. }
    assert (I : forall subject,
              install constraint subject (fst data) (snd data) s1 <> Ok tt s').
    { intros subject In. unfold install in In.
      apply bind_Ok_inv in In as (? & s2 & P & In).
      apply bind_Ok_inv in In as (? & s3 & Mo & In).
      apply optimize_needs_an_iteration in In. injection Mo as _ <-.
      assert (K2 : kept maxIterations s1 s2).
      { assert (Fin : final
                  ((if is_type SymbolType.Invalid subject
                    then added <- _addWithArtificialVariable (fst data) ;;
                         if negb added then throw "unsatisfiable constraint" else ret tt
                    else row <- defined (solveFor subject (fst data)) ;;
                         _substitute subject row ;; rowMap_insert subject row) s1)
                  = Some s2) by now rewrite P.
        revert Fin. destruct (is_type SymbolType.Invalid subject).
        - apply framed_bind; try frame_conditions.
          + apply addWithArtificialVariable_frames; frame_conditions.
          + intros added. destruct (negb added);
              [apply framed_throw | apply framed_ret]; frame_conditions.
        - apply framed_bind; try frame_conditions.
          + apply framed_defined; frame_conditions.
          + intros solved. apply framed_bind; try frame_conditions.
            * apply substitute_frames; frame_conditions.
            * intros _. apply rowMap_insert_frames; frame_conditions. }
      unfold kept in K1, K2. cbn in In. lia. }
    destruct (is_type SymbolType.Invalid _ && allDummies _); [|now apply (I _ E)].
    destruct (negb _); [discriminate E | now apply (I _ E)]. }
  assert (Remove : forall s0 constraint s',
            maxIterations s0 = 0%nat -> removeConstraint constraint s0 <> Ok tt s').
  { intros s0 constraint s' Z0 E.
    assert (K : kept maxIterations s0 s').
    { assert (Fin : final (removeConstraint constraint s0) = Some s') by now rewrite E.
      revert Fin. apply removeConstraint_frames; frame_conditions. }
    unfold removeConstraint in E.
    apply bind_Ok_inv in E as (cnPair & s1 & _ & E).
    destruct cnPair as [item|]; [|discriminate E].
    apply bind_Ok_inv in E as (? & s2 & _ & E). cbv zeta in E.
    apply bind_Ok_inv in E as (rowPair & s3 & _ & E).
    apply bind_Ok_inv in E as (? & s4 & _ & E).
    assert (K4 : kept maxIterations s4 s').
    { assert (Fin : final (_optimize TheObjective s4) = Some s') by now rewrite E.
      revert Fin. apply optimize_frames; frame_conditions. }
    apply optimize_needs_an_iteration in E. unfold kept in K, K4. lia. }
  split; [intros c s'; now apply Add|]. split; [intros c s'; now apply Remove|]. split.
  - intros variable strength s' E.
    destruct (addEditVariable_run _ _ _ _ E) as (_ & _ & s1 & tag & A & _).
    revert A. now apply Add.
  - intros variable s' E. unfold removeEditVariable in E.
    apply bind_Ok_inv in E as (editPair & s0 & Er & E).
    destruct editPair; [|discriminate E]. revert E. apply Remove.
    destruct (erase variable (_editMap s)). now injection Er as _ <-.
Qed.

(** With [maxIterations = 0] on a new solver, the add of the required
    [x = 5] throws 'solver iterations exceeded', and the solver holds the
    constraint all the same. *)
Lemma no_iteration_no_return_witness :
  (forall constraint s',
     addConstraint constraint (with_maxIterations 0 (new_Solver 1 no_values)) <> Ok tt s')
  /\ exists s',
       addConstraint x_is_5 (with_maxIterations 0 (new_Solver 1 no_values))
       = Throw (JsError "solver iterations exceeded") s'
       /\ hasConstraint x_is_5 s' = Ok true s'.
Proof.
  split.
  - apply (no_iteration_no_return (with_maxIterations 0 (new_Solver 1 no_values))).
    reflexivity.
  - eexists. split; vm_compute; reflexivity.
Defined.

(** [updateVariables()] twice is [updateVariables()] once: the second call
    returns and leaves every variable with the value the first gave it. *)
Theorem updateVariables_twice_is_once (s : State) :
  NoDup (ids (_varMap s)) ->
  exists s1 s2,
    updateVariables s = Ok tt s1
    /\ updateVariables s1 = Ok tt s2
    /\ forall v, value v s2 = value v s1.
Proof.
  intros D.
  destruct (update_loop_spec (_varMap s) s) as (values1 & Run1 & Out1 & In1).
  set (s1 := set_var_values values1 s).
  destruct (update_loop_spec (_varMap s1) s1) as (values2 & Run2 & Out2 & In2).
  exists s1, (set_var_values values2 s1). unfold updateVariables, bind, gets.
  split; [exact Run1|]. split; [exact Run2|].
  intros v. unfold value. cbn [var_values set_var_values].
  change (var_values s1) with values1 in *.
  destruct (in_dec Z.eq_dec (var_id v) (ids (_varMap s))) as [I|N].
  - destruct (ids_In (H:=Variable_HasId) _ _ I) as ([v' symbol] & Iv & E). cbn [fst] in E.
    change (id_of v') with (var_id v') in E. rewrite <- E.
    rewrite (In2 D v' symbol Iv). now rewrite (In1 D v' symbol Iv).
  - rewrite (Out2 _ N). reflexivity.
Qed.

Lemma updateVariables_twice_is_once_witness :
  exists s1 s2,
    updateVariables holding_x_is_5 = Ok tt s1
    /\ updateVariables s1 = Ok tt s2
    /\ forall v, value v s2 = value v s1.
Proof.
  apply (updateVariables_twice_is_once holding_x_is_5).
  vm_compute. repeat constructor. intros [].
Defined.

(** ** Expressions *)

Module ExpressionLaws.

Lemma find_same_id (a b : Var) (m : IndexedMap Var float) :
  var_id a = var_id b -> find a m = find b m.
Proof.
  intros E. unfold find.
  assert (I : index_of a m = index_of b m).
  { induction m as [|item m IH]; cbn; [reflexivity|].
    change (id_of a) with (var_id a). change (id_of b) with (var_id b).
    now rewrite E, IH. }
  now rewrite I.
Qed.

Lemma sum_of_app cs k : sum_of (cs ++ [k]) = sum_of cs + k.
Proof. unfold sum_of. now rewrite fold_left_app. Qed.

Lemma collected_ext ts C C' : (forall id, C id = C' id) -> collected ts C -> collected ts C'.
Proof. intros E [D F]. split; trivial. intros v. rewrite <- E. apply F. Qed.

Lemma add_term_collected w k ts C :
  collected ts C ->
  collected (Expr.add_term w k ts)
            (fun id => C id ++ if has_id id w then [k] else []).
Proof.
  intros [D F]. unfold Expr.add_term.
  pose proof (setDefault_find_key (H:=Variable_HasId) w (fun _ => 0) ts) as Fk.
  pose proof (setDefault_find_other (H:=Variable_HasId) w (fun _ => 0) ts) as Fo.
  pose proof (setDefault_NoDup (H:=Variable_HasId) w (fun _ => 0) ts D) as D1.
  assert (Old : snd (fst (setDefault w (fun _ => 0) ts)) = sum_of (C (var_id w))).
  { specialize (F w). unfold setDefault. destruct (C (var_id w)).
    - now rewrite F.
    - destruct F as [v' ->]. reflexivity. }
  destruct (setDefault w (fun _ => 0) ts) as [item ts1]. cbn [fst snd] in *.
  split; [now rewrite (set_second_ids (H:=Variable_HasId))|].
  intros v. unfold has_id. destruct (Z.eqb_spec (var_id w) (var_id v)) as [E|N].
  - rewrite (find_same_id v w) by congruence.
    rewrite (set_second_find_key (H:=Variable_HasId) w _ ts1 item Fk).
    rewrite <- E, Old, <- sum_of_app.
    destruct (C (var_id w) ++ [k]) as [|c cs] eqn:A; [now destruct (C (var_id w))|].
    now exists (fst item).
  - rewrite app_nil_r.
    rewrite (set_second_find_other (H:=Variable_HasId) w _ ts1 v)
      by (change (id_of v) with (var_id v); change (id_of w) with (var_id w); congruence).
    rewrite Fo
      by (change (id_of v) with (var_id v); change (id_of w) with (var_id w); congruence).
    apply F.
Qed.

(** The loop over the terms of an expression given as an argument. *)
Lemma add_terms_collected (scale : float -> float) ts2 acc C :
  collected (terms acc) C ->
  let acc' :=
    fold_left
      (fun acc2 termPair =>
         mkExpression (Expr.add_term (fst termPair) (scale (snd termPair)) (terms acc2))
                      (expr_constant acc2))
      ts2 acc in
  collected (terms acc')
            (fun id => C id ++ map (fun t => scale (snd t))
                                   (filter (fun t => has_id id (fst t)) ts2))
  /\ expr_constant acc' = expr_constant acc.
Proof.
  revert acc C. induction ts2 as [|t ts2 IH]; intros acc C H; cbn [fold_left filter map].
  - split; [|reflexivity]. apply (collected_ext _ C); trivial.
    intros id. now rewrite app_nil_r.
  - destruct (IH (mkExpression (Expr.add_term (fst t) (scale (snd t)) (terms acc))
                               (expr_constant acc)) _
                 (add_term_collected (fst t) (scale (snd t)) _ _ H)) as [H' K].
    split; [|exact K]. eapply collected_ext; [|exact H'].
    intros id. cbv beta. rewrite <- app_assoc. f_equal.
    destruct (has_id id (fst t)); reflexivity.
Qed.

(** One argument. *)
Lemma parse_arg_collected acc a C c0 :
  collected (terms acc) C -> expr_constant acc = sum_of c0 ->
  exists acc',
    parse_item acc (js_of_arg a) = inl acc'
    /\ fold_left
         (fun acc item =>
            match item with
            | ArgNumber n => mkExpression (terms acc) (expr_constant acc + n)
            | ArgVariable v =>
                mkExpression (Expr.add_term v 1.0 (terms acc)) (expr_constant acc)
            | ArgExpression e =>
                fold_left
                  (fun acc2 termPair =>
                     mkExpression (Expr.add_term (fst termPair) (snd termPair) (terms acc2))
                                  (expr_constant acc2))
                  (terms e)
                  (mkExpression (terms acc) (expr_constant acc + expr_constant e))
            | ArgPairVariable value v =>
                mkExpression (Expr.add_term v value (terms acc)) (expr_constant acc)
            | ArgPairExpression value e =>
                fold_left
                  (fun acc2 termPair =>
                     mkExpression
                       (Expr.add_term (fst termPair) (snd termPair * value) (terms acc2))
                       (expr_constant acc2))
                  (terms e)
                  (mkExpression (terms acc) (expr_constant acc + expr_constant e * value))
            end) [a] acc = acc'
    /\ collected (terms acc') (fun id => C id ++ addends id a)
    /\ expr_constant acc' = sum_of (c0 ++ constant_addends a).
Proof.
  intros H K. destruct a as [n|v|e|k v|k e]; cbn [js_of_arg parse_item fold_left];
    eexists; (split; [reflexivity|]); (split; [reflexivity|]); cbn [addends constant_addends].
  - cbn [terms expr_constant]. split.
    + apply (collected_ext _ C); trivial. intros id. now rewrite app_nil_r.
    + now rewrite sum_of_app, K.
  - cbn [terms expr_constant]. split; [now apply add_term_collected|].
    now rewrite app_nil_r.
  - destruct (add_terms_collected (fun c => c) (terms e)
                (mkExpression (terms acc) (expr_constant acc + expr_constant e)) C H)
      as [H' K'].
    split; [exact H'|]. rewrite K'. cbn [expr_constant]. now rewrite sum_of_app, K.
  - cbn [terms expr_constant]. split; [now apply add_term_collected|].
    now rewrite app_nil_r.
  - destruct (add_terms_collected (fun c => c * k) (terms e)
                (mkExpression (terms acc) (expr_constant acc + expr_constant e * k)) C H)
      as [H' K'].
    split; [exact H'|]. rewrite K'. cbn [expr_constant]. now rewrite sum_of_app, K.
Qed.

Lemma parse_args_collected args acc C c0 :
  collected (terms acc) C -> expr_constant acc = sum_of c0 ->
  exists acc',
    parse_items (map js_of_arg args) acc = inl acc'
    /\ fold_left
         (fun acc item =>
            match item with
            | ArgNumber n => mkExpression (terms acc) (expr_constant acc + n)
            | ArgVariable v =>
                mkExpression (Expr.add_term v 1.0 (terms acc)) (expr_constant acc)
            | ArgExpression e =>
                fold_left
                  (fun acc2 termPair =>
                     mkExpression (Expr.add_term (fst termPair) (snd termPair) (terms acc2))
                                  (expr_constant acc2))
                  (terms e)
                  (mkExpression (terms acc) (expr_constant acc + expr_constant e))
            | ArgPairVariable value v =>
                mkExpression (Expr.add_term v value (terms acc)) (expr_constant acc)
            | ArgPairExpression value e =>
                fold_left
                  (fun acc2 termPair =>
                     mkExpression
                       (Expr.add_term (fst termPair) (snd termPair * value) (terms acc2))
                       (expr_constant acc2))
                  (terms e)
                  (mkExpression (terms acc) (expr_constant acc + expr_constant e * value))
            end) args acc = acc'
    /\ collected (terms acc') (fun id => C id ++ flat_map (addends id) args)
    /\ expr_constant acc' = sum_of (c0 ++ flat_map constant_addends args).
Proof.
  revert acc C c0. induction args as [|a args IH]; intros acc C c0 H K.
  - exists acc. cbn [map parse_items fold_left flat_map]. repeat split; trivial.
    + apply H.
    + intros v. rewrite app_nil_r. apply H.
    + now rewrite app_nil_r.
  - destruct (parse_arg_collected acc a C c0 H K) as (acc1 & P1 & F1 & H1 & K1).
    destruct (IH acc1 _ _ H1 K1) as (acc' & P & F & H' & K').
    exists acc'. cbn [map parse_items]. rewrite P1. split; [exact P|].
    cbn [fold_left] in F1 |- *. rewrite F1. split; [exact F|]. split.
    + eapply collected_ext; [|exact H']. intros id. cbn [flat_map].
      now rewrite app_assoc.
    + rewrite K'. cbn [flat_map]. now rewrite app_assoc.
Qed.

Lemma parse_items_stops good bad rest acc msg :
  (forall acc0, parse_item acc0 bad = inr msg) ->
  parse_items (map js_of_arg good ++ bad :: rest) acc = inr msg.
Proof.
  intros B. revert acc. induction good as [|a good IH]; intros acc; cbn [map app parse_items].
  - now rewrite B.
  - destruct a; cbn [js_of_arg parse_item]; apply IH.
Qed.

End ExpressionLaws.

Import ExpressionLaws.

Lemma parseArgs_constant args :
  expr_constant (Expr.parseArgs args) = sum_of (flat_map constant_addends args).
Proof.
  destruct (parse_args_collected args (mkExpression createMap 0) (fun _ => []) [])
    as (acc' & _ & F & _ & K).
  - split; [constructor | intros v; reflexivity].
  - reflexivity.
  - unfold Expr.parseArgs. now rewrite F.
Qed.

(** What [new Expression(...args)] holds, for arguments of the kinds it
    accepts: its terms have distinct variables; its constant is the sum, from
    [0.0] and in the order of the arguments, of the numbers and of the
    constants of the expressions given (times the factor of a pair); and a
    variable has a term exactly when some argument mentions it, with the
    coefficient that is the sum, from [0.0] and in that order, of what the
    arguments give for it. *)
Theorem parseArgs_sums_by_variable (args : list Arg) :
  NoDup (ids (terms (Expr.parseArgs args)))
  /\ expr_constant (Expr.parseArgs args) = sum_of (flat_map constant_addends args)
  /\ forall v,
       match flat_map (addends (var_id v)) args with
       | [] => find v (terms (Expr.parseArgs args)) = None
       | cs => exists v', find v (terms (Expr.parseArgs args)) = Some (v', sum_of cs)
       end.
Proof.
  destruct (parse_args_collected args (mkExpression createMap 0) (fun _ => []) [])
    as (acc' & _ & F & [D H] & K).
  - split; [constructor | intros v; reflexivity].
  - reflexivity.
  - unfold Expr.parseArgs. rewrite F. repeat split; trivial.
Qed.

(** The errors of [new Expression(...args)].  On arguments of the kinds it
    accepts, [parseArgs] returns the expression; and the first argument of
    another kind, behind arguments it accepts, decides the error, whatever
    follows: an array that is no pair, a pair whose first item is no number,
    a pair whose second item is neither a variable nor an expression, or a
    value of another kind. *)
Theorem parseArgs_throws_for_the_first_bad_argument (good : list Arg)
    (rest : list JsValue) :
  parseArgs_js (map js_of_arg good) = inl (Expr.parseArgs good)
  /\ (forall items, length items <> 2%nat ->
        parseArgs_js (map js_of_arg good ++ JsArray items :: rest)
        = inr "array must have length 2")
  /\ (forall x y, (forall n, x <> JsNumber n) ->
        parseArgs_js (map js_of_arg good ++ JsArray [x; y] :: rest)
        = inr "array item 0 must be a number")
  /\ (forall k y, (forall v, y <> JsVariable v) -> (forall e, y <> JsExpression e) ->
        parseArgs_js (map js_of_arg good ++ JsArray [JsNumber k; y] :: rest)
        = inr "array item 1 must be a variable or expression")
  /\ (forall shown,
        parseArgs_js (map js_of_arg good ++ JsOther shown :: rest)
        = inr (String.append "invalid Expression argument: " shown)).
Proof.
  split.
  { destruct (parse_args_collected good (mkExpression createMap 0) (fun _ => []) [])
      as (acc' & P & F & _).
    - split; [constructor | intros v; reflexivity].
    - reflexivity.
    - unfold parseArgs_js, Expr.parseArgs. now rewrite P, F. }
  unfold parseArgs_js. repeat split.
  - intros items L. apply parse_items_stops. intros acc0. cbn [parse_item].
    destruct items as [|x [|y [|z items]]]; trivial. now elim L.
  - intros x y N. apply parse_items_stops. intros acc0. cbn [parse_item].
    destruct x; trivial. now elim (N n).
  - intros k y Nv Ne. apply parse_items_stops. intros acc0. cbn [parse_item].
    destruct y; trivial; [now elim (Nv v) | now elim (Ne e)].
  - intros shown. now apply parse_items_stops.
Qed.

(** The third argument of [new Constraint(expression, operator, rhs)] is the
    right-hand side, never the strength: for a number [k] the constraint is
    [expression - k], required.  The usage example of the README keeps to
    this and ends with [right.value()] at 500, as it asserts.  The example of
    the module documentation, which sets [maxIterations] to 20000 first,
    passes [Strength.required] there, and so ends with [centerX.value()] at
    [250 - 1001001000], not at the 250 it asserts. *)
Theorem third_argument_is_the_right_hand_side (id : Z) (e : Expression)
    (operator : Operator.t) (k : float) :
  (exists cn,
     Constraint_new id (inr e) operator (Some (OpNumber k)) None = Some cn
     /\ strength cn = Strength.required
     /\ expr_constant (expression cn) = 0 + expr_constant e + - k)
  /\ (exists s,
        readme (new_Solver 0 no_values) = Ok tt s /\ value var_right s = 500)
  /\ match documented_example (with_maxIterations (20 * 1000) (new_Solver 0 no_values)) with
     | Ok _ s => value var_centerX s = -1001000750 /\ (value var_centerX s =? 250) = false
     | Throw _ _ | Diverge => False
     end.
Proof.
  split; [|split].
  - eexists. split; [reflexivity|]. split; [reflexivity|].
    cbn [expression]. unfold Expression_minus, Expr.new.
    rewrite parseArgs_constant. reflexivity.
  - eexists. split; [vm_compute; reflexivity | reflexivity].
  - vm_compute. split; reflexivity.
Qed.

(** ** The solved form of the tableau *)

Module SolvedForm.

Lemma reverseSign_ids r : cell_ids (reverseSign r) = cell_ids r.
Proof. unfold cell_ids, reverseSign, ids. cbn [cells]. now rewrite map_map. Qed.

Lemma solveFor_ids symbol r r' :
  NoDup (cell_ids r) -> solveFor symbol r = Some r' ->
  NoDup (cell_ids r')
  /\ In (sym_id symbol) (cell_ids r)
  /\ forall x, In x (cell_ids r') -> In x (cell_ids r) /\ x <> sym_id symbol.
Proof.
  intros D. unfold solveFor.
  pose proof (erase_fst (H:=Symbol_HasId) symbol (cells r)) as Ef.
  destruct (erase_NoDup (H:=Symbol_HasId) symbol (cells r) D) as (D' & N' & Sub & _).
  destruct (erase symbol (cells r)) as [[item|] rest]; [|discriminate].
  cbn [fst snd] in *. intros [= <-]. unfold cell_ids. cbn [cells]. rewrite ids_scaled.
  split; [exact D'|]. split.
  - symmetry in Ef. destruct (find_In _ _ _ Ef) as [I E].
    change (id_of symbol) with (sym_id symbol) in E. rewrite <- E.
    now apply (In_ids (H:=Symbol_HasId)).
  - intros x I. split.
    + destruct (ids_In (H:=Symbol_HasId) _ _ I) as (p & Ip & <-).
      apply (In_ids (H:=Symbol_HasId)). now apply Sub.
    + intros ->. now apply N'.
Qed.

Lemma solveForEx_ids lhs rhs r r' :
  NoDup (cell_ids r) -> solveForEx lhs rhs r = Some r' ->
  NoDup (cell_ids r')
  /\ (In (sym_id rhs) (cell_ids r) \/ sym_id rhs = sym_id lhs)
  /\ forall x, In x (cell_ids r') ->
               (In x (cell_ids r) \/ x = sym_id lhs) /\ x <> sym_id rhs.
Proof.
  intros D S. unfold solveForEx in S.
  destruct (solveFor_ids rhs _ r' (insertSymbol_NoDup lhs (-1) r D) S) as (D' & I & Sub).
  split; [exact D'|]. split; [now apply insertSymbol_ids in I|].
  intros x Ix. destruct (Sub x Ix) as [Ix' N]. split; [|exact N].
  now apply insertSymbol_ids in Ix'.
Qed.

Lemma substitute_rows_fst symbol row rows infeasible :
  fst (substitute_rows symbol row rows infeasible)
  = map (fun item => (fst item, substitute symbol row (snd item))) rows.
Proof.
  pose proof (substitute_rows_spec symbol row rows infeasible) as Sp.
  destruct (substitute_rows symbol row rows infeasible). now destruct Sp.
Qed.

Lemma rows_below_le n m rows : rows_below n rows -> (n <= m)%Z -> rows_below m rows.
Proof.
  intros B L item I. destruct (B item I) as [K C]. split; [lia|].
  intros x Ix. specialize (C x Ix). lia.
Qed.

Lemma erased_wf key rows n :
  wf rows -> rows_below n rows ->
  wf (snd (erase key rows))
  /\ rows_below n (snd (erase key rows))
  /\ (forall x, In x (ids (snd (erase key rows))) -> In x (ids rows))
  /\ match fst (erase key rows) with
     | Some item =>
         In item rows /\ sym_id (fst item) = sym_id key
         /\ ~ In (sym_id key) (ids (snd (erase key rows)))
     | None => True
     end.
Proof.
  intros [K C P] B.
  destruct (erase_NoDup (H:=Symbol_HasId) key rows K) as (K' & N' & Sub & _).
  assert (SubI : forall x, In x (ids (snd (erase key rows))) -> In x (ids rows)).
  { intros x I. destruct (ids_In (H:=Symbol_HasId) _ _ I) as (p & Ip & <-).
    apply (In_ids (H:=Symbol_HasId)). now apply Sub. }
  split; [|split; [|split]].
  - split; [exact K'| |].
    + intros item I. apply C. now apply Sub.
    + intros item x I Ix. apply P; [now apply Sub | now apply SubI].
  - intros item I. apply B. now apply Sub.
  - exact SubI.
  - rewrite (erase_fst (H:=Symbol_HasId)). destruct (find key rows) as [item|] eqn:F; trivial.
    destruct (find_In _ _ _ F) as [I E]. split; [exact I|]. split; [exact E | exact N'].
Qed.

Lemma substituted_wf marker row' rows0 n :
  wf rows0 -> rows_below n rows0 -> NoDup (cell_ids row') ->
  (forall x, In x (cell_ids row') -> ~ In x (ids rows0) /\ (x < n)%Z) ->
  let rows1 := map (fun item => (fst item, substitute marker row' (snd item))) rows0 in
  wf rows1 /\ rows_below n rows1 /\ ids rows1 = ids rows0
  /\ (~ In (sym_id marker) (cell_ids row') ->
      forall item, In item rows1 -> ~ In (sym_id marker) (cell_ids (snd item))).
Proof.
  intros [K C P] B D' Fit rows1.
  assert (Ids : ids rows1 = ids rows0) by apply ids_substituted.
  assert (Back : forall it, In it rows1 ->
                   exists r, In (fst it, r) rows0 /\ snd it = substitute marker row' r).
  { intros it I. apply in_map_iff in I as ([k r] & <- & Ir). now exists r. }
  split; [|split; [|split]]; trivial.
  - split.
    + now rewrite Ids.
    + intros it I. destruct (Back it I) as (r & Ir & ->).
      apply substitute_NoDup. apply (C _ Ir).
    + intros it x I Ix Ic. rewrite Ids in Ix. destruct (Back it I) as (r & Ir & E).
      rewrite E in Ic. apply substitute_ids in Ic; [|apply (C _ Ir)].
      destruct Ic as [[Ic _]|Ic].
      * now apply (P _ x Ir).
      * now apply (Fit x Ic).
  - intros it I. destruct (Back it I) as (r & Ir & E). destruct (B _ Ir) as [Bk Bc].
    split; [exact Bk|]. intros x Ix. rewrite E in Ix.
    apply substitute_ids in Ix; [|apply (C _ Ir)].
    destruct Ix as [[Ix _]|Ix]; [now apply Bc | now apply Fit].
  - intros N it I Ic. destruct (Back it I) as (r & Ir & E). rewrite E in Ic.
    apply substitute_ids in Ic; [|apply (C _ Ir)].
    destruct Ic as [[_ Ne]|Ic]; [now apply Ne | now apply N].
Qed.

Lemma entered_wf entering row' rows1 n :
  wf rows1 -> rows_below n rows1 -> NoDup (cell_ids row') ->
  (forall x, In x (cell_ids row') ->
             ~ In x (ids rows1) /\ (x < n)%Z /\ x <> sym_id entering) ->
  ~ In (sym_id entering) (ids rows1) -> (sym_id entering < n)%Z ->
  (forall item, In item rows1 -> ~ In (sym_id entering) (cell_ids (snd item))) ->
  wf (insert entering row' rows1) /\ rows_below n (insert entering row' rows1).
Proof.
  intros [K C P] B D' Fit Nk Bn Nc.
  rewrite (insert_absent (H:=Symbol_HasId) entering row' rows1 Nk). split.
  - split.
    + rewrite ids_app. cbn [ids map fst].
      eapply Permutation_NoDup; [apply Permutation_cons_append|].
      constructor; [exact Nk | exact K].
    + intros it I. apply in_app_iff in I as [I|[<-|[]]]; [now apply C | exact D'].
    + intros it x I Ix. rewrite ids_app, in_app_iff in Ix. cbn in Ix.
      apply in_app_iff in I as [I|[<-|[]]].
      * destruct Ix as [Ix|[<-|[]]]; [now apply P | now apply Nc].
      * cbn [snd]. intros Ic. destruct (Fit x Ic) as (F1 & _ & F3).
        destruct Ix as [Ix|[<-|[]]]; [now apply F1 | now apply F3].
  - intros it I. apply in_app_iff in I as [I|[<-|[]]]; [now apply B|].
    cbn [fst snd]. split; [exact Bn|]. intros x Ix. now apply Fit.
Qed.

Lemma shape_below n rows rows' : shape rows' = shape rows -> rows_below n rows -> rows_below n rows'.
Proof.
  intros E B item I.
  assert (Is : In (sym_id (fst item), cell_ids (snd item)) (shape rows)).
  { rewrite <- E. unfold shape.
    apply (in_map (fun item => (sym_id (fst item), cell_ids (snd item)))) with (1 := I). }
  unfold shape in Is. apply in_map_iff in Is as (item0 & Ei & I0).
  injection Ei as Ek Ec. rewrite <- Ek, <- Ec. now apply B.
Qed.

Lemma removed_wf art rows n :
  wf rows -> rows_below n rows ->
  let rows' := map (fun item => (fst item, removeSymbol art (snd item))) rows in
  wf rows' /\ rows_below n rows'.
Proof.
  intros [K C P] B rows'.
  assert (Ids : ids rows' = ids rows) by (unfold rows', ids; now rewrite map_map).
  assert (Back : forall it, In it rows' ->
                   exists r, In (fst it, r) rows /\ snd it = removeSymbol art r).
  { intros it I. apply in_map_iff in I as ([k r] & <- & Ir). now exists r. }
  assert (Sub : forall r x, NoDup (cell_ids r) ->
                  In x (cell_ids (removeSymbol art r)) -> In x (cell_ids r)).
  { intros r x D I. unfold removeSymbol, cell_ids in I. cbn [cells] in I.
    destruct (erase_NoDup (H:=Symbol_HasId) art (cells r) D) as (_ & _ & S & _).
    destruct (ids_In (H:=Symbol_HasId) _ _ I) as (p & Ip & <-).
    apply (In_ids (H:=Symbol_HasId)). now apply S. }
  split.
  - split.
    + now rewrite Ids.
    + intros it I. destruct (Back it I) as (r & Ir & ->).
      unfold removeSymbol, cell_ids. cbn [cells].
      now apply (erase_NoDup (H:=Symbol_HasId) art (cells r) (C _ Ir)).
    + intros it x I Ix Ic. rewrite Ids in Ix. destruct (Back it I) as (r & Ir & E).
      rewrite E in Ic. apply (P _ x Ir Ix). apply Sub; [apply (C _ Ir) | exact Ic].
  - intros it I. destruct (Back it I) as (r & Ir & E). destruct (B _ Ir) as [Bk Bc].
    split; [exact Bk|]. intros x Ix. rewrite E in Ix. apply Bc.
    apply Sub; [apply (C _ Ir) | exact Ix].
Qed.

End SolvedForm.

Import SolvedForm.

Module Ends.

Lemma ends_bind {A B} (c : M A) (k : A -> M B) s (Q1 : A -> State -> Prop)
    (Q : B -> State -> Prop) :
  ends c s Q1 -> (forall a s1, Q1 a s1 -> ends (k a) s1 Q) -> ends (bind c k) s Q.
Proof.
  unfold ends, bind. destruct (c s) as [a s1|e s1|]; trivial. intros H K. now apply K.
Qed.

Lemma ends_weaken {A} (c : M A) s (Q Q' : A -> State -> Prop) :
  ends c s Q -> (forall a s', Q a s' -> Q' a s') -> ends c s Q'.
Proof. unfold ends. destruct (c s); auto. Qed.

Lemma ends_ret {A} (a : A) s (Q : A -> State -> Prop) : Q a s -> ends (ret a) s Q.
Proof. trivial. Qed.

Lemma ends_gets {A} (f : State -> A) s (Q : A -> State -> Prop) :
  Q (f s) s -> ends (gets f) s Q.
Proof. trivial. Qed.

Lemma ends_modify f s (Q : unit -> State -> Prop) : Q tt (f s) -> ends (modify f) s Q.
Proof. trivial. Qed.

Lemma ends_throw {A} msg s (Q : A -> State -> Prop) : solved_form s -> ends (throw msg) s Q.
Proof. trivial. Qed.

Lemma ends_defined {A} (o : option A) s (Q : A -> State -> Prop) :
  solved_form s -> (forall a, o = Some a -> Q a s) -> ends (defined o) s Q.
Proof. intros S H. destruct o; cbn; auto. Qed.

(** The solved form reads the tableau, the symbols of the variables and the
    counter of symbols only. *)
Lemma solved_form_same s s' :
  _rowMap s' = _rowMap s -> _varMap s' = _varMap s -> _idTick s' = _idTick s ->
  solved_form s -> solved_form s'.
Proof. unfold solved_form, symbols_below. now intros -> -> ->. Qed.

Lemma row_fits_same s s' row :
  _rowMap s' = _rowMap s -> _idTick s' = _idTick s -> row_fits s row -> row_fits s' row.
Proof. unfold row_fits. now intros -> ->. Qed.

(** A call that frames the three keeps the solved form. *)
Lemma ends_framed {A} (c : M A) s :
  frames (kept (fun s => (_rowMap s, _varMap s, _idTick s))) c ->
  solved_form s ->
  ends c s (fun _ s' => solved_form s' /\ _rowMap s' = _rowMap s
                        /\ _varMap s' = _varMap s /\ _idTick s' = _idTick s).
Proof.
  intros F S. unfold ends. specialize (F s).
  destruct (c s) as [a s1|e s1|]; trivial.
  - specialize (F s1 eq_refl). unfold kept in F. injection F as Er Ev Ei.
    repeat split; trivial; now apply (solved_form_same s).
  - specialize (F s1 eq_refl). unfold kept in F. injection F as Er Ev Ei.
    now apply (solved_form_same s).
Qed.

(** A new symbol, and the same state with the counter moved on. *)
Lemma fresh_symbol type s :
  solved_form s ->
  let symbol := mkSymbol type (_idTick s) in
  let s' := set_idTick (_idTick s + 1)%Z s in
  _makeSymbol type s = Ok symbol s'
  /\ solved_form s'
  /\ ~ In (sym_id symbol) (ids (_rowMap s'))
  /\ (sym_id symbol < _idTick s')%Z
  /\ (forall item, In item (_rowMap s') -> ~ In (sym_id symbol) (cell_ids (snd item)))
  /\ forall row, row_fits s row ->
       row_fits s' row /\ ~ In (sym_id symbol) (cell_ids row).
Proof.
  intros [W [B V]] symbol s'. split; [reflexivity|]. subst symbol s'.
  unfold solved_form, symbols_below, row_fits.
  cbn [_rowMap _varMap _idTick set_idTick sym_id]. split; [|split; [|split; [|split]]].
  - split; [exact W|]. split.
    + apply (rows_below_le (_idTick s)); [exact B | lia].
    + intros p I. specialize (V p I). lia.
  - intros I. destruct (ids_In (H:=Symbol_HasId) _ _ I) as (item & Ii & E).
    destruct (B item Ii) as [Bk _]. change (id_of (fst item)) with (sym_id (fst item)) in E. lia.
  - lia.
  - intros item I Ic. destruct (B item I) as [_ Bc]. specialize (Bc _ Ic). lia.
  - intros row [D F]. split.
    + split; [exact D|]. intros x Ix. destruct (F x Ix) as [F1 F2]. split; [exact F1 | lia].
    + intros Ic. destruct (F _ Ic) as [_ F2]. lia.
Qed.

Lemma insertSymbol_fits s row symbol c :
  row_fits s row -> ~ In (sym_id symbol) (ids (_rowMap s)) -> (sym_id symbol < _idTick s)%Z ->
  row_fits s (insertSymbol symbol c row).
Proof.
  intros [D F] N B. split; [now apply insertSymbol_NoDup|].
  intros x Ix. apply insertSymbol_ids in Ix as [Ix| ->]; [now apply F | now split].
Qed.

Lemma insertRow_fits s row other c :
  row_fits s row -> row_fits s other -> row_fits s (insertRow other c row).
Proof.
  intros [D F] [Do Fo]. rewrite insertRow_unfold. split.
  - now apply insert_cells_NoDup.
  - intros x Ix. apply insert_cells_ids in Ix as [Ix|Ix]; [now apply F | now apply Fo].
Qed.

Lemma basic_row_fits s item :
  solved_form s -> In item (_rowMap s) -> row_fits s (snd item).
Proof.
  intros [[K C P] [B V]] I. split; [now apply C|].
  intros x Ix. split.
  - intros Ik. now apply (P item x I Ik).
  - now apply (B item I).
Qed.

(** [_getVarSymbol]: the symbol of a variable was made. *)
Lemma getVarSymbol_ends variable s row :
  solved_form s -> row_fits s row ->
  ends (_getVarSymbol variable) s
       (fun symbol s' => solved_form s' /\ row_fits s' row
                         /\ (sym_id symbol < _idTick s')%Z
                         /\ _rowMap s' = _rowMap s).
Proof.
  intros S Fr. unfold _getVarSymbol. unfold ends, bind at 1, gets at 1.
  destruct (find variable (_varMap s)) as [item|] eqn:F.
  - unfold ret. split; [exact S|]. split; [exact Fr|]. split; [|reflexivity].
    destruct (find_In _ _ _ F) as [I _]. destruct S as [_ [_ V]]. now apply V.
  - destruct (fresh_symbol SymbolType.External s S) as (Mk & S' & _ & Bs & _ & Fr').
    cbv zeta in *. unfold bind at 1. rewrite Mk. unfold bind, modify, ret.
    destruct (Fr' row Fr) as [Fr1 _].
    set (s1 := set_idTick (_idTick s + 1)%Z s) in *.
    split; [|split; [|split]]; [| exact Fr1 | exact Bs | reflexivity].
    destruct S' as [W' [B' V']]. split; [exact W'|]. split; [exact B'|].
    cbn [_varMap set_varMap _idTick]. intros p I.
    apply in_app_iff in I as [I|[<-|[]]]; [now apply V' | exact Bs].
Qed.

Lemma createRow_terms_ends ts :
  forall row s,
    solved_form s -> row_fits s row ->
    ends (createRow_terms ts row) s (fun row' s' => solved_form s' /\ row_fits s' row').
Proof.
  induction ts as [|t ts IH]; intros row s S Fr; cbn [createRow_terms].
  - now apply ends_ret.
  - destruct (negb (nearZero (snd t))); [|now apply IH].
    eapply ends_bind; [apply getVarSymbol_ends; eassumption|].
    intros symbol s1 (S1 & Fr1 & Bs & Er). cbv beta.
    eapply ends_bind;
      [apply (ends_gets _ _ (fun a s' => a = find symbol (_rowMap s1) /\ s' = s1));
       now split|].
    intros basicPair s2 [-> ->]. destruct (find symbol (_rowMap s1)) as [basic|] eqn:F.
    + apply IH; trivial. apply insertRow_fits; trivial.
      apply basic_row_fits; trivial. now apply (find_In _ _ _ F).
    + apply IH; trivial. apply insertSymbol_fits; trivial. now apply find_None in F.
Qed.

Lemma makeSymbol_ends type s row :
  solved_form s -> row_fits s row ->
  ends (_makeSymbol type) s
       (fun symbol s' => solved_form s' /\ row_fits s' row
                         /\ forall c, row_fits s' (insertSymbol symbol c row)).
Proof.
  intros S Fr. destruct (fresh_symbol type s S) as (Mk & S' & Nk & Bs & _ & Fr').
  cbv zeta in *. unfold ends. rewrite Mk. destruct (Fr' row Fr) as [Fr1 _].
  split; [exact S'|]. split; [exact Fr1|]. intros c. now apply insertSymbol_fits.
Qed.

Lemma objective_insertSymbol_ends symbol c s row :
  solved_form s -> row_fits s row ->
  ends (objective_insertSymbol symbol c) s (fun _ s' => solved_form s' /\ row_fits s' row).
Proof. intros S Fr. apply ends_modify. now split. Qed.

Lemma reverseSign_fits s row : row_fits s row -> row_fits s (reverseSign row).
Proof. unfold row_fits. now rewrite reverseSign_ids. Qed.

Lemma createRow_ends constraint s :
  solved_form s ->
  ends (_createRow constraint) s (fun data s' => solved_form s' /\ row_fits s' (fst data)).
Proof.
  intros S. unfold _createRow.
  eapply ends_bind.
  { apply createRow_terms_ends; [exact S|]. split; [constructor | intros x []]. }
  intros row s1 [S1 Fr1]. cbv zeta.
  eapply ends_bind with (Q1 := fun created s' => solved_form s' /\ row_fits s' (fst created)).
  - destruct (op constraint).
    + eapply ends_bind; [apply makeSymbol_ends; eassumption|].
      intros slack s2 (S2 & _ & Fr2). cbv zeta.
      destruct (strength constraint <? Strength.required).
      * eapply ends_bind; [apply (makeSymbol_ends _ _ _ S2 (Fr2 1))|].
        intros error s3 (S3 & _ & Fr3).
        eapply ends_bind; [apply (objective_insertSymbol_ends _ _ _ _ S3 (Fr3 (- (1))))|].
        intros [] s4 [S4 Fr4]. now apply ends_ret.
      * apply ends_ret. split; [exact S2 | apply Fr2].
    + eapply ends_bind; [apply makeSymbol_ends; eassumption|].
      intros slack s2 (S2 & _ & Fr2). cbv zeta.
      destruct (strength constraint <? Strength.required).
      * eapply ends_bind; [apply (makeSymbol_ends _ _ _ S2 (Fr2 (-1)))|].
        intros error s3 (S3 & _ & Fr3).
        eapply ends_bind; [apply (objective_insertSymbol_ends _ _ _ _ S3 (Fr3 (- (-1))))|].
        intros [] s4 [S4 Fr4]. now apply ends_ret.
      * apply ends_ret. split; [exact S2 | apply Fr2].
    + destruct (strength constraint <? Strength.required).
      * eapply ends_bind; [apply makeSymbol_ends; eassumption|].
        intros errplus s2 (S2 & _ & Fr2).
        eapply ends_bind; [apply (makeSymbol_ends _ _ _ S2 (Fr2 (-1)))|].
        intros errminus s3 (S3 & _ & Fr3). cbv zeta.
        eapply ends_bind; [apply (objective_insertSymbol_ends _ _ _ _ S3 (Fr3 1))|].
        intros [] s4 [S4 Fr4].
        eapply ends_bind; [apply (objective_insertSymbol_ends _ _ _ _ S4 Fr4)|].
        intros [] s5 [S5 Fr5]. now apply ends_ret.
      * eapply ends_bind; [apply makeSymbol_ends; eassumption|].
        intros dummy s2 (S2 & _ & Fr2). apply ends_ret. split; [exact S2 | apply Fr2].
  - intros created s2 [S2 Fr2]. apply ends_ret. cbn [fst]. split; [exact S2|].
    destruct (constant (fst created) <? 0); [now apply reverseSign_fits | exact Fr2].
Qed.

(** The row [row'] enters the tableau under [entering], after it has been
    substituted for [entering] in every row. *)
Lemma substitute_insert_ends entering row' s :
  solved_form s -> NoDup (cell_ids row') ->
  (forall x, In x (cell_ids row') ->
     ~ In x (ids (_rowMap s)) /\ (x < _idTick s)%Z /\ x <> sym_id entering) ->
  ~ In (sym_id entering) (ids (_rowMap s)) -> (sym_id entering < _idTick s)%Z ->
  ends (_substitute entering row' ;; rowMap_insert entering row') s
       (fun _ s' => solved_form s').
Proof.
  intros [W [B V]] D Fit Nk Bk.
  destruct (substitute_run entering row' s) as (s1 & Run & Rows & _).
  assert (K : kept (fun s => (_varMap s, _idTick s)) s s1).
  { assert (Fin : final (_substitute entering row' s) = Some s1) by now rewrite Run.
    revert Fin. apply substitute_frames; frame_conditions. }
  unfold kept in K. injection K as Kv Ki.
  unfold ends, bind. rewrite Run. unfold rowMap_insert, modify.
  rewrite substitute_rows_fst in Rows.
  destruct (substituted_wf entering row' (_rowMap s) (_idTick s) W B D) as (W1 & B1 & I1 & N1).
  { intros x Ix. destruct (Fit x Ix) as (F1 & F2 & _). now split. }
  assert (Ne : ~ In (sym_id entering) (cell_ids row')).
  { intros Ix. now destruct (Fit _ Ix) as (_ & _ & F3). }
  assert (E2 : wf (insert entering row' (_rowMap s1))
               /\ rows_below (_idTick s) (insert entering row' (_rowMap s1))).
  { rewrite Rows. apply entered_wf; trivial.
    - intros x Ix. rewrite I1. now apply Fit.
    - now rewrite I1.
    - now apply N1. }
  destruct E2 as [W2 B2].
  split; [exact W2|]. split; cbn [_rowMap _varMap _idTick set_rowMap].
  - now rewrite Ki.
  - rewrite Kv, Ki. exact V.
Qed.

Lemma pivot_ends leaving entering row s :
  solved_form s -> row_fits s row ->
  ~ In (sym_id leaving) (ids (_rowMap s)) -> (sym_id leaving < _idTick s)%Z ->
  ends (pivot leaving entering row) s (fun _ s' => solved_form s').
Proof.
  intros S [D F] Nl Bl. unfold pivot.
  eapply ends_bind with (Q1 := fun row' s' => s' = s /\ solveForEx leaving entering row = Some row').
  { apply ends_defined; [exact S | now split]. }
  intros row' s1 [-> Sv]. destruct (solveForEx_ids _ _ _ _ D Sv) as (D' & Ie & Sub).
  apply substitute_insert_ends; trivial.
  - intros x Ix. destruct (Sub x Ix) as [[Ic| ->] Nx].
    + destruct (F x Ic). now split.
    + now split.
  - destruct Ie as [Ic|E]; [now apply F | now rewrite E].
  - destruct Ie as [Ic|E]; [now apply F | now rewrite E].
Qed.

Lemma rowMap_erase_ends key s :
  solved_form s ->
  ends (rowMap_erase key) s
       (fun erased s' =>
          solved_form s'
          /\ erased = find key (_rowMap s)
          /\ match erased with
             | Some item =>
                 row_fits s' (snd item)
                 /\ ~ In (sym_id key) (ids (_rowMap s'))
                 /\ (sym_id key < _idTick s')%Z
             | None => True
             end).
Proof.
  intros S. pose proof S as [W [B V]]. unfold ends, rowMap_erase.
  destruct (erased_wf key (_rowMap s) (_idTick s) W B) as (W0 & B0 & Sub & Er).
  pose proof (erase_fst (H:=Symbol_HasId) key (_rowMap s)) as Ef.
  destruct (erase key (_rowMap s)) as [erased rows0]. cbn [fst snd] in *.
  split; [|split; [exact Ef|]].
  - split; [exact W0|]. split; [exact B0 | exact V].
  - destruct erased as [item|]; trivial. destruct Er as (I & E & N).
    cbn [_rowMap _idTick set_rowMap]. split; [|split; [exact N|]].
    + destruct (basic_row_fits s item S I) as [D F]. split; [exact D|].
      intros x Ix. destruct (F x Ix) as [F1 F2]. split; [|exact F2].
      intros Ik. apply F1. now apply Sub.
    + destruct (B item I) as [Bk _]. change (id_of (fst item)) with (sym_id (fst item)) in E.
      change (id_of key) with (sym_id key) in E. lia.
Qed.

Lemma optimize_loop_ends n objective :
  forall s, solved_form s -> ends (optimize_loop n objective) s (fun _ s' => solved_form s').
Proof.
  induction n as [|n IH]; intros s S; cbn [optimize_loop]; [now apply ends_throw|].
  eapply ends_bind with (Q1 := fun _ s' => s' = s).
  { destruct objective; cbn [deref]; [now apply ends_gets|].
    eapply ends_bind with (Q1 := fun _ s' => s' = s); [now apply ends_gets|].
    intros a s1 ->. now apply ends_defined. }
  intros obj s1 ->. cbv zeta.
  destruct (is_type SymbolType.Invalid (_getEnteringSymbol obj)); [now apply ends_ret|].
  eapply ends_bind with (Q1 := fun _ s' => s' = s); [now apply ends_gets|].
  intros rows s1 ->.
  destruct (is_type SymbolType.Invalid _); [now apply ends_throw|].
  eapply ends_bind; [now apply rowMap_erase_ends|].
  intros erased s1 (S1 & _ & Er).
  eapply ends_bind with (Q1 := fun item s' => s' = s1 /\ erased = Some item).
  { apply ends_defined; [exact S1 | now split]. }
  intros item s2 [-> ->]. destruct Er as (Fr & Nl & Bl).
  eapply ends_bind; [now apply pivot_ends|].
  intros [] s2 S2. now apply IH.
Qed.

Lemma optimize_ends objective s :
  solved_form s -> ends (_optimize objective) s (fun _ s' => solved_form s').
Proof.
  intros S. unfold _optimize.
  eapply ends_bind with (Q1 := fun _ s' => s' = s); [now apply ends_gets|].
  intros n s1 ->. now apply optimize_loop_ends.
Qed.

Lemma dualOptimize_ends fuel :
  forall s, solved_form s -> ends (_dualOptimize fuel) s (fun _ s' => solved_form s').
Proof.
  induction fuel as [|fuel IH]; intros s S; unfold ends; cbn [_dualOptimize];
    destruct (_infeasibleRows s) as [|leaving rest]; trivial.
  assert (S0 : solved_form (set_infeasibleRows rest s)) by exact S.
  set (s0 := set_infeasibleRows rest s) in *.
  destruct (find leaving (_rowMap s0)) as [item|] eqn:F; [|now apply IH].
  destruct (constant (snd item) <? 0); [|now apply IH].
  destruct (is_type SymbolType.Invalid _); [exact S0|].
  match goal with |- match ?c s0 with _ => _ end =>
    change (ends c s0 (fun _ s' => solved_form s')) end.
  eapply ends_bind; [now apply rowMap_erase_ends|].
  intros erased s1 (S1 & E & Er). rewrite F in E. subst erased.
  destruct Er as (Fr & Nl & Bl).
  eapply ends_bind; [now apply pivot_ends|].
  intros [] s2 S2. now apply IH.
Qed.

Lemma insert_row_ends symbol row s :
  solved_form s -> row_fits s row ->
  ~ In (sym_id symbol) (ids (_rowMap s)) -> (sym_id symbol < _idTick s)%Z ->
  (forall item, In item (_rowMap s) -> ~ In (sym_id symbol) (cell_ids (snd item))) ->
  ~ In (sym_id symbol) (cell_ids row) ->
  ends (rowMap_insert symbol row) s (fun _ s' => solved_form s').
Proof.
  intros [W [B V]] [D F] Nk Bk Nc Nr. apply ends_modify.
  destruct (entered_wf symbol row (_rowMap s) (_idTick s)) as [W2 B2]; trivial.
  - intros x Ix. destruct (F x Ix) as [F1 F2]. split; [exact F1|]. split; [exact F2|].
    intros ->. now apply Nr.
  - split; [exact W2|]. split; [exact B2 | exact V].
Qed.

Lemma remove_art_ends art (success : bool) s :
  solved_form s ->
  ends (modify (fun s =>
          set_rowMap (map (fun item => (fst item, removeSymbol art (snd item))) (_rowMap s)) s) ;;
        modify (fun s => set_objective (removeSymbol art (_objective s)) s) ;;
        ret success) s (fun _ s' => solved_form s').
Proof.
  intros [W [B V]]. unfold ends, bind, modify, ret.
  destruct (removed_wf art (_rowMap s) (_idTick s) W B) as [W' B'].
  split; [exact W'|]. split; [exact B' | exact V].
Qed.

Lemma addWithArtificialVariable_ends row s :
  solved_form s -> row_fits s row ->
  ends (_addWithArtificialVariable row) s (fun _ s' => solved_form s').
Proof.
  intros S Fr. unfold _addWithArtificialVariable.
  destruct (fresh_symbol SymbolType.Slack s S) as (Mk & S1 & Nk & Bk & Nc & Fr').
  cbv zeta in *. destruct (Fr' row Fr) as [Fr1 Nr].
  set (art := mkSymbol SymbolType.Slack (_idTick s)) in *.
  set (s1 := set_idTick (_idTick s + 1)%Z s) in *.
  eapply ends_bind with (Q1 := fun symbol s' => symbol = art /\ s' = s1).
  { unfold ends. rewrite Mk. now split. }
  intros symbol s' [-> ->].
  eapply ends_bind; [now apply (insert_row_ends art (RowOps.copy row) s1)|].
  intros [] s2 S2.
  eapply ends_bind with (Q1 := fun _ s' => solved_form s'); [now apply ends_modify|].
  intros [] s3 S3.
  eapply ends_bind; [now apply optimize_ends|].
  intros [] s4 S4.
  eapply ends_bind with (Q1 := fun _ s' => s' = s4).
  { cbn [deref]. eapply ends_bind with (Q1 := fun _ s' => s' = s4); [now apply ends_gets|].
    intros a s5 ->. now apply ends_defined. }
  intros artificial s5 ->. cbv zeta.
  eapply ends_bind with (Q1 := fun _ s' => solved_form s'); [now apply ends_modify|].
  intros [] s5 S5.
  eapply ends_bind; [now apply rowMap_erase_ends|].
  intros erased s6 (S6 & _ & Er).
  destruct erased as [item|]; [|now apply remove_art_ends].
  destruct Er as (Fi & Ni & Bi).
  destruct (isConstant (snd item)); [now apply ends_ret|].
  destruct (is_type SymbolType.Invalid _); [now apply ends_ret|].
  eapply ends_bind; [now apply pivot_ends|].
  intros [] s7 S7. now apply remove_art_ends.
Qed.

Lemma install_ends constraint subject row tag s :
  solved_form s -> row_fits s row ->
  ends (install constraint subject row tag) s (fun _ s' => solved_form s').
Proof.
  intros S Fr. unfold install.
  eapply ends_bind with (Q1 := fun _ s' => solved_form s').
  - destruct (is_type SymbolType.Invalid subject).
    + eapply ends_bind; [now apply addWithArtificialVariable_ends|].
      intros added s1 S1. destruct (negb added); [now apply ends_throw | now apply ends_ret].
    + eapply ends_bind with (Q1 := fun row' s' => s' = s /\ solveFor subject row = Some row').
      { apply ends_defined; [exact S | now split]. }
      intros row' s1 [-> Sv]. destruct Fr as [D F].
      destruct (solveFor_ids _ _ _ D Sv) as (D' & Is & Sub).
      destruct (F _ Is) as [Nk Bk].
      apply substitute_insert_ends; trivial.
      intros x Ix. destruct (Sub x Ix) as [Ic Nx]. destruct (F x Ic). now split.
  - intros [] s1 S1.
    eapply ends_bind with (Q1 := fun _ s' => solved_form s'); [now apply ends_modify|].
    intros [] s2 S2. now apply optimize_ends.
Qed.

Lemma addConstraint_ends constraint s :
  solved_form s -> ends (addConstraint constraint) s (fun _ s' => solved_form s').
Proof.
  intros S. unfold addConstraint.
  eapply ends_bind with (Q1 := fun _ s' => s' = s); [now apply ends_gets|].
  intros cnPair s1 ->. destruct cnPair; [now apply ends_throw|].
  eapply ends_bind; [now apply createRow_ends|].
  intros data s1 [S1 Fr1]. cbv zeta.
  destruct (is_type SymbolType.Invalid _ && allDummies _); [|now apply install_ends].
  destruct (negb _); [now apply ends_throw | now apply install_ends].
Qed.

Lemma createConstraint_ends lhs operator rhs strength s :
  solved_form s ->
  ends (createConstraint lhs operator rhs strength) s (fun _ s' => solved_form s').
Proof.
  intros S. unfold createConstraint.
  eapply ends_bind with (Q1 := fun _ s' => s' = s); [now apply ends_gets|].
  intros id s1 ->.
  eapply ends_bind with (Q1 := fun _ s' => solved_form s'); [now apply ends_modify|].
  intros [] s1 S1.
  eapply ends_bind with (Q1 := fun _ s' => s' = s1); [now apply ends_defined|].
  intros cn s2 ->.
  eapply ends_bind; [now apply addConstraint_ends|].
  intros [] s2 S2. now apply ends_ret.
Qed.

Lemma substitute_ends marker row' s :
  solved_form s -> NoDup (cell_ids row') ->
  (forall x, In x (cell_ids row') -> ~ In x (ids (_rowMap s)) /\ (x < _idTick s)%Z) ->
  ends (_substitute marker row') s (fun _ s' => solved_form s').
Proof.
  intros [W [B V]] D Fit.
  destruct (substitute_run marker row' s) as (s1 & Run & Rows & _).
  assert (K : kept (fun s => (_varMap s, _idTick s)) s s1).
  { assert (Fin : final (_substitute marker row' s) = Some s1) by now rewrite Run.
    revert Fin. apply substitute_frames; frame_conditions. }
  unfold kept in K. injection K as Kv Ki.
  unfold ends. rewrite Run. rewrite substitute_rows_fst in Rows.
  destruct (substituted_wf marker row' (_rowMap s) (_idTick s) W B D Fit) as (W1 & B1 & _).
  split; [now rewrite Rows|]. split; [now rewrite Rows, Ki | now rewrite Kv, Ki].
Qed.

Lemma removeConstraint_ends constraint s :
  solved_form s -> ends (removeConstraint constraint) s (fun _ s' => solved_form s').
Proof.
  intros S. unfold removeConstraint.
  eapply ends_bind with (Q1 := fun _ s' => solved_form s').
  { unfold ends. now destruct (erase constraint (_cnMap s)). }
  intros cnPair s1 S1. destruct cnPair as [item|]; [|now apply ends_throw].
  eapply ends_bind with (Q1 := fun _ s' => solved_form s').
  { eapply ends_weaken.
    - apply ends_framed; [|exact S1]. apply removeConstraintEffects_frames; frame_conditions.
    - intros a s' H. apply H. }
  intros [] s2 S2. cbv zeta.
  eapply ends_bind; [now apply rowMap_erase_ends|].
  intros rowPair s3 (S3 & _ & _).
  eapply ends_bind with (Q1 := fun _ s' => solved_form s'); [|intros [] s4 S4; now apply optimize_ends].
  destruct rowPair; [now apply ends_ret|].
  eapply ends_bind with (Q1 := fun _ s' => s' = s3); [now apply ends_gets|].
  intros rows s4 ->. cbv zeta.
  destruct (is_type SymbolType.Invalid _); [now apply ends_throw|].
  eapply ends_bind; [now apply rowMap_erase_ends|].
  intros erased s4 (S4 & _ & Er).
  eapply ends_bind with (Q1 := fun leavingPair s' => s' = s4 /\ erased = Some leavingPair).
  { apply ends_defined; [exact S4 | now split]. }
  intros leavingPair s5 [-> ->]. destruct Er as ([D F] & Nl & Bl).
  match goal with |- context [solveForEx ?l ?m ?r] =>
    eapply ends_bind with (Q1 := fun row' s' => s' = s4 /\ solveForEx l m r = Some row')
  end.
  { apply ends_defined; [exact S4 | now split]. }
  intros row' s5 [-> Sv]. destruct (solveForEx_ids _ _ _ _ D Sv) as (D' & _ & Sub).
  apply substitute_ends; trivial.
  intros x Ix. destruct (Sub x Ix) as [[Ic| ->] _]; [now apply F | now split].
Qed.

Lemma addEditVariable_ends variable strength s :
  solved_form s -> ends (addEditVariable variable strength) s (fun _ s' => solved_form s').
Proof.
  intros S. unfold addEditVariable.
  eapply ends_bind with (Q1 := fun _ s' => s' = s); [now apply ends_gets|].
  intros editPair s1 ->. destruct editPair; [now apply ends_throw|]. cbv zeta.
  destruct (_ =? _); [now apply ends_throw|].
  eapply ends_bind with (Q1 := fun _ s' => s' = s); [now apply ends_gets|].
  intros id s1 ->.
  eapply ends_bind with (Q1 := fun _ s' => solved_form s'); [now apply ends_modify|].
  intros [] s1 S1.
  eapply ends_bind with (Q1 := fun _ s' => s' = s1); [now apply ends_defined|].
  intros cn s2 ->.
  eapply ends_bind; [now apply addConstraint_ends|].
  intros [] s2 S2.
  eapply ends_bind with (Q1 := fun _ s' => s' = s2); [now apply ends_gets|].
  intros found s3 ->.
  eapply ends_bind with (Q1 := fun _ s' => s' = s2); [now apply ends_defined|].
  intros item s3 ->. now apply ends_modify.
Qed.

Lemma removeEditVariable_ends variable s :
  solved_form s -> ends (removeEditVariable variable) s (fun _ s' => solved_form s').
Proof.
  intros S. unfold removeEditVariable.
  eapply ends_bind with (Q1 := fun _ s' => solved_form s').
  { unfold ends. now destruct (erase variable (_editMap s)). }
  intros editPair s1 S1. destruct editPair; [|now apply ends_throw].
  now apply removeConstraint_ends.
Qed.

(** A change of constants leaves the solved form. *)
Lemma moved_solved_form s s' :
  solved_form s -> shape (_rowMap s') = shape (_rowMap s) ->
  _varMap s' = _varMap s -> _idTick s' = _idTick s -> solved_form s'.
Proof.
  intros [W [B V]] Sh Ev Ei. split; [now apply (wf_shape (_rowMap s))|].
  split; [rewrite Ei; now apply (shape_below _ (_rowMap s)) | now rewrite Ev, Ei].
Qed.

Lemma add_to_basic_ends key basic x s :
  solved_form s -> find key (_rowMap s) = Some basic ->
  ends (add_to_basic key basic x) s (fun _ s' => solved_form s').
Proof.
  intros S F. destruct (add_to_basic_moves key basic x s F) as (s' & Run & [Sh _]).
  assert (K : kept (fun s => (_varMap s, _idTick s)) s s').
  { assert (Fin : final (add_to_basic key basic x s) = Some s') by now rewrite Run.
    revert Fin. apply add_to_basic_frames; frame_conditions. }
  unfold kept in K. injection K as Kv Ki.
  unfold ends. rewrite Run. now apply (moved_solved_form s).
Qed.

Lemma suggestValue_ends fuel variable x s :
  solved_form s -> ends (suggestValue fuel variable x) s (fun _ s' => solved_form s').
Proof.
  intros S. unfold suggestValue.
  eapply ends_bind with (Q1 := fun _ s' => s' = s); [now apply ends_gets|].
  intros editPair s1 ->. destruct editPair as [item|]; [|now apply ends_throw]. cbv zeta.
  eapply ends_bind with (Q1 := fun _ s' => solved_form s'); [now apply ends_modify|].
  intros [] s1 S1.
  eapply ends_bind
    with (Q1 := fun a s' => s' = s1 /\ a = find (marker (tag (snd item))) (_rowMap s1));
    [now apply ends_gets|].
  intros rowPair s2 [-> E]. destruct rowPair as [basic|].
  { eapply ends_bind; [now apply add_to_basic_ends|].
    intros [] s2 S2. now apply dualOptimize_ends. }
  eapply ends_bind
    with (Q1 := fun a s' => s' = s1 /\ a = find (other (tag (snd item))) (_rowMap s1));
    [now apply ends_gets|].
  intros rowPair s2 [-> E2]. destruct rowPair as [basic|].
  { eapply ends_bind; [now apply add_to_basic_ends|].
    intros [] s2 S2. now apply dualOptimize_ends. }
  eapply ends_bind with (Q1 := fun _ s' => solved_form s');
    [|intros [] s2 S2; now apply dualOptimize_ends].
  apply ends_modify.
  pose proof (suggest_rows_moves (marker (tag (snd item))) (x - info_constant (snd item))
                (_rowMap s1) (_infeasibleRows s1)) as Mv.
  destruct (suggest_rows _ _ _ _) as [rows' infeasible']. destruct Mv as [[Sh _] _].
  now apply (moved_solved_form s1).
Qed.

End Ends.

Import Ends.

(** The tableau stays in solved form.  From a state in which the basic
    symbols are distinct, the symbols of each row are distinct, no basic
    symbol occurs in a row and every symbol has an id below the counter, every
    sequence of calls, some of which may throw, leads to such a state. *)
Theorem calls_keep_the_solved_form (ms : list Public.Method) (s s' : State) :
  tableau_wf s = true -> symbols_below s ->
  Public.after_all ms s = Some s' ->
  tableau_wf s' = true /\ symbols_below s'.
Proof.
  rewrite !tableau_wf_spec. intros W B.
  assert (S : solved_form s) by now split. clear W B.
  revert s S. induction ms as [|m ms IH]; intros s S; cbn [Public.after_all].
  - now intros [= <-].
  - destruct (Public.after m s) as [s1|] eqn:E; [|discriminate].
    apply IH.
    assert (K : forall A (c : M A), ends c s (fun _ s' => solved_form s') ->
                  final (c s) = Some s1 -> solved_form s1).
    { intros A c H. unfold ends in H. destruct (c s); cbn [final]; [| |discriminate];
        now intros [= <-]. }
    destruct m; cbn [Public.after] in E; revert E; apply K.
    + now apply addConstraint_ends.
    + now apply createConstraint_ends.
    + now apply removeConstraint_ends.
    + now apply addEditVariable_ends.
    + now apply removeEditVariable_ends.
    + now apply suggestValue_ends.
Qed.

Lemma calls_keep_the_solved_form_witness :
  exists s',
    Public.after_all calls_with_a_throw (new_Solver 0 no_values) = Some s'
    /\ tableau_wf s' = true.
Proof.
  eexists. split; [vm_compute; reflexivity|].
  apply (calls_keep_the_solved_form calls_with_a_throw (new_Solver 0 no_values)).
  - reflexivity.
  - split; [intros item [] | intros p []].
  - vm_compute. reflexivity.
Defined.

(** ** Errors of lookup *)

(** The errors of lookup leave the solver as it was: [removeConstraint] of a
    constraint the solver does not hold throws 'unknown constraint';
    [addEditVariable] of a variable that is an edit variable already throws
    'duplicate edit variable', whatever the strength; [removeEditVariable]
    and [suggestValue] of a variable that is no edit variable throw 'unknown
    edit variable'.  None of them changes a field of the solver. *)
Theorem lookup_errors_leave_the_solver_as_it_was (s : State) :
  (forall c, find c (_cnMap s) = None ->
     removeConstraint c s = Throw (JsError "unknown constraint") s)
  /\ (forall v strength, find v (_editMap s) <> None ->
        addEditVariable v strength s = Throw (JsError "duplicate edit variable") s)
  /\ (forall v, find v (_editMap s) = None ->
        removeEditVariable v s = Throw (JsError "unknown edit variable") s)
  /\ (forall v fuel x, find v (_editMap s) = None ->
        suggestValue fuel v x s = Throw (JsError "unknown edit variable") s).
Proof.
  split; [|split; [|split]].
  - intros c F. apply find_None in F. unfold removeConstraint, bind.
    rewrite (erase_absent (H:=Constraint_HasId) c (_cnMap s) F). now destruct s.
  - intros v strength F. unfold addEditVariable, bind, gets.
    now destruct (find v (_editMap s)).
  - intros v F. apply find_None in F. unfold removeEditVariable, bind.
    rewrite (erase_absent (H:=Variable_HasId) v (_editMap s) F). now destruct s.
  - intros v fuel x F. unfold suggestValue, bind, gets. now rewrite F.
Qed.

Lemma lookup_errors_leave_the_solver_as_it_was_witness :
  removeConstraint (x_constraint 77 Operator.Eq 5) bounded_edit
    = Throw (JsError "unknown constraint") bounded_edit
  /\ addEditVariable var_x Strength.weak bounded_edit
     = Throw (JsError "duplicate edit variable") bounded_edit
  /\ removeEditVariable var_x holding_x_is_5
     = Throw (JsError "unknown edit variable") holding_x_is_5
  /\ suggestValue 10 var_x 7 holding_x_is_5
     = Throw (JsError "unknown edit variable") holding_x_is_5.
Proof.
  destruct (lookup_errors_leave_the_solver_as_it_was bounded_edit) as (A & B & _).
  destruct (lookup_errors_leave_the_solver_as_it_was holding_x_is_5) as (_ & _ & C & D).
  split; [apply A; reflexivity|]. split; [apply B; vm_compute; discriminate|].
  split; [apply C; reflexivity | apply D; reflexivity].
Defined.

(** ** Scenarios *)

(** Width arithmetic: under the required [right - left - width = 0], the
    suggestions left = 100 and width = 400 give right = 500, and then the
    suggestions left = 200 and width = 600 give right = 800. *)
Theorem width_arithmetic_follows_suggestions :
  exists s s',
    width_arithmetic (new_Solver 0 no_values) = Ok tt s
    /\ value var_right s = 500
    /\ width_again s = Ok tt s'
    /\ value var_right s' = 800.
Proof.
  eexists. eexists. split; [vm_compute; reflexivity|]. split; [reflexivity|].
  split; [vm_compute; reflexivity | reflexivity].
Qed.

(** Center: under the required [-centerX + left + 0.5 width = 0], the
    suggestions left = 0 and width = 500 give centerX = 250. *)
Theorem center_is_250 :
  exists s, center (new_Solver 0 no_values) = Ok tt s /\ value var_centerX s = 250.
Proof. eexists. split; [vm_compute; reflexivity | reflexivity]. Qed.

(** Weak against strong: the required [a + b = 10], the strong [a = 7] and
    the weak [b = 0] give a = 7 and b = 3. *)
Theorem strong_wins_over_weak :
  exists s,
    weak_against_strong (new_Solver 0 no_values) = Ok tt s
    /\ value var_a s = 7 /\ value var_b s = 3.
Proof. eexists. split; [vm_compute; reflexivity | split; reflexivity]. Qed.

(** Remove and add again: the required [x = 5] gives x = 5; once it is
    removed, the required [x = 9] gives x = 9. *)
Theorem remove_and_add_again_follows :
  exists s, remove_and_add_again (new_Solver 0 no_values) = Ok (5, 9) s.
Proof. eexists. vm_compute. reflexivity. Qed.

(** * The claims *)

(** ** C1: feasibility of the tableau *)

(** A constant that is not below zero and is a number is at or above zero,
    and so within the epsilon of the specification. *)
Lemma not_below_zero_within_epsilon (c : float) :
  (c <? 0) = false -> is_nan c = false ->
  (0 <=? c) = true /\ (-1.0e-8 <=? c) = true.
Proof.
  intros L N. apply not_nan in N. revert L.
  rewrite FloatAxioms.ltb_spec, !FloatAxioms.leb_spec, Prim2SF_zero.
  assert (B : exists m e, Prim2SF (-1.0e-8) = S754_finite true m e)
    by (eexists; eexists; reflexivity).
  destruct B as (m0 & e0 & ->).
  unfold SFltb, SFleb, SFcompare.
  destruct (Prim2SF c) as [sg|sg| |sg m e]; try destruct sg; try discriminate;
    try (now elim N); now split.
Qed.

(** C1, as amended.  Rows whose basic symbol is External are unrestricted and
    may hold any constant.  For the other rows: from a well-formed tableau in
    which no row with a restricted basic symbol has a constant below zero,
    every sequence of [suggestValue] and [updateVariables] calls that all
    return leaves such a tableau again (the statement applies to every prefix
    of the sequence, so it holds after each call).  The test is the one of
    the code, [constant < 0.0]: the constant of a restricted row is then at
    or above zero, within the epsilon of the specification, unless it is
    NaN. *)
Theorem dual_simplex_calls_keep_restricted_rows_feasible
    (cs : list Call) (s s' : State) :
  tableau_wf s = true -> feasible s = true ->
  calls cs s = Ok tt s' ->
  feasible s' = true /\ tableau_wf s' = true
  /\ forall key row, In (key, row) (_rowMap s') ->
       sym_type key <> SymbolType.External ->
       (constant row <? 0) = false
       /\ (is_nan (constant row) = false ->
           (0 <=? constant row) = true /\ (-1.0e-8 <=? constant row) = true).
Proof.
  intros W F Run.
  assert (K : feasible s' = true /\ tableau_wf s' = true).
  { revert s W F Run. induction cs as [|c cs IH]; intros s W F Run.
    - injection Run as <-. now split.
    - cbn [calls] in Run. unfold bind in Run.
      destruct (call c s) as [[] s1| |] eqn:C; try discriminate.
      destruct c as [fuel variable x|]; cbn [call] in C.
      + destruct (suggestValue_feasible _ _ _ _ _ W F C) as [W1 F1]. now apply (IH s1).
      + pose proof (updateVariables_rowMap _ _ C) as Rows.
        apply (IH s1); trivial; unfold tableau_wf, feasible in *; now rewrite Rows. }
  destruct K as [F' W']. split; [exact F'|]. split; [exact W'|].
  intros key row I T. unfold feasible in F'. rewrite forallb_forall in F'.
  specialize (F' _ I). cbn [fst snd] in F'.
  rewrite (proj2 (is_type_false SymbolType.External key)) in F' by exact T.
  cbn [orb] in F'. apply negb_true_iff in F'.
  split; [exact F'|]. intros N. now apply not_below_zero_within_epsilon.
Qed.

(** The edit variable [x] between its bounds 10 and 100 follows the
    suggestions 50, 500 and 5 through pivots of the dual simplex; it ends at
    10 with every restricted row feasible. *)
Lemma dual_simplex_calls_keep_restricted_rows_feasible_witness :
  value var_x bounded_edit_suggested = 10
  /\ feasible bounded_edit_suggested = true
  /\ tableau_wf bounded_edit_suggested = true.
Proof.
  split; [reflexivity|].
  destruct (dual_simplex_calls_keep_restricted_rows_feasible
              suggestions bounded_edit bounded_edit_suggested)
    as (F & W & _); [vm_compute; reflexivity ..|].
  split; [exact F | exact W].
Defined.

(** C1 fails as stated, in six ways.  After the successful add of the
    required [x = -5] the row of the External symbol of [x] has the constant
    -5.  After the two successful adds of [nearly_infeasible] the row of a
    Slack symbol has a constant near -5e-6, left by the artificial phase.
    After the required [3 x <= 1e9] and [0.7 x >= 0], with every constant at
    or above zero, [addEditVariable(x, strong)] returns and leaves the row of
    an Error symbol at about -6e-8: the pivot of [_optimize] rounds.  So do
    the pivots of [removeConstraint] and [removeEditVariable], which leave
    about -6e-8 and -1.5e-5 from tableaux with every constant at or above
    zero.  And two suggestions whose difference overflows leave the row of a
    Slack symbol with the constant NaN, which is not below zero and not at or
    above [-1.0e-8]. *)
Lemma basic_row_may_be_negative :
  (exists c s key row,
     createConstraint (inl var_x) Operator.Eq (OpNumber (-5)) None
                      (new_Solver 0 no_values) = Ok c s
     /\ In (key, row) (_rowMap s)
     /\ (-1.0e-8 <=? constant row) = false)
  /\ (exists s key row,
        nearly_infeasible (new_Solver 0 no_values) = Ok tt s
        /\ In (key, row) (_rowMap s)
        /\ sym_type key = SymbolType.Slack
        /\ (-1.0e-8 <=? constant row) = false)
  /\ (exists s s' key row,
        two_bounds (new_Solver 0 no_values) = Ok tt s
        /\ within_epsilon s = true /\ feasible s = true
        /\ addEditVariable var_x Strength.strong s = Ok tt s'
        /\ In (key, row) (_rowMap s')
        /\ sym_type key = SymbolType.Error
        /\ (-1.0e-8 <=? constant row) = false)
  /\ (exists c s s' key row,
        held_at_one (new_Solver 0 no_values) = Ok c s
        /\ within_epsilon s = true /\ feasible s = true
        /\ removeConstraint c s = Ok tt s'
        /\ In (key, row) (_rowMap s')
        /\ sym_type key = SymbolType.Error
        /\ (-1.0e-8 <=? constant row) = false)
  /\ (exists s s' key row,
        edit_over_weak (new_Solver 0 no_values) = Ok tt s
        /\ within_epsilon s = true /\ feasible s = true
        /\ removeEditVariable var_x s = Ok tt s'
        /\ In (key, row) (_rowMap s')
        /\ sym_type key = SymbolType.Slack
        /\ (-1.0e-8 <=? constant row) = false)
  /\ (exists s' key row,
        within_epsilon bounded_edit = true /\ feasible bounded_edit = true
        /\ calls overflowing_suggestions bounded_edit = Ok tt s'
        /\ In (key, row) (_rowMap s')
        /\ sym_type key = SymbolType.Slack
        /\ is_nan (constant row) = true
        /\ (constant row <? 0) = false
        /\ (-1.0e-8 <=? constant row) = false).
Proof.
  split; [|split; [|split; [|split; [|split]]]].
  - eexists. eexists. eexists. eexists. split; [vm_compute; reflexivity|].
    split; [left; reflexivity | reflexivity].
  - eexists. eexists. eexists. split; [vm_compute; reflexivity|].
    split; [right; left; reflexivity|]. split; reflexivity.
  - eexists. eexists. eexists. eexists. split; [vm_compute; reflexivity|].
    split; [reflexivity|]. split; [reflexivity|]. split; [vm_compute; reflexivity|].
    split; [right; left; reflexivity|]. split; reflexivity.
  - eexists. eexists. eexists. eexists. eexists. split; [vm_compute; reflexivity|].
    split; [reflexivity|]. split; [reflexivity|]. split; [vm_compute; reflexivity|].
    split; [right; left; reflexivity|]. split; reflexivity.
  - eexists. eexists. eexists. eexists. split; [vm_compute; reflexivity|].
    split; [reflexivity|]. split; [reflexivity|]. split; [vm_compute; reflexivity|].
    split; [right; left; reflexivity|]. split; reflexivity.
  - eexists. eexists. eexists. split; [reflexivity|]. split; [reflexivity|].
    split; [vm_compute; reflexivity|].
    split; [right; left; reflexivity|]. repeat split; reflexivity.
Qed.

(** ** C2: the edit round trip *)

(** C2, as amended.  On a new solver, [addEditVariable(v, Strength.strong)]
    followed by a first [suggestValue(v, x)] and [updateVariables()] returns
    and leaves [v.value()] equal to [x], bit for bit, for every number [x]. *)
Theorem first_suggestion_is_exact (cnId : Z) (values : Z -> float) (v : Var)
    (x : float) (fuel : nat) :
  exists s,
    (addEditVariable v Strength.strong ;; suggestValue fuel v x ;; updateVariables)
      (new_Solver cnId values) = Ok tt s
    /\ value v s = x.
Proof.
  destruct (updateVariables_single_edit cnId values v x (-0 + (x - 0) * 1))
    as (s & Run & Val).
  exists s. split.
  - rewrite (bind_Ok _ _ _ _ _ (addEditVariable_new_Solver cnId values v)).
    rewrite (bind_Ok _ _ _ _ _ (suggestValue_single_edit fuel cnId values v 0 (-0) x)).
    exact Run.
  - rewrite Val, sub_0_r, mul_1_r. apply add_negzero_l.
Qed.

(** C2 fails as stated.  A solver whose only constraint is the edit
    constraint of [x], after the suggestion 5: the suggestion 0.1 moves the
    row by the rounded difference, and [x.value()] is 0.099999999999999645. *)
Lemma second_suggestion_is_rounded :
  exists s s',
    (addEditVariable var_x Strength.strong ;; suggestValue 0 var_x 5)
      (new_Solver 0 no_values) = Ok tt s
    /\ map fst (_cnMap s) = [edit_constraint var_x 0]
    /\ map fst (_editMap s) = [var_x]
    /\ (suggestValue 0 var_x 0.1 ;; updateVariables) s = Ok tt s'
    /\ (value var_x s' =? 0.1) = false
    /\ value var_x s' = 0.099999999999999645.
Proof.
  eexists. eexists. split; [vm_compute; reflexivity|].
  split; [reflexivity|]. split; [reflexivity|].
  split; [vm_compute; reflexivity|]. split; reflexivity.
Qed.

(** ** C3: adding a constraint twice *)

(** C3.  When the constraint [c] is in the solver, [addConstraint(c)] throws
    'duplicate constraint' and leaves the whole state as it was; and when [c]
    is the only constraint, [removeConstraint(c)] ends in a state that holds
    no constraint. *)
Theorem duplicate_add_is_rejected (s : State) (c : Cn) :
  find c (_cnMap s) <> None ->
  addConstraint c s = Throw (JsError "duplicate constraint") s
  /\ (size (_cnMap s) = 1%nat ->
      exists s', final (removeConstraint c s) = Some s' /\ _cnMap s' = []).
Proof.
  intros F. split.
  - unfold addConstraint, bind, gets. now destruct (find c (_cnMap s)).
  - intros One. pose proof (removeConstraint_cnMap c s) as K.
    destruct (final (removeConstraint c s)) as [s'|]; [|contradiction].
    exists s'. split; trivial. rewrite K.
    destruct (find c (_cnMap s)) as [item|] eqn:Fi; [|contradiction].
    destruct (find_Some _ _ _ Fi) as (l1 & l2 & E & Ek & N).
    rewrite E in One |- *. unfold size in One. rewrite length_app in One. cbn in One.
    destruct l1, l2; try (cbn in One; lia).
    now rewrite (erase_last (H:=Constraint_HasId) c [] item Ek N).
Qed.

(** The solver that holds the required [x = 5] rejects it the second time,
    and holds nothing once it is removed. *)
Lemma duplicate_add_is_rejected_witness :
  addConstraint x_is_5 holding_x_is_5
  = Throw (JsError "duplicate constraint") holding_x_is_5
  /\ exists s', final (removeConstraint x_is_5 holding_x_is_5) = Some s'
                /\ _cnMap s' = [].
Proof.
  destruct (duplicate_add_is_rejected holding_x_is_5 x_is_5) as [A B].
  - vm_compute. discriminate.
  - split; [exact A | apply B; reflexivity].
Defined.

(** ** C4: an add that cannot be satisfied *)

(** C4, what the code does.  The required [x >= 10] is added, the required
    [x <= 5] throws 'unsatisfiable constraint' and the first constraint is
    still in the solver; but the failed add has pivoted the tableau, and
    [updateVariables()] then reports [x.value() = 5], below [10 - 1.0e-8]. *)
Theorem failed_add_moves_the_tableau :
  exists c1 s1 s2 s3,
    createConstraint (inl var_x) Operator.Ge (OpNumber 10) None (new_Solver 0 no_values)
    = Ok c1 s1
    /\ createConstraint (inl var_x) Operator.Le (OpNumber 5) None s1
       = Throw (JsError "unsatisfiable constraint") s2
    /\ hasConstraint c1 s2 = Ok true s2
    /\ updateVariables s2 = Ok tt s3
    /\ value var_x s3 = 5
    /\ (10 - 1.0e-8 <=? value var_x s3) = false.
Proof.
  eexists. eexists. eexists. eexists.
  split; [vm_compute; reflexivity|]. split; [vm_compute; reflexivity|].
  split; [vm_compute; reflexivity|]. split; [vm_compute; reflexivity|].
  split; reflexivity.
Qed.

(** ** C5: the subject of a new row *)

(** C5.  [_chooseSubject] returns (a) the first External symbol in the cell
    order of the row; else (b) the marker of the tag when it is Slack or Error
    with a negative coefficient in the row; else (c) the other symbol of the
    tag under the same condition; else (d) the invalid symbol.  And when the
    subject of the row [_createRow] made is invalid and every symbol of the
    row is Dummy, [addConstraint] solves the row for the marker and stores it
    under the marker if the constant is within epsilon of zero, and throws
    'unsatisfiable constraint' otherwise. *)
Theorem chooseSubject_precedence (row : Row) (tag : Tag) :
  let subject := _chooseSubject row tag in
  let negative symbol := slack_or_error symbol && (coefficientFor symbol row <? 0) in
  ((exists i c,
       nth_error (cells row) i = Some (subject, c)
       /\ sym_type subject = SymbolType.External
       /\ forall j item, (j < i)%nat -> nth_error (cells row) j = Some item ->
                         sym_type (fst item) <> SymbolType.External)
   \/ ((forall item, In item (cells row) -> sym_type (fst item) <> SymbolType.External)
       /\ ((negative (marker tag) = true /\ subject = marker tag)
           \/ (negative (marker tag) = false /\ negative (other tag) = true
               /\ subject = other tag)
           \/ (negative (marker tag) = false /\ negative (other tag) = false
               /\ subject = INVALID_SYMBOL))))
  /\ forall constraint s s1,
       find constraint (_cnMap s) = None ->
       _createRow constraint s = Ok (row, tag) s1 ->
       is_type SymbolType.Invalid subject = true ->
       allDummies row = true ->
       (nearZero (constant row) = true ->
        addConstraint constraint s =
        ((solved <- defined (solveFor (marker tag) row) ;;
          _substitute (marker tag) solved ;;
          rowMap_insert (marker tag) solved) ;;
         modify (fun s => set_cnMap (insert constraint tag (_cnMap s)) s) ;;
         _optimize TheObjective) s1)
       /\ (nearZero (constant row) = false ->
           addConstraint constraint s = Throw (JsError "unsatisfiable constraint") s1).
Proof.
  intros subject negative. split.
  - subst subject. unfold _chooseSubject.
    pose proof (first_external_spec (cells row)) as F.
    destruct (first_external (cells row)) as [symbol|]; [now left|].
    right. split; [exact F|]. fold (negative (marker tag)) (negative (other tag)).
    destruct (negative (marker tag)); [now left|].
    destruct (negative (other tag)); right; [left | right]; auto.
  - intros constraint s s1 F C I D.
    assert (A : addConstraint constraint s =
                if negb (nearZero (constant row))
                then Throw (JsError "unsatisfiable constraint") s1
                else install constraint (marker tag) row tag s1).
    { unfold addConstraint, bind at 1, gets at 1. rewrite F.
      unfold bind at 1. rewrite C. cbn [fst snd]. fold subject.
      rewrite I, D. cbn [andb]. now destruct (nearZero (constant row)). }
    rewrite A. split; intros Z; rewrite Z; cbn [negb]; [|reflexivity].
    unfold install. now rewrite (createRow_marker_type _ _ _ _ _ C).
Qed.

(** The required [x = 5] added a second time, as another constraint: its row
    holds Dummy symbols only and the constant zero, and the marker becomes
    the subject. *)
Lemma chooseSubject_precedence_witness :
  addConstraint x_is_5_again holding_x_is_5 =
  ((solved <- defined (solveFor (marker redundant_tag) redundant_row) ;;
    _substitute (marker redundant_tag) solved ;;
    rowMap_insert (marker redundant_tag) solved) ;;
   modify (fun s => set_cnMap (insert x_is_5_again redundant_tag (_cnMap s)) s) ;;
   _optimize TheObjective)
    (state_after (_createRow x_is_5_again) holding_x_is_5).
Proof.
  apply (chooseSubject_precedence redundant_row redundant_tag); vm_compute; reflexivity.
Defined.

(** ** C6: the values [updateVariables] writes *)

(** C6.  [updateVariables()] returns, and the value of every variable of
    [_varMap] is then the constant of the row stored under its External symbol
    when [_rowMap] has one, and 0 when it has none.  The variables of
    [_varMap] have distinct ids, as [IndexedMap] keeps them. *)
Theorem updateVariables_copies_constants (s : State) :
  NoDup (ids (_varMap s)) ->
  exists s',
    updateVariables s = Ok tt s'
    /\ forall v symbol, In (v, symbol) (_varMap s) ->
         value v s' =
         match find symbol (_rowMap s) with
         | Some basic => constant (snd basic)
         | None => 0
         end.
Proof.
  intros D. destruct (update_loop_spec (_varMap s) s) as (values & Run & _ & In_).
  exists (set_var_values values s). unfold updateVariables, bind, gets.
  rewrite Run. split; trivial. intros v symbol I. now apply In_.
Qed.

Lemma updateVariables_copies_constants_witness :
  exists s',
    updateVariables holding_x_is_5 = Ok tt s'
    /\ forall v symbol, In (v, symbol) (_varMap holding_x_is_5) ->
         value v s' =
         match find symbol (_rowMap holding_x_is_5) with
         | Some basic => constant (snd basic)
         | None => 0
         end.
Proof.
  apply (updateVariables_copies_constants holding_x_is_5).
  vm_compute. repeat constructor. intros [].
Defined.

(** ** C7: the packing of strengths *)

(** C7, as amended.  [Strength.create(a, b, c, w)] is
    [clamp(a*w, 0, 1000) * 10^6 + clamp(b*w, 0, 1000) * 10^3 + clamp(c*w, 0, 1000)]
    for all numbers, with [w = 1] when the weight is left out;
    [required = create(1000, 1000, 1000) = 1001001000], and strong, medium and
    weak are [create(1, 0, 0)], [create(0, 1, 0)] and [create(0, 0, 1)]. *)
Theorem create_packs_levels (a b c w : float) :
  Strength.create a b c (Some w) = Strength.create_spec a b c w
  /\ Strength.create a b c None = Strength.create_spec a b c 1
  /\ Strength.required = Strength.create 1000 1000 1000 None
  /\ Strength.required = 1001001000
  /\ Strength.strong = Strength.create 1 0 0 None
  /\ Strength.medium = Strength.create 0 1 0 None
  /\ Strength.weak = Strength.create 0 0 1 None.
Proof.
  assert (G : forall w', Strength.create a b c (Some w') = Strength.create_spec a b c w').
  { intros w'. unfold Strength.create, Strength.create_spec, Strength.clamp.
    rewrite add_0_l_nonneg; [reflexivity|].
    apply mul_sign_nonneg; [apply max0_sign | reflexivity]. }
  repeat split; try reflexivity. apply G. apply (G 1).
Qed.

(** C7 fails as stated in its constant: [create(1000, 1000, 1000)] is
    1001001000, which is not 1.001e9. *)
Lemma required_is_not_1001e6 : Strength.create 1000 1000 1000 None <> 1.001e9.
Proof.
  intros H.
  assert (E : (Strength.create 1000 1000 1000 None =? 1.001e9) = true)
    by (rewrite H; reflexivity).
  vm_compute in E. discriminate E.
Qed.

(** ** C8: cells near zero *)

(** C8, as amended.  [insertSymbol], [insertRow], [reverseSign] and
    [substitute] keep a row free of cells whose coefficient is within epsilon
    of zero, and [insertSymbol] erases the cell whose coefficient it brings
    within epsilon of zero. *)
Theorem inserting_operations_keep_cells_pruned (r : Row) :
  cells_pruned r ->
  (forall symbol c, cells_pruned (insertSymbol symbol c r))
  /\ (forall other c, cells_pruned (insertRow other c r))
  /\ cells_pruned (reverseSign r)
  /\ (forall symbol row, cells_pruned (substitute symbol row r))
  /\ (forall symbol c,
        NoDup (cell_ids r) -> nearZero (coefficientFor symbol r + c) = true ->
        find symbol (cells (insertSymbol symbol c r)) = None).
Proof.
  intros P. repeat split; intros.
  - now apply insertSymbol_pruned.
  - now apply insertRow_pruned.
  - now apply reverseSign_pruned.
  - now apply substitute_pruned.
  - now apply insertSymbol_erases.
Qed.

Lemma inserting_operations_keep_cells_pruned_witness :
  cells_pruned scaled_row
  /\ cells_pruned (insertSymbol (mkSymbol SymbolType.External 1) (-1.0e-8) scaled_row)
  /\ find (mkSymbol SymbolType.External 1)
          (cells (insertSymbol (mkSymbol SymbolType.External 1) (-1.0e-8) scaled_row))
     = None.
Proof.
  assert (P : cells_pruned scaled_row) by (repeat constructor).
  destruct (inserting_operations_keep_cells_pruned scaled_row P) as (I & _ & _ & _ & E).
  split; [exact P|]. split; [apply I|]. apply E; [|reflexivity].
  repeat constructor; simpl; intuition discriminate.
Defined.

(** C8 fails as stated for [solveFor] (and so for [solveForEx]): the row
    [2 x + 1.0e-8 y] solved for [x] keeps the cell of [y] with the coefficient
    -5e-9. *)
Lemma solveFor_leaves_near_zero_cell :
  ~ (forall r symbol r', cells_pruned r -> solveFor symbol r = Some r' -> cells_pruned r').
Proof.
  intros C.
  assert (P : cells_pruned scaled_row) by (repeat constructor).
  specialize (C scaled_row (mkSymbol SymbolType.External 0) _ P eq_refl).
  inversion C as [|item rest Z _]. vm_compute in Z. discriminate Z.
Qed.

(** ** C9: the strength of an edit variable *)

(** C9, as amended.  For a variable that is no edit variable yet,
    [addEditVariable] with a strength at or above [Strength.required] throws
    'bad required strength' and leaves the state as it was.  With a strength
    below [Strength.required] the clipped strength is between zero and
    [Strength.required], and the call is accepted: it does what the add of
    the constraint [variable = 0] at the clipped strength does.  When that
    add returns, the call returns, with the variable recorded as an edit
    variable together with the constraint and its tag; when that add throws,
    the call throws the same error from the same state. *)
Theorem addEditVariable_rejects_required (s : State) (variable : Var) (strength : float) :
  find variable (_editMap s) = None ->
  ((Strength.required <=? strength) = true ->
   addEditVariable variable strength s = Throw (JsError "bad required strength") s)
  /\ ((strength <? Strength.required) = true ->
      let clipped := Strength.clip strength in
      let cn := mkConstraint (CnId s) (Expr.new [ArgVariable variable]) Operator.Eq clipped in
      (0 <=? clipped) = true /\ (clipped <? Strength.required) = true
      /\ match addConstraint cn (set_CnId (CnId s + 1)%Z s) with
         | Ok _ s1 =>
             exists tag,
               find cn (_cnMap s1) = Some (cn, tag)
               /\ addEditVariable variable strength s
                  = Ok tt (set_editMap
                             (insert variable (mkEditInfo tag cn 0) (_editMap s1)) s1)
         | Throw e s1 => addEditVariable variable strength s = Throw e s1
         | Diverge => addEditVariable variable strength s = Diverge
         end).
Proof.
  intros F. split; intros L.
  - unfold addEditVariable, bind at 1, gets at 1. rewrite F.
    now rewrite (clip_at_least_required _ L).
  - intros clipped cn.
    assert (Range : (0 <=? clipped) = true /\ (clipped <? Strength.required) = true).
    { subst clipped. rewrite (clip_below _ L). destruct (0 <? strength) eqn:P.
      - split; [now apply ltb_leb | exact L].
      - split; reflexivity. }
    split; [apply Range|]. split; [apply Range|].
    assert (Cl : Strength.clip clipped = clipped).
    { subst clipped. rewrite (clip_below _ L). destruct (0 <? strength) eqn:P.
      - rewrite (clip_below _ L). now rewrite P.
      - reflexivity. }
    assert (Run : addEditVariable variable strength s =
                  (addConstraint cn ;;
                   found <- gets (fun s => find cn (_cnMap s)) ;;
                   item <- defined found ;;
                   modify (fun s => set_editMap
                                      (insert variable (mkEditInfo (snd item) cn 0)
                                              (_editMap s)) s))
                    (set_CnId (CnId s + 1)%Z s)).
    { unfold addEditVariable, bind at 1, gets at 1. rewrite F.
      destruct (clip_below_required _ L) as [_ ->].
      unfold bind at 1, gets at 1. unfold bind at 1, modify at 1.
      unfold Constraint_new. unfold bind at 1, defined at 1, ret at 1.
      fold clipped. rewrite Cl. reflexivity. }
    destruct (addConstraint cn (set_CnId (CnId s + 1)%Z s)) as [[] s1|e s1|] eqn:A;
      [|rewrite Run; unfold bind at 1; now rewrite A ..].
    assert (Fin : final (addConstraint cn (set_CnId (CnId s + 1)%Z s)) = Some s1)
      by now rewrite A.
    destruct (addConstraint_cnMap _ _ _ Fin) as [[_ N]|(Fc & [tag C] & _)];
      [now elim (N tt)|].
    assert (Fs : find cn (_cnMap s1) = Some (cn, tag)).
    { rewrite C. apply find_None in Fc.
      rewrite (find_app_other (H:=Constraint_HasId) cn _ _ Fc), find_cons.
      cbn [fst]. now rewrite Z.eqb_refl. }
    exists tag. split; [exact Fs|].
    rewrite Run, (bind_Ok _ _ _ _ _ A).
    unfold bind, gets, defined, ret, modify. rewrite Fs. reflexivity.
Qed.

(** On a new solver the strength 2e9, above [required], is rejected, and the
    strength strong is accepted: the call returns. *)
Lemma addEditVariable_rejects_required_witness :
  addEditVariable var_x 2.0e9 (new_Solver 0 no_values)
  = Throw (JsError "bad required strength") (new_Solver 0 no_values)
  /\ exists s', addEditVariable var_x Strength.strong (new_Solver 0 no_values) = Ok tt s'.
Proof.
  destruct (addEditVariable_rejects_required (new_Solver 0 no_values) var_x 2.0e9 eq_refl)
    as [A _].
  destruct (addEditVariable_rejects_required (new_Solver 0 no_values) var_x
              Strength.strong eq_refl) as [_ B].
  split; [apply A; reflexivity|].
  destruct (B eq_refl) as (_ & _ & Add).
  destruct (addConstraint _ _) as [[] s1|e s1|] eqn:E in Add.
  - destruct Add as (tag & _ & Run). eexists. exact Run.
  - exfalso. revert E. vm_compute. discriminate.
  - exfalso. revert E. vm_compute. discriminate.
Defined.

(** C9 fails as stated: the test for a duplicate comes before the one of the
    strength.  For [x], an edit variable of [bounded_edit] already, the
    strength 2e9, above [required], throws 'duplicate edit variable' and not
    'bad required strength', and the strength weak, below [required], is not
    accepted. *)
Lemma duplicate_is_tested_before_the_strength :
  hasEditVariable var_x bounded_edit = Ok true bounded_edit
  /\ (Strength.required <=? 2.0e9) = true
  /\ addEditVariable var_x 2.0e9 bounded_edit
     = Throw (JsError "duplicate edit variable") bounded_edit
  /\ (Strength.weak <? Strength.required) = true
  /\ addEditVariable var_x Strength.weak bounded_edit
     = Throw (JsError "duplicate edit variable") bounded_edit.
Proof. repeat split; vm_compute; reflexivity. Qed.

(** ** C10: what [updateVariables] leaves alone *)

(** C10.  [updateVariables()] returns, and the state it leaves differs from
    the state it found in the values of variables only: the tableau, the
    objective, the maps of constraints, variables and edits, and the list of
    infeasible rows are the same, and so is the value of every variable that
    [_varMap] does not hold. *)
Theorem updateVariables_writes_only_values (s : State) :
  exists s',
    updateVariables s = Ok tt s'
    /\ _rowMap s' = _rowMap s /\ _objective s' = _objective s
    /\ _cnMap s' = _cnMap s /\ _varMap s' = _varMap s /\ _editMap s' = _editMap s
    /\ _infeasibleRows s' = _infeasibleRows s
    /\ _artificial s' = _artificial s /\ _idTick s' = _idTick s
    /\ maxIterations s' = maxIterations s /\ CnId s' = CnId s
    /\ (forall id, ~ In id (ids (_varMap s)) -> var_values s' id = var_values s id).
Proof.
  destruct (update_loop_spec (_varMap s) s) as (values & Run & Out & _).
  exists (set_var_values values s). unfold updateVariables, bind, gets.
  rewrite Run. repeat split; trivial.
Qed.
